(** * Block-connection hot path: validation outcome, script-verify pre-checks,
      and the concurrent input fetcher.

    Shallow embedding of
    - [src/consensus/validation.h]   (class [CValidationState]),
    - [src/kernel/bitcoinkernel.cpp] ([verify_flags], [is_valid_flag_combination],
      [kernel_verify_script]),
    - [src/inputfetcher.h]           (class [InputFetcher]),
    - [src/kernel/bitcoinkernel_wrapper.h] ([verify_script]),
    - [src/util/translation.h]       ([bilingual_str], [util::translate]);
      of [src/kernel/bitcoinkernel.cpp] also [TxInputStream] and the logging
      options.

    Integers of the source are modelled as [Z] with their wrap-around written
    out; maps and sets are stdpp's [gmap] and [gset]; the threads of the input
    fetcher are modelled by a step function driven by an explicit schedule, one
    step per critical section (or per lock-free stretch of code). *)

From Stdlib Require Import ZArith Lia.
From stdpp Require Import gmap strings list fin_maps.

Local Open Scope Z_scope.

(* ===================================================================== *)
(** * Primitive data shared by the three components                       *)
(* ===================================================================== *)

(** The types below come from [primitives/transaction.h], [primitives/block.h]
    and [script/script.h], which are not among the sources; each keeps the
    members the code under study reads. *)

(** [Txid] is a 256-bit hash; only its identity matters here. *)
Definition Txid : Type := N.

(** Modelled from the spec: [COutPoint] is not among the sources. "Outpoint:
    immutable (transaction_id, output_index) pair identifying a coin;
    equality is structural." The members are [hash] and [n]. *)
Record COutPoint : Type := { hash : Txid; n : N }.

#[global] Instance COutPoint_eq_dec : EqDecision COutPoint.
Proof. solve_decision. Defined.

#[global] Instance COutPoint_countable : Countable COutPoint.
Proof.
  apply (inj_countable' (fun o => (hash o, n o))
                        (fun p => {| hash := p.1; n := p.2 |})).
  by intros [].
Defined.

(** [CScript] is a byte vector. *)
Definition CScript : Type := list Byte.byte.

(** [CTxOut]: (nValue, scriptPubKey); [CAmount] is [int64_t]. *)
Record CTxOut : Type := { nValue : Z; scriptPubKey : CScript }.

(** [CTxIn]: the outpoint spent, with its unlocking script and witness. *)
Record CTxIn : Type :=
  { prevout : COutPoint; scriptSig : CScript; scriptWitness : list (list Byte.byte) }.

(** Modelled from the spec: [CTransaction] is not among the sources. "Each
    transaction exposes an ordered input list (each bearing an outpoint) and a
    coinbase flag." [GetHash] is its id, [vin] its inputs, [IsCoinBase] the
    flag. *)
Record CTransaction : Type :=
  { GetHash : Txid; vin : list CTxIn; IsCoinBase : bool }.

(** Modelled from the spec: [CBlock] is not among the sources. "Ordered
    transaction sequence." *)
Record CBlock : Type := { vtx : list CTransaction }.

(** [size_t] arithmetic: 64-bit, wrapping. *)
Definition SIZE_MAX_plus_1 : Z := 2 ^ 64.
Definition size_t_wrap (z : Z) : Z := z mod SIZE_MAX_plus_1.

(** [v.size()] of a [std::vector]. *)
Definition vsize {A} (v : list A) : Z := Z.of_nat (length v).

(* ===================================================================== *)
(** * consensus/validation.h                                               *)
(* ===================================================================== *)

Module Validation.

Inductive ValidationInvalidReason : Type :=
| NONE
| CONSENSUS
| RECENT_CONSENSUS_CHANGE
| CACHED_INVALID
| BLOCK_MUTATED
| BLOCK_MISSING_PREV
| BLOCK_INVALID_PREV
| BLOCK_BAD_TIME
| BLOCK_CHECKPOINT
| TX_NOT_STANDARD
| TX_MISSING_INPUTS
| TX_WITNESS_MUTATED
| TX_CONFLICT
| TX_MEMPOOL_POLICY.

Inductive mode_state : Type := MODE_VALID | MODE_INVALID | MODE_ERROR.

#[global] Instance mode_state_eq_dec : EqDecision mode_state.
Proof. solve_decision. Defined.

(** The private members of [CValidationState]. *)
Record CValidationState : Type :=
  { mode : mode_state;
    reason : ValidationInvalidReason;
    nDoS : Z;                       (* int *)
    strRejectReason : string;
    chRejectCode : Z;               (* unsigned int *)
    corruptionPossible : bool;
    strDebugMessage : string }.

(** [int] addition. Overflow of a signed [int] is undefined in C++; the model
    takes the two's-complement result. *)
Definition int_wrap (z : Z) : Z := (z + 2 ^ 31) mod 2 ^ 32 - 2 ^ 31.

(** The constructor. *)
Definition init : CValidationState :=
  {| mode := MODE_VALID; reason := NONE; nDoS := 0; strRejectReason := EmptyString;
     chRejectCode := 0; corruptionPossible := false; strDebugMessage := EmptyString |}.

(** [DoS]: the five diagnostic members are assigned first, whatever the mode;
    the score and the mode only change outside [MODE_ERROR]. Returns [ret]. *)
Definition DoS (level : Z) (reasonIn : ValidationInvalidReason) (ret : bool)
    (chRejectCodeIn : Z) (strRejectReasonIn : string) (corruptionIn : bool)
    (strDebugMessageIn : string) (s : CValidationState) : bool * CValidationState :=
  let s1 := {| mode := mode s;
               reason := reasonIn;
               nDoS := nDoS s;
               strRejectReason := strRejectReasonIn;
               chRejectCode := chRejectCodeIn;
               corruptionPossible := corruptionIn;
               strDebugMessage := strDebugMessageIn |} in
  if decide (mode s1 = MODE_ERROR) then (ret, s1)
  else (ret, {| mode := MODE_INVALID;
                reason := reason s1;
                nDoS := int_wrap (nDoS s1 + level);
                strRejectReason := strRejectReason s1;
                chRejectCode := chRejectCode s1;
                corruptionPossible := corruptionPossible s1;
                strDebugMessage := strDebugMessage s1 |}).

(** [Invalid] forwards to [DoS] with level 0 and [corruptionIn = false]. *)
Definition Invalid (_reason : ValidationInvalidReason) (ret : bool)
    (_chRejectCode : Z) (_strRejectReason : string) (_strDebugMessage : string)
    (s : CValidationState) : bool * CValidationState :=
  DoS 0 _reason ret _chRejectCode _strRejectReason false _strDebugMessage s.

(** [Error]: the message is only stored when the state was still valid. *)
Definition Error (strRejectReasonIn : string) (s : CValidationState)
    : bool * CValidationState :=
  (false,
   {| mode := MODE_ERROR;
      reason := reason s;
      nDoS := nDoS s;
      strRejectReason :=
        if decide (mode s = MODE_VALID) then strRejectReasonIn else strRejectReason s;
      chRejectCode := chRejectCode s;
      corruptionPossible := corruptionPossible s;
      strDebugMessage := strDebugMessage s |}).

Definition IsValid (s : CValidationState) : bool := bool_decide (mode s = MODE_VALID).
Definition IsInvalid (s : CValidationState) : bool := bool_decide (mode s = MODE_INVALID).
Definition IsError (s : CValidationState) : bool := bool_decide (mode s = MODE_ERROR).

(** [IsInvalid(int& nDoSOut)]: the score is written only in invalid mode. *)
Definition IsInvalid_out (nDoSOut : Z) (s : CValidationState) : bool * Z :=
  if IsInvalid s then (true, nDoS s) else (false, nDoSOut).

Definition CorruptionPossible (s : CValidationState) : bool := corruptionPossible s.

Definition SetCorruptionPossible (s : CValidationState) : CValidationState :=
  {| mode := mode s; reason := reason s; nDoS := nDoS s;
     strRejectReason := strRejectReason s; chRejectCode := chRejectCode s;
     corruptionPossible := true; strDebugMessage := strDebugMessage s |}.

Definition GetReason (s : CValidationState) := reason s.
Definition GetDoS (s : CValidationState) : Z := nDoS s.
Definition GetRejectCode (s : CValidationState) : Z := chRejectCode s.
Definition GetRejectReason (s : CValidationState) : string := strRejectReason s.
Definition GetDebugMessage (s : CValidationState) : string := strDebugMessage s.

(** One call of a mutating member function, with its arguments. *)
Inductive op : Type :=
| OpDoS (level : Z) (reasonIn : ValidationInvalidReason) (ret : bool)
        (chRejectCodeIn : Z) (strRejectReasonIn : string) (corruptionIn : bool)
        (strDebugMessageIn : string)
| OpInvalid (_reason : ValidationInvalidReason) (ret : bool) (_chRejectCode : Z)
            (_strRejectReason : string) (_strDebugMessage : string)
| OpError (strRejectReasonIn : string)
| OpSetCorruptionPossible.

Definition apply_op (o : op) (s : CValidationState) : CValidationState :=
  match o with
  | OpDoS l r ret c m co d => (DoS l r ret c m co d s).2
  | OpInvalid r ret c m d => (Invalid r ret c m d s).2
  | OpError m => (Error m s).2
  | OpSetCorruptionPossible => SetCorruptionPossible s
  end.

(** A sequence of calls, first call first. *)
Definition apply_ops (os : list op) (s : CValidationState) : CValidationState :=
  foldl (fun s o => apply_op o s) s os.

(** ** Conditions on call sequences, for the statements below *)

(** The order valid, invalid, error of the three modes. *)
Definition mode_rank (m : mode_state) : Z :=
  match m with MODE_VALID => 0 | MODE_INVALID => 1 | MODE_ERROR => 2 end.

(** The values of an [int]. *)
Definition in_int (z : Z) : bool := (- 2 ^ 31 <=? z) && (z <? 2 ^ 31).

(** The levels the calls of [os] add to the score when the first of them
    finds the state outside error mode: the level of each [DoS], 0 for each
    [Invalid], up to the first [Error]. *)
Fixpoint counted_levels (os : list op) : list Z :=
  match os with
  | [] => []
  | OpDoS level _ _ _ _ _ _ :: os' => level :: counted_levels os'
  | OpInvalid _ _ _ _ _ :: os' => 0 :: counted_levels os'
  | OpError _ :: _ => []
  | OpSetCorruptionPossible :: os' => counted_levels os'
  end.

Definition sum_levels (levels : list Z) : Z := foldr Z.add 0 levels.

(** Every partial sum of [start] and [levels] is an [int]: no addition of the
    sequence overflows. *)
Fixpoint sums_fit (start : Z) (levels : list Z) : bool :=
  match levels with
  | [] => true
  | level :: levels' => in_int (start + level) && sums_fit (start + level) levels'
  end.

(** The call records a failure: every member function but
    [SetCorruptionPossible]. *)
Definition records_failure (o : op) : bool :=
  match o with OpSetCorruptionPossible => false | _ => true end.

End Validation.

(* ===================================================================== *)
(** * kernel/bitcoinkernel.{h,cpp}: script verification pre-checks         *)
(* ===================================================================== *)

Module Kernel.

(** [kernel_ScriptVerifyStatus] (bitcoinkernel.h). *)
Inductive kernel_ScriptVerifyStatus : Type :=
| kernel_SCRIPT_VERIFY_OK
| kernel_SCRIPT_VERIFY_ERROR_TX_INPUT_INDEX
| kernel_SCRIPT_VERIFY_ERROR_INVALID_FLAGS
| kernel_SCRIPT_VERIFY_ERROR_INVALID_FLAGS_COMBINATION
| kernel_SCRIPT_VERIFY_ERROR_SPENT_OUTPUTS_REQUIRED
| kernel_SCRIPT_VERIFY_ERROR_SPENT_OUTPUTS_MISMATCH.

(** [kernel_ScriptFlags] (bitcoinkernel.h). *)
Definition kernel_SCRIPT_FLAGS_VERIFY_NONE : Z := 0.
Definition kernel_SCRIPT_FLAGS_VERIFY_P2SH : Z := Z.shiftl 1 0.
Definition kernel_SCRIPT_FLAGS_VERIFY_DERSIG : Z := Z.shiftl 1 2.
Definition kernel_SCRIPT_FLAGS_VERIFY_NULLDUMMY : Z := Z.shiftl 1 4.
Definition kernel_SCRIPT_FLAGS_VERIFY_CHECKLOCKTIMEVERIFY : Z := Z.shiftl 1 9.
Definition kernel_SCRIPT_FLAGS_VERIFY_CHECKSEQUENCEVERIFY : Z := Z.shiftl 1 10.
Definition kernel_SCRIPT_FLAGS_VERIFY_WITNESS : Z := Z.shiftl 1 11.
Definition kernel_SCRIPT_FLAGS_VERIFY_TAPROOT : Z := Z.shiftl 1 17.
Definition kernel_SCRIPT_FLAGS_VERIFY_ALL : Z :=
  Z.lor kernel_SCRIPT_FLAGS_VERIFY_P2SH
 (Z.lor kernel_SCRIPT_FLAGS_VERIFY_DERSIG
 (Z.lor kernel_SCRIPT_FLAGS_VERIFY_NULLDUMMY
 (Z.lor kernel_SCRIPT_FLAGS_VERIFY_CHECKLOCKTIMEVERIFY
 (Z.lor kernel_SCRIPT_FLAGS_VERIFY_CHECKSEQUENCEVERIFY
 (Z.lor kernel_SCRIPT_FLAGS_VERIFY_WITNESS
        kernel_SCRIPT_FLAGS_VERIFY_TAPROOT))))).

(** [~x] on [unsigned int]. *)
Definition UINT_MAX : Z := 2 ^ 32 - 1.
Definition bit_not (x : Z) : Z := Z.lxor x UINT_MAX.

(** The interpreter's flag bits used by [is_valid_flag_combination].
    [script/interpreter.h] is not among the sources. The flag word is handed
    to [VerifyScript] unchanged, so the bits the kernel header exposes are the
    interpreter's bits: P2SH and WITNESS are taken from the header.
    [SCRIPT_VERIFY_CLEANSTACK] has no counterpart in the header; it stays a
    parameter of the functions below. *)
Definition SCRIPT_VERIFY_P2SH : Z := kernel_SCRIPT_FLAGS_VERIFY_P2SH.
Definition SCRIPT_VERIFY_WITNESS : Z := kernel_SCRIPT_FLAGS_VERIFY_WITNESS.

(** What the call hands to the interpreter. *)
Record PrecomputedTransactionData : Type :=
  { txdata_tx : CTransaction;
    (* [Some outs] once [Init(tx, std::move(spent_outputs))] has run *)
    txdata_spent_outputs : option (list CTxOut) }.

Record TransactionSignatureChecker : Type :=
  { checker_tx : CTransaction;
    checker_nIn : Z;
    checker_amount : Z;
    checker_txdata : PrecomputedTransactionData }.

Record VerifyScriptArgs : Type :=
  { arg_scriptSig : CScript;
    arg_scriptPubKey : CScript;
    arg_witness : list (list Byte.byte);
    arg_flags : Z;
    arg_checker : TransactionSignatureChecker }.

(** The observable effects of one call: the value returned, the caller's
    status slot afterwards, and the interpreter invocations made. *)
Record verify_result : Type :=
  { ret : bool;
    status_after : option kernel_ScriptVerifyStatus;
    interpreter_calls : list VerifyScriptArgs }.

(** [if (status) *status = st; return false;]. The slot is [None] for a null
    pointer and [Some v] for a slot holding [v]. *)
Definition fail_with (status : option kernel_ScriptVerifyStatus)
    (st : kernel_ScriptVerifyStatus) : verify_result :=
  {| ret := false;
     status_after := match status with Some _ => Some st | None => None end;
     interpreter_calls := [] |}.

(** [flags & f] as a condition. *)
Definition has_bits (flags f : Z) : bool := negb (Z.land flags f =? 0).

(** Check that all specified flags are part of the libbitcoinkernel interface. *)
Definition verify_flags (flags : Z) : bool :=
  Z.land flags (bit_not kernel_SCRIPT_FLAGS_VERIFY_ALL) =? 0.

Section Interpreter.

(** [SCRIPT_VERIFY_CLEANSTACK] (script/interpreter.h, not among the sources). *)
Variable SCRIPT_VERIFY_CLEANSTACK : Z.

(** The script interpreter (script/interpreter.cpp, not among the sources). *)
Variable VerifyScript : VerifyScriptArgs -> bool.

Definition is_valid_flag_combination (flags : Z) : bool :=
  if has_bits flags SCRIPT_VERIFY_CLEANSTACK
     && has_bits (bit_not flags) (Z.lor SCRIPT_VERIFY_P2SH SCRIPT_VERIFY_WITNESS)
  then false
  else if has_bits flags SCRIPT_VERIFY_WITNESS
          && has_bits (bit_not flags) SCRIPT_VERIFY_P2SH
  then false
  else true.

(** [tx.vin[input_index]]. *)
Definition vin_at (tx : CTransaction) (input_index : Z) : option CTxIn :=
  vin tx !! Z.to_nat input_index.

(** [kernel_verify_script]. [spent_outputs_] is [None] for a null pointer;
    [status] is the caller's slot as in [fail_with]. *)
Definition kernel_verify_script (script_pubkey : CScript) (amount : Z)
    (tx_to : CTransaction)
    (spent_outputs_ : option (list CTxOut)) (spent_outputs_len : Z)
    (input_index : Z) (flags : Z)
    (status : option kernel_ScriptVerifyStatus) : verify_result :=
  if negb (verify_flags flags) then
    fail_with status kernel_SCRIPT_VERIFY_ERROR_INVALID_FLAGS
  else if negb (is_valid_flag_combination flags) then
    fail_with status kernel_SCRIPT_VERIFY_ERROR_INVALID_FLAGS_COMBINATION
  else if has_bits flags kernel_SCRIPT_FLAGS_VERIFY_TAPROOT
          && bool_decide (spent_outputs_ = None) then
    fail_with status kernel_SCRIPT_VERIFY_ERROR_SPENT_OUTPUTS_REQUIRED
  else
    let tx := tx_to in
    if match spent_outputs_ with
       | Some _ => negb (spent_outputs_len =? vsize (vin tx))
       | None => false
       end then
      fail_with status kernel_SCRIPT_VERIFY_ERROR_SPENT_OUTPUTS_MISMATCH
    else
      (* the copy loop: spent_outputs_[0 .. spent_outputs_len) *)
      let spent_outputs :=
        match spent_outputs_ with
        | Some arr => take (Z.to_nat spent_outputs_len) arr
        | None => []
        end in
      if vsize (vin tx) <=? input_index then
        fail_with status kernel_SCRIPT_VERIFY_ERROR_TX_INPUT_INDEX
      else
        let txdata :=
          {| txdata_tx := tx;
             txdata_spent_outputs :=
               match spent_outputs_ with
               | Some _ =>
                   if has_bits flags kernel_SCRIPT_FLAGS_VERIFY_TAPROOT
                   then Some spent_outputs else None
               | None => None
               end |} in
        match vin_at tx input_index with
        | Some txin =>
            let call :=
              {| arg_scriptSig := scriptSig txin;
                 arg_scriptPubKey := script_pubkey;
                 arg_witness := scriptWitness txin;
                 arg_flags := flags;
                 arg_checker :=
                   {| checker_tx := tx; checker_nIn := input_index;
                      checker_amount := amount; checker_txdata := txdata |} |} in
            {| ret := VerifyScript call;
               status_after := status;
               interpreter_calls := [call] |}
        | None =>
            (* not reached: 0 <= input_index < vin.size() here *)
            fail_with status kernel_SCRIPT_VERIFY_ERROR_TX_INPUT_INDEX
        end.

End Interpreter.

(** ** Conditions on the arguments, for the statements below *)

(** Flag words with clean-stack but not both P2SH and witness, or with witness
    but not P2SH. *)
Definition bad_combination (cleanstack flags : Z) : Prop :=
  (has_bits flags cleanstack = true /\
   ~ (has_bits flags SCRIPT_VERIFY_P2SH = true /\
      has_bits flags SCRIPT_VERIFY_WITNESS = true))
  \/
  (has_bits flags SCRIPT_VERIFY_WITNESS = true /\
   has_bits flags SCRIPT_VERIFY_P2SH = false).

(** The five pre-checks, as conditions on the arguments. *)
Definition prechecks_pass (cleanstack : Z) (tx_to : CTransaction)
    (spent_outputs_ : option (list CTxOut)) (spent_outputs_len : Z)
    (input_index flags : Z) : Prop :=
  verify_flags flags = true /\
  is_valid_flag_combination cleanstack flags = true /\
  (has_bits flags kernel_SCRIPT_FLAGS_VERIFY_TAPROOT = true -> spent_outputs_ <> None) /\
  (spent_outputs_ <> None -> spent_outputs_len = vsize (vin tx_to)) /\
  0 <= input_index < vsize (vin tx_to).

(** The bit positions of [kernel_SCRIPT_FLAGS_VERIFY_ALL]. *)
Definition recognised_bits : list Z := [0; 2; 4; 9; 10; 11; 17].

(** A transaction with one input, for the instances below. *)
Definition ex_tx_one_input : CTransaction :=
  {| GetHash := 1%N;
     vin := [{| prevout := {| hash := 7%N; n := 0%N |}; scriptSig := [];
                scriptWitness := [] |}];
     IsCoinBase := false |}.

(** ** [verify_script] of kernel/bitcoinkernel_wrapper.h *)

(** What the wrapper leaves behind: the [int] returned, the status variable
    the caller passed by reference, and the interpreter invocations. *)
Record wrapper_result : Type :=
  { wrapper_ret : Z;
    wrapper_status : kernel_ScriptVerifyStatus;
    wrapper_interpreter_calls : list VerifyScriptArgs }.

Section Wrapper.

Variable SCRIPT_VERIFY_CLEANSTACK : Z.
Variable VerifyScript : VerifyScriptArgs -> bool.

(** The span of spent outputs becomes a pointer and a length: the pointer
    stays null when the span is empty. [status] is the value of the caller's
    variable at the call. The handles are taken to hold objects. *)
Definition verify_script (script_pubkey : CScript) (amount : Z) (tx_to : CTransaction)
    (spent_outputs : list CTxOut) (input_index : Z) (flags : Z)
    (status : kernel_ScriptVerifyStatus) : wrapper_result :=
  let spent_outputs_ptr :=
    if 0 <? vsize spent_outputs then Some spent_outputs else None in
  let r := kernel_verify_script SCRIPT_VERIFY_CLEANSTACK VerifyScript
             script_pubkey amount tx_to spent_outputs_ptr (vsize spent_outputs)
             input_index flags (Some status) in
  {| wrapper_ret := if ret r then 1 else 0;
     wrapper_status := match status_after r with Some st => st | None => status end;
     wrapper_interpreter_calls := interpreter_calls r |}.

End Wrapper.

(** ** [TxInputStream] *)

(** [m_data] is [None] for the null pointer, else the bytes of the caller's
    buffer from the pointer on. *)
Record TxInputStream : Type :=
  { m_data : option (list Byte.byte);
    m_remaining : Z }.                           (* size_t *)

(** The constructor. *)
Definition TxInputStream_new (txTo : option (list Byte.byte)) (txToLen : Z)
    : TxInputStream :=
  {| m_data := txTo; m_remaining := txToLen |}.

(** The outcome of [read]: the bytes copied to [dst] with the stream
    afterwards, or the message of the [std::ios_base::failure] thrown. Each
    [throw] comes before the first assignment, so the stream is then as it
    was. *)
Inductive read_result : Type :=
| ReadOk (bytes : list Byte.byte) (s : TxInputStream)
| ReadFailure (what : string).

(** [read(dst)]: [dst] is given by [dst.data() == nullptr] and [dst.size()]. *)
Definition read (dst_data_null : bool) (dst_size : Z) (s : TxInputStream)
    : read_result :=
  if m_remaining s <? dst_size then ReadFailure "read: end of data"%string
  else if dst_data_null then ReadFailure "read: bad destination buffer"%string
  else
    match m_data s with
    | None => ReadFailure "read: bad source buffer"%string
    | Some data =>
        ReadOk (take (Z.to_nat dst_size) data)
               {| m_data := Some (drop (Z.to_nat dst_size) data);
                  m_remaining := m_remaining s - dst_size |}
    end.

(** The caller's contract: [m_remaining] bytes can be read from [m_data]. *)
Definition stream_ok (s : TxInputStream) : Prop :=
  0 <= m_remaining s /\
  match m_data s with
  | Some data => m_remaining s <= vsize data
  | None => True
  end.

(** ** Logging options *)

(** [kernel_LogCategory] and [kernel_LogLevel] (bitcoinkernel.h). *)
Inductive kernel_LogCategory : Type :=
| kernel_LOG_ALL
| kernel_LOG_BENCH
| kernel_LOG_BLOCKSTORAGE
| kernel_LOG_COINDB
| kernel_LOG_LEVELDB
| kernel_LOG_LOCK
| kernel_LOG_MEMPOOL
| kernel_LOG_PRUNE
| kernel_LOG_RAND
| kernel_LOG_REINDEX
| kernel_LOG_VALIDATION
| kernel_LOG_KERNEL.

Inductive kernel_LogLevel : Type :=
| kernel_LOG_INFO
| kernel_LOG_DEBUG
| kernel_LOG_TRACE.

#[global] Instance kernel_LogCategory_eq_dec : EqDecision kernel_LogCategory.
Proof. solve_decision. Defined.

#[global] Instance kernel_LogLevel_eq_dec : EqDecision kernel_LogLevel.
Proof. solve_decision. Defined.

Definition log_level_to_string (level : kernel_LogLevel) : string :=
  match level with
  | kernel_LOG_INFO => "info"
  | kernel_LOG_DEBUG => "debug"
  | kernel_LOG_TRACE => "trace"
  end%string.

Definition log_category_to_string (category : kernel_LogCategory) : string :=
  match category with
  | kernel_LOG_BENCH => "bench"
  | kernel_LOG_BLOCKSTORAGE => "blockstorage"
  | kernel_LOG_COINDB => "coindb"
  | kernel_LOG_LEVELDB => "leveldb"
  | kernel_LOG_LOCK => "lock"
  | kernel_LOG_MEMPOOL => "mempool"
  | kernel_LOG_PRUNE => "prune"
  | kernel_LOG_RAND => "rand"
  | kernel_LOG_REINDEX => "reindex"
  | kernel_LOG_VALIDATION => "validation"
  | kernel_LOG_KERNEL => "kernel"
  | kernel_LOG_ALL => "all"
  end%string.

(** The member function of the logger ([logging.h], not among the sources) a
    call is forwarded to, with its arguments. *)
Inductive logger_call : Type :=
| SetLogLevel (level : string)
| SetCategoryLogLevel (category level : string)
| EnableCategory (category : string)
| DisableCategory (category : string).

Definition kernel_add_log_level_category (category : kernel_LogCategory)
    (level_ : kernel_LogLevel) : logger_call :=
  let level := log_level_to_string level_ in
  if decide (category = kernel_LOG_ALL) then SetLogLevel level
  else SetCategoryLogLevel (log_category_to_string category) level.

Definition kernel_enable_log_category (category : kernel_LogCategory) : logger_call :=
  EnableCategory (log_category_to_string category).

Definition kernel_disable_log_category (category : kernel_LogCategory) : logger_call :=
  DisableCategory (log_category_to_string category).

End Kernel.

(* ===================================================================== *)
(** * inputfetcher.h                                                       *)
(* ===================================================================== *)

Module Fetcher.

(** Modelled from the spec: the class [Coin] (coins.h) is not among the
    sources. "Coin: value, locking script, creation height, coinbase-origin
    flag." *)
Record Coin : Type := { out : CTxOut; nHeight : N; fCoinBase : bool }.

(** Modelled from the spec: [CCoinsViewDB] (txdb.h) is not among the sources.
    "Persistent UTXO store: get_coin(outpoint) -> Option<Coin>, read-only point
    lookup." *)
Abbreviation CCoinsViewDB := (gmap COutPoint Coin).

Definition GetCoin (db : CCoinsViewDB) (outpoint : COutPoint) : option Coin :=
  db !! outpoint.

(** Modelled from the spec: [CCoinsViewCache] (coins.h) is not among the
    sources. "Working Set cache: have_in_cache(outpoint) -> bool;
    insert(outpoint, coin, dirty: bool)." An entry keeps the coin and its
    dirty mark; inserting at a key that is present leaves the entry as it is
    (the map's emplace). *)
Record CCoinsCacheEntry : Type := { coin : Coin; dirty : bool }.

Abbreviation CCoinsViewCache := (gmap COutPoint CCoinsCacheEntry).

Definition HaveCoinInCache (cache : CCoinsViewCache) (outpoint : COutPoint) : bool :=
  bool_decide (is_Some (cache !! outpoint)).

Definition EmplaceCoinInternalDANGER (outpoint : COutPoint) (c : Coin)
    (set_dirty : bool) (cache : CCoinsViewCache) : CCoinsViewCache :=
  match cache !! outpoint with
  | Some _ => cache
  | None => <[outpoint := {| coin := c; dirty := set_dirty |}]> cache
  end.

(** ** The state guarded by [m_mutex] *)

Record shared : Type :=
  { m_outpoints : list COutPoint;               (* LIFO: the back is the top *)
    m_pairs : list (COutPoint * Coin);
    m_in_flight_fetches_count : Z;              (* size_t *)
    m_request_stop : bool }.

(** ** A worker thread running [Loop] *)

(** Where a worker is between two of its atomic steps. *)
Inductive worker_pc : Type :=
| AtLock      (* before [WAIT_LOCK] at the top of the do-body *)
| Waiting     (* inside [m_worker_cv.wait(lock)], mutex released *)
| Fetching    (* past the critical section, about to run the lookups *)
| Exited.     (* returned on [m_request_stop] *)

#[global] Instance worker_pc_eq_dec : EqDecision worker_pc.
Proof. solve_decision. Defined.

(** The locals of [Loop]. *)
Record worker : Type :=
  { w_pc : worker_pc;
    in_flight_fetches_count : Z;                (* size_t *)
    pairs : list (COutPoint * Coin);
    outpoints : list COutPoint }.

(** A thread as the constructor starts it. *)
Definition new_worker : worker :=
  {| w_pc := AtLock; in_flight_fetches_count := 0; pairs := []; outpoints := [] |}.

(** Lines 76-86: the clean-up of the previous loop run. *)
Definition merge_results (w : worker) (s : shared) : shared :=
  if decide (in_flight_fetches_count w = 0) then s
  else
    {| m_outpoints := m_outpoints s;
       m_pairs := if decide (m_pairs s = []) then pairs w else m_pairs s ++ pairs w;
       m_in_flight_fetches_count :=
         size_t_wrap (m_in_flight_fetches_count s - in_flight_fetches_count w);
       m_request_stop := m_request_stop s |}.

(** Lines 96-98: the size of the batch to claim. [None]: division by zero. *)
Definition batch_count (worker_count batch_size : Z) (s : shared) : option Z :=
  if decide (worker_count = 0) then None
  else
    let even_bucket := m_in_flight_fetches_count s / worker_count in
    Some (Z.max 1 (Z.min (Z.min (vsize (m_outpoints s)) batch_size) even_bucket)).

(** Lines 96-101: take the batch off the back of [m_outpoints]. [None]: the
    behaviour is undefined ([start_it] before [begin()], or the division). *)
Definition claim_batch (worker_count batch_size : Z) (s : shared)
    : option (Z * list COutPoint * shared) :=
  match batch_count worker_count batch_size s with
  | None => None
  | Some count =>
      if decide (count <= vsize (m_outpoints s)) then
        let start_it := (length (m_outpoints s) - Z.to_nat count)%nat in
        Some (count,
              drop start_it (m_outpoints s),
              {| m_outpoints := take start_it (m_outpoints s);
                 m_pairs := m_pairs s;
                 m_in_flight_fetches_count := m_in_flight_fetches_count s;
                 m_request_stop := m_request_stop s |})
      else None
  end.

(** Lines 89-101, entered with the mutex held: wait, exit or claim. *)
Definition Loop_wait_or_claim (worker_count batch_size : Z) (w : worker) (s : shared)
    : option (worker * shared) :=
  if bool_decide (m_outpoints s = []) && negb (m_request_stop s) then
    Some ({| w_pc := Waiting;
             in_flight_fetches_count := in_flight_fetches_count w;
             pairs := pairs w; outpoints := outpoints w |}, s)
  else if m_request_stop s then
    Some ({| w_pc := Exited;
             in_flight_fetches_count := in_flight_fetches_count w;
             pairs := pairs w; outpoints := outpoints w |}, s)
  else
    match claim_batch worker_count batch_size s with
    | Some (count, batch, s') =>
        Some ({| w_pc := Fetching;
                 in_flight_fetches_count := count;
                 pairs := pairs w; outpoints := batch |}, s')
    | None => None
    end.

(** One critical section of [Loop]: from [AtLock] the merge comes first; from
    [Waiting] the thread was woken and re-tests the loop condition. *)
Definition Loop_locked (worker_count batch_size : Z) (w : worker) (s : shared)
    : option (worker * shared) :=
  match w_pc w with
  | AtLock => Loop_wait_or_claim worker_count batch_size w (merge_results w s)
  | Waiting => Loop_wait_or_claim worker_count batch_size w s
  | Fetching | Exited => None
  end.

(** Lines 106-113: the lookups of one batch, appended to [acc]; the first
    missing coin ends the loop. *)
Fixpoint fetch_batch (db : CCoinsViewDB) (batch : list COutPoint)
    (acc : list (COutPoint * Coin)) : list (COutPoint * Coin) :=
  match batch with
  | [] => acc
  | outpoint :: rest =>
      match GetCoin db outpoint with
      | None => acc
      | Some c => fetch_batch db rest (acc ++ [(outpoint, c)])
      end
  end.

(** Lines 104-113, without the mutex. *)
Definition Loop_fetch (db : CCoinsViewDB) (w : worker) : option worker :=
  match w_pc w with
  | Fetching =>
      Some {| w_pc := AtLock;
              in_flight_fetches_count := in_flight_fetches_count w;
              pairs := fetch_batch db (outpoints w) [];
              outpoints := outpoints w |}
  | _ => None
  end.

(** ** The main thread: [Add] and [FetchInputs] *)

(** [Add], lines 118-133. (The notifications that follow wake waiting
    workers; a waiting worker may re-test its condition at any time.) *)
Definition Add (batch : list COutPoint) (s : shared) : shared :=
  if decide (batch = []) then s
  else
    {| m_outpoints := if decide (m_outpoints s = []) then batch
                      else m_outpoints s ++ batch;
       m_pairs := m_pairs s;
       m_in_flight_fetches_count :=
         size_t_wrap (m_in_flight_fetches_count s + vsize batch);
       m_request_stop := m_request_stop s |}.

(** Lines 175-193: the inputs of one transaction. The state of the scan is
    the buffer and the arguments of the [Add] calls made so far. *)
Fixpoint scan_inputs (cache : CCoinsViewCache) (batch_size : Z) (txids : gset Txid)
    (ins : list CTxIn) (buffer : list COutPoint) (adds : list (list COutPoint))
    : list COutPoint * list (list COutPoint) :=
  match ins with
  | [] => (buffer, adds)
  | txin :: ins' =>
      let outpoint := prevout txin in
      if decide (hash outpoint ∈ txids) then
        scan_inputs cache batch_size txids ins' buffer adds
      else if HaveCoinInCache cache outpoint then
        scan_inputs cache batch_size txids ins' buffer adds
      else
        let buffer' := buffer ++ [outpoint] in
        if decide (vsize buffer' = batch_size) then
          scan_inputs cache batch_size txids ins' [] (adds ++ [buffer'])
        else
          scan_inputs cache batch_size txids ins' buffer' adds
  end.

(** Lines 173-195: the transactions of the block. *)
Fixpoint scan_txs (cache : CCoinsViewCache) (batch_size : Z) (txs : list CTransaction)
    (txids : gset Txid) (buffer : list COutPoint) (adds : list (list COutPoint))
    : list COutPoint * list (list COutPoint) :=
  match txs with
  | [] => (buffer, adds)
  | tx :: txs' =>
      if IsCoinBase tx then scan_txs cache batch_size txs' txids buffer adds
      else
        let '(buffer', adds') :=
          scan_inputs cache batch_size txids (vin tx) buffer adds in
        scan_txs cache batch_size txs' ({[GetHash tx]} ∪ txids) buffer' adds'
  end.

(** Lines 170-197: the arguments of all [Add] calls of one [FetchInputs], in
    order; the last is the final flush of the buffer. The cache is only read
    here, and only written after the last [Add]. *)
Definition FetchInputs_scan (cache : CCoinsViewCache) (batch_size : Z) (block : CBlock)
    : list (list COutPoint) :=
  let '(buffer, adds) := scan_txs cache batch_size (vtx block) ∅ [] [] in
  adds ++ [buffer].

(** Where the main thread is inside [FetchInputs]. *)
Inductive main_pc : Type :=
| Scanning (adds : list (list COutPoint))      (* [Add] calls still to make *)
| AtDrainLock                                  (* before [WAIT_LOCK], line 202 *)
| DrainWaiting                                 (* inside [m_main_cv.wait(lock)] *)
| Inserting (ps : list (COutPoint * Coin))     (* lines 218-220 *)
| Returned.

(** Lines 202-216: one critical section of the drain loop. *)
Definition FetchInputs_locked (s : shared) : main_pc * shared :=
  if bool_decide (m_pairs s = []) && negb (m_request_stop s) then
    if decide (m_in_flight_fetches_count s = 0) then (Returned, s)
    else (DrainWaiting, s)
  else if m_request_stop s then (Returned, s)
  else
    (Inserting (m_pairs s),
     {| m_outpoints := m_outpoints s;
        m_pairs := [];
        m_in_flight_fetches_count := m_in_flight_fetches_count s;
        m_request_stop := m_request_stop s |}).

(** Lines 218-220: the coins go into the cache, not dirty. *)
Definition insert_pairs (ps : list (COutPoint * Coin)) (cache : CCoinsViewCache)
    : CCoinsViewCache :=
  foldl (fun c p => EmplaceCoinInternalDANGER p.1 p.2 false c) cache ps.

(** The destructor's [WITH_LOCK(m_mutex, m_request_stop = true)]. *)
Definition request_stop (s : shared) : shared :=
  {| m_outpoints := m_outpoints s;
     m_pairs := m_pairs s;
     m_in_flight_fetches_count := m_in_flight_fetches_count s;
     m_request_stop := true |}.

(** ** The whole system *)

Record state : Type :=
  { guarded : shared;
    m_worker_threads : list worker;
    main : main_pc;
    cache : CCoinsViewCache }.

(** The constructor: nothing queued, [worker_thread_count] threads started. *)
Definition construct (worker_thread_count : nat) : shared * list worker :=
  ({| m_outpoints := []; m_pairs := []; m_in_flight_fetches_count := 0;
      m_request_stop := false |},
   replicate worker_thread_count new_worker).

(** The main thread enters [FetchInputs(cache, db, block)] on a fetcher. *)
Definition FetchInputs_enter (f : shared * list worker) (batch_size : Z)
    (c : CCoinsViewCache) (block : CBlock) : state :=
  {| guarded := f.1;
     m_worker_threads := f.2;
     main := Scanning (FetchInputs_scan c batch_size block);
     cache := c |}.

(** A worker between two calls of [FetchInputs]: at the top of its first loop
    run, or waiting for work. *)
Definition worker_idle (w : worker) : bool :=
  match w_pc w with
  | AtLock =>
      bool_decide (in_flight_fetches_count w = 0)
      && bool_decide (outpoints w = []) && bool_decide (pairs w = [])
  | Waiting => true
  | Fetching | Exited => false
  end.

(** A fetcher between two calls of [FetchInputs]: nothing queued, no result
    pending, nothing in flight, no stop requested, every worker idle. *)
Definition idle (f : shared * list worker) : bool :=
  bool_decide (m_outpoints f.1 = []) && bool_decide (m_pairs f.1 = [])
  && bool_decide (m_in_flight_fetches_count f.1 = 0)
  && negb (m_request_stop f.1)
  && forallb worker_idle f.2.

(** The atomic steps; the schedule names the thread that moves next. *)
Inductive action : Type :=
| WorkerLock (i : nat)    (* worker [i] runs one critical section *)
| WorkerFetch (i : nat)   (* worker [i] runs the lookups of its batch *)
| MainStep                (* the main thread runs up to its next release *)
| Destroy.                (* the destructor requests the stop *)

Definition step (db : CCoinsViewDB) (batch_size : Z) (a : action) (st : state)
    : option state :=
  match a with
  | WorkerLock i =>
      match m_worker_threads st !! i with
      | Some w =>
          match Loop_locked (vsize (m_worker_threads st)) batch_size w (guarded st) with
          | Some (w', s') =>
              Some {| guarded := s';
                      m_worker_threads := <[i := w']> (m_worker_threads st);
                      main := main st; cache := cache st |}
          | None => None
          end
      | None => None
      end
  | WorkerFetch i =>
      match m_worker_threads st !! i with
      | Some w =>
          match Loop_fetch db w with
          | Some w' =>
              Some {| guarded := guarded st;
                      m_worker_threads := <[i := w']> (m_worker_threads st);
                      main := main st; cache := cache st |}
          | None => None
          end
      | None => None
      end
  | MainStep =>
      match main st with
      | Scanning [] =>
          Some {| guarded := guarded st; m_worker_threads := m_worker_threads st;
                  main := AtDrainLock; cache := cache st |}
      | Scanning (batch :: adds) =>
          Some {| guarded := Add batch (guarded st);
                  m_worker_threads := m_worker_threads st;
                  main := match adds with [] => AtDrainLock | _ => Scanning adds end;
                  cache := cache st |}
      | AtDrainLock | DrainWaiting =>
          let '(pc, s') := FetchInputs_locked (guarded st) in
          Some {| guarded := s'; m_worker_threads := m_worker_threads st;
                  main := pc; cache := cache st |}
      | Inserting ps =>
          Some {| guarded := guarded st; m_worker_threads := m_worker_threads st;
                  main := AtDrainLock; cache := insert_pairs ps (cache st) |}
      | Returned => None
      end
  | Destroy =>
      Some {| guarded := request_stop (guarded st);
              m_worker_threads := m_worker_threads st;
              main := main st; cache := cache st |}
  end.

(** A run under a schedule; [None] when the schedule names a thread that
    cannot move. *)
Fixpoint run (db : CCoinsViewDB) (batch_size : Z) (sched : list action) (st : state)
    : option state :=
  match sched with
  | [] => Some st
  | a :: sched' =>
      match step db batch_size a st with
      | Some st' => run db batch_size sched' st'
      | None => None
      end
  end.

(** [FetchInputs] has returned without a stop request. *)
Definition returned (st : state) : Prop :=
  main st = Returned ∧ m_request_stop (guarded st) = false.

(** The shared state a worker computes its batch from: after its merge when
    it comes from [AtLock], as it finds it when it was waiting. *)
Definition at_claim (w : worker) (s : shared) : shared :=
  match w_pc w with AtLock => merge_results w s | _ => s end.

(** ** What the threads hold, for the statements below *)

(** The size of the batch a worker has claimed and not merged yet: it counts
    from the claim up to the merge at the top of its next critical section. *)
Definition held_count (w : worker) : Z :=
  match w_pc w with
  | AtLock | Fetching => in_flight_fetches_count w
  | Waiting | Exited => 0
  end.

Definition sum_held (ws : list worker) : Z :=
  foldr (fun w acc => held_count w + acc) 0 ws.

(** The outpoints of that batch. *)
Definition held_outpoints (w : worker) : list COutPoint :=
  match w_pc w with
  | AtLock | Fetching => outpoints w
  | Waiting | Exited => []
  end.

(** The outpoints the main thread has scanned and not queued yet. *)
Definition pending_adds (pc : main_pc) : list COutPoint :=
  match pc with
  | Scanning adds => concat adds
  | _ => []
  end.

(** The pairs the main thread has drained and not inserted yet. *)
Definition pending_inserts (pc : main_pc) : list (COutPoint * Coin) :=
  match pc with
  | Inserting ps => ps
  | _ => []
  end.

(** The outpoints one [FetchInputs] queues, in scan order. *)
Definition fetch_targets (c : CCoinsViewCache) (batch_size : Z) (block : CBlock)
    : list COutPoint :=
  concat (FetchInputs_scan c batch_size block).

(** The scan with the batching left out: the prevouts of [ins] that pass the
    two [continue] tests, in order. *)
Definition wanted_inputs (c : CCoinsViewCache) (txids : gset Txid) (ins : list CTxIn)
    : list COutPoint :=
  filter (fun o => (hash o ∉ txids) /\ HaveCoinInCache c o = false) (prevout <$> ins).

Fixpoint wanted_txs (c : CCoinsViewCache) (txids : gset Txid) (txs : list CTransaction)
    : list COutPoint :=
  match txs with
  | [] => []
  | tx :: txs' =>
      if IsCoinBase tx then wanted_txs c txids txs'
      else wanted_inputs c txids (vin tx) ++ wanted_txs c ({[GetHash tx]} ∪ txids) txs'
  end.

(** The transactions of [pre] whose id the scan has recorded in [txids] once
    it is past them: the coinbase is skipped before the [insert]. *)
Definition recorded_txids (pre : list CTransaction) : list Txid :=
  GetHash <$> filter (fun tx => IsCoinBase tx = false) pre.

(** [outpoint] is the prevout of an input of a non-coinbase transaction of
    the block, its hash is not the id of a transaction recorded before, and
    it is not in the cache. *)
Definition scanned (c : CCoinsViewCache) (block : CBlock) (outpoint : COutPoint) : Prop :=
  exists pre tx post txin,
    vtx block = pre ++ tx :: post /\
    IsCoinBase tx = false /\
    (txin ∈ vin tx) /\ prevout txin = outpoint /\
    (hash outpoint ∉ recorded_txids pre) /\
    c !! outpoint = None.

(** The same with the ids of all earlier transactions of the block, the
    coinbase included. *)
Definition referenced_not_produced_earlier (c : CCoinsViewCache) (block : CBlock)
    (outpoint : COutPoint) : Prop :=
  exists pre tx post txin,
    vtx block = pre ++ tx :: post /\
    IsCoinBase tx = false /\
    (txin ∈ vin tx) /\ prevout txin = outpoint /\
    (hash outpoint ∉ (GetHash <$> pre)) /\
    c !! outpoint = None.

(** No input of a non-coinbase transaction of [txs] has the hash of an id in
    [cbs] or of the id of a coinbase that comes before it in [txs]. *)
Fixpoint no_coinbase_reference_from (cbs : gset Txid) (txs : list CTransaction) : bool :=
  match txs with
  | [] => true
  | tx :: txs' =>
      if IsCoinBase tx then no_coinbase_reference_from ({[GetHash tx]} ∪ cbs) txs'
      else
        forallb (fun txin => bool_decide (hash (prevout txin) ∉ cbs)) (vin tx)
        && no_coinbase_reference_from cbs txs'
  end.

(** No input of a non-coinbase transaction of the block names the id of a
    coinbase that comes before it in the block. *)
Definition no_coinbase_reference (block : CBlock) : bool :=
  no_coinbase_reference_from ∅ (vtx block).

(** The local state of a worker agrees with its program point. *)
Definition worker_ok (db : CCoinsViewDB) (w : worker) : Prop :=
  match w_pc w with
  | AtLock =>
      in_flight_fetches_count w = vsize (outpoints w) /\
      pairs w = fetch_batch db (outpoints w) []
  | Fetching =>
      1 <= in_flight_fetches_count w /\
      in_flight_fetches_count w = vsize (outpoints w)
  | Waiting | Exited => True
  end.

(** The counter invariant, with the bound that keeps [size_t] from wrapping:
    [total] is the number of outpoints the call queues. *)
Record count_inv (db : CCoinsViewDB) (total : Z) (st : state) : Prop :=
  { count_eq :
      m_in_flight_fetches_count (guarded st) =
      vsize (m_outpoints (guarded st)) + sum_held (m_worker_threads st);
    count_bound :
      m_in_flight_fetches_count (guarded st) + vsize (pending_adds (main st)) <= total;
    count_workers : Forall (worker_ok db) (m_worker_threads st) }.

(** A worker only exits once the stop is requested. *)
Definition alive_inv (st : state) : Prop :=
  m_request_stop (guarded st) = false ->
  Forall (fun w => w_pc w <> Exited) (m_worker_threads st).

(** Everything in transit is a target, every pair carries the store's coin,
    and the cache is the initial cache plus such pairs, marked clean. *)
Record sound_inv (db : CCoinsViewDB) (targets : list COutPoint)
    (cache0 : CCoinsViewCache) (st : state) : Prop :=
  { sound_adds : forall o, o ∈ pending_adds (main st) -> o ∈ targets;
    sound_queue : forall o, o ∈ m_outpoints (guarded st) -> o ∈ targets;
    sound_workers :
      Forall (fun w => forall o, o ∈ held_outpoints w -> o ∈ targets)
             (m_worker_threads st);
    sound_pairs :
      forall p, p ∈ m_pairs (guarded st) -> p.1 ∈ targets /\ db !! p.1 = Some p.2;
    sound_inserts :
      forall p, p ∈ pending_inserts (main st) -> p.1 ∈ targets /\ db !! p.1 = Some p.2;
    sound_cache :
      forall o e, cache st !! o = Some e ->
        cache0 !! o = Some e \/
        (o ∈ targets /\ exists c, db !! o = Some c /\ e = {| coin := c; dirty := false |});
    sound_cache0 :
      forall o e, cache0 !! o = Some e -> cache st !! o = Some e }.

(** Where a target is while the call runs. *)
Definition located (st : state) (o : COutPoint) : Prop :=
  o ∈ pending_adds (main st) \/
  o ∈ m_outpoints (guarded st) \/
  (exists w, w ∈ m_worker_threads st /\ o ∈ held_outpoints w) \/
  o ∈ (m_pairs (guarded st)).*1 \/
  o ∈ (pending_inserts (main st)).*1 \/
  is_Some (cache st !! o).

(** No target is lost. *)
Definition complete_inv (targets : list COutPoint) (st : state) : Prop :=
  forall o, o ∈ targets -> located st o.

(** A return without stop request finds nothing in flight and nothing to
    drain. *)
Definition returned_inv (st : state) : Prop :=
  returned st ->
  m_in_flight_fetches_count (guarded st) = 0 /\ m_pairs (guarded st) = [].

(** What the main thread does in one step. *)
Inductive main_step (st st' : state) : Prop :=
| main_add batch adds :
    main st = Scanning (batch :: adds) ->
    guarded st' = Add batch (guarded st) ->
    pending_adds (main st') = concat adds ->
    pending_inserts (main st') = [] ->
    main st' <> Returned ->
    cache st' = cache st ->
    main_step st st'
| main_scan_done :
    main st = Scanning [] ->
    guarded st' = guarded st -> main st' = AtDrainLock -> cache st' = cache st ->
    main_step st st'
| main_return :
    main st = AtDrainLock \/ main st = DrainWaiting ->
    guarded st' = guarded st -> main st' = Returned -> cache st' = cache st ->
    (m_request_stop (guarded st) = true \/
     (m_pairs (guarded st) = [] /\ m_in_flight_fetches_count (guarded st) = 0)) ->
    main_step st st'
| main_wait :
    main st = AtDrainLock \/ main st = DrainWaiting ->
    guarded st' = guarded st -> main st' = DrainWaiting -> cache st' = cache st ->
    main_step st st'
| main_drain :
    main st = AtDrainLock \/ main st = DrainWaiting ->
    m_request_stop (guarded st) = false ->
    main st' = Inserting (m_pairs (guarded st)) ->
    m_outpoints (guarded st') = m_outpoints (guarded st) ->
    m_pairs (guarded st') = [] ->
    m_in_flight_fetches_count (guarded st') = m_in_flight_fetches_count (guarded st) ->
    m_request_stop (guarded st') = m_request_stop (guarded st) ->
    cache st' = cache st ->
    main_step st st'
| main_insert ps :
    main st = Inserting ps ->
    guarded st' = guarded st -> main st' = AtDrainLock ->
    cache st' = insert_pairs ps (cache st) ->
    main_step st st'.

(** ** A small instance *)

(** A block with a coinbase and one transaction spending [ex_a] and [ex_b];
    the store has a coin for [ex_b] only; the cache is empty. *)
Definition ex_a : COutPoint := {| hash := 7%N; n := 0%N |}.
Definition ex_b : COutPoint := {| hash := 8%N; n := 0%N |}.

Definition ex_coin : Coin :=
  {| out := {| nValue := 5000; scriptPubKey := [] |}; nHeight := 1%N; fCoinBase := false |}.

Definition ex_input (o : COutPoint) : CTxIn :=
  {| prevout := o; scriptSig := []; scriptWitness := [] |}.

Definition ex_coinbase : CTransaction :=
  {| GetHash := 1%N;
     vin := [ex_input {| hash := 0%N; n := 4294967295%N |}];
     IsCoinBase := true |}.

Definition ex_tx : CTransaction :=
  {| GetHash := 2%N; vin := [ex_input ex_a; ex_input ex_b]; IsCoinBase := false |}.

Definition ex_block : CBlock := {| vtx := [ex_coinbase; ex_tx] |}.

Definition ex_db : CCoinsViewDB := {[ ex_b := ex_coin ]}.

(** The store with a coin for both. *)
Definition ex_db_full : CCoinsViewDB := <[ ex_a := ex_coin ]> ex_db.

(** One worker, batch size 2: the worker claims both outpoints at once. *)
Definition ex_sched_1 : list action :=
  [MainStep; MainStep; WorkerLock 0; WorkerFetch 0; WorkerLock 0; MainStep;
   MainStep; MainStep].

(** The same up to the return when nothing was fetched. *)
Definition ex_sched_1_short : list action :=
  [MainStep; MainStep; WorkerLock 0; WorkerFetch 0; WorkerLock 0; MainStep].

(** Two workers or more, batch size 2: workers 0 and 1 claim one outpoint
    each. *)
Definition ex_sched_2 : list action :=
  [MainStep; MainStep; WorkerLock 0; WorkerLock 1; WorkerFetch 0; WorkerFetch 1;
   WorkerLock 0; WorkerLock 1; MainStep; MainStep; MainStep].

(** A block whose second transaction spends output 0 of the block's own
    coinbase, and a store with a coin at that outpoint. *)
Definition ex_c : COutPoint := {| hash := 1%N; n := 0%N |}.

Definition ex_tx_c : CTransaction :=
  {| GetHash := 3%N; vin := [ex_input ex_c]; IsCoinBase := false |}.

Definition ex_block_c : CBlock := {| vtx := [ex_coinbase; ex_tx_c] |}.

Definition ex_db_c : CCoinsViewDB := {[ ex_c := ex_coin ]}.

Definition ex_sched_c : list action :=
  [MainStep; WorkerLock 0; WorkerFetch 0; WorkerLock 0; MainStep; MainStep; MainStep].

(** The shared state once the main thread has queued [ex_a] and [ex_b]. *)
Definition ex_queued : shared :=
  {| m_outpoints := [ex_a; ex_b]; m_pairs := [];
     m_in_flight_fetches_count := 2; m_request_stop := false |}.

(** ** The thread pool and the destructor *)

(** [HasThreads]. *)
Definition HasThreads (f : shared * list worker) : bool :=
  negb (bool_decide (f.2 = [])).

(** The number of inputs of the non-coinbase transactions of the block. *)
Definition input_count (block : CBlock) : Z :=
  foldr (fun tx acc => (if IsCoinBase tx then 0 else vsize (vin tx)) + acc) 0 (vtx block).





(** A block whose transaction names [ex_a], [ex_b] and [ex_c]. *)
Definition ex_tx_3 : CTransaction :=
  {| GetHash := 4%N; vin := [ex_input ex_a; ex_input ex_b; ex_input ex_c];
     IsCoinBase := false |}.

Definition ex_block_3 : CBlock := {| vtx := [ex_tx_3] |}.

End Fetcher.

(* ===================================================================== *)
(** * util/translation.h                                                   *)
(* ===================================================================== *)

Module Translation.

Local Open Scope string_scope.

Record bilingual_str : Type := { original : string; translated : string }.

(** [operator+=]. *)
Definition plus_assign (lhs rhs : bilingual_str) : bilingual_str :=
  {| original := original lhs +:+ original rhs;
     translated := translated lhs +:+ translated rhs |}.

(** [empty()]: only [original] is looked at. *)
Definition empty (s : bilingual_str) : bool := bool_decide (original s = EmptyString).

(** [clear()]. *)
Definition clear (s : bilingual_str) : bilingual_str :=
  {| original := EmptyString; translated := EmptyString |}.

(** [operator+]. *)
Definition plus (lhs rhs : bilingual_str) : bilingual_str := plus_assign lhs rhs.

(** [Untranslated(std::string)]. *)
Definition Untranslated (original : string) : bilingual_str :=
  {| original := original; translated := original |}.

Section Translate.

(** [G_TRANSLATION_FUN]: [None] for an empty [std::function]. *)
Variable G_TRANSLATION_FUN : option (string -> string).

(** [util::translate]. *)
Definition translate (lit : string) : string :=
  match G_TRANSLATION_FUN with
  | Some f => f lit
  | None => lit
  end.

(** [util::Translatable<translatable>]: [translate()] and the conversion to
    [bilingual_str]. *)
Definition Translatable_translate (translatable : bool) (lit : string) : string :=
  if translatable then translate lit else lit.

Definition Translatable_to_bilingual_str (translatable : bool) (lit : string)
    : bilingual_str :=
  {| original := lit; translated := Translatable_translate translatable lit |}.

(** A message put together from literals marked [_(...)] or
    [Untranslated(...)], untranslated strings and [+]. *)
Inductive message : Type :=
| Literal (translatable : bool) (lit : string)
| UntranslatedString (s : string)
| Plus (lhs rhs : message).

Fixpoint message_value (m : message) : bilingual_str :=
  match m with
  | Literal translatable lit => Translatable_to_bilingual_str translatable lit
  | UntranslatedString s => Untranslated s
  | Plus lhs rhs => plus (message_value lhs) (message_value rhs)
  end.

End Translate.

(** The definition in kernel/bitcoinkernel.cpp:
    [G_TRANSLATION_FUN{nullptr}]. *)
Definition kernel_G_TRANSLATION_FUN : option (string -> string) := None.

End Translation.

(* ===================================================================== *)
(** * Properties of the validation outcome                                 *)
(* ===================================================================== *)

Module ValidationSpec.
Import Validation.

(** [DoS] in error mode: mode and score stay, the diagnostics are stored. *)
Lemma DoS_in_error level r ret c m co d s :
  mode s = MODE_ERROR ->
  DoS level r ret c m co d s =
    (ret, {| mode := MODE_ERROR; reason := r; nDoS := nDoS s;
             strRejectReason := m; chRejectCode := c;
             corruptionPossible := co; strDebugMessage := d |}).
Proof.
  intros Hm. unfold DoS. cbn [mode]. rewrite Hm.
  destruct (decide (MODE_ERROR = MODE_ERROR)); [reflexivity | contradiction].
Qed.

(** No operation leaves error mode or touches the score there. *)
Lemma apply_op_error o s :
  mode s = MODE_ERROR ->
  mode (apply_op o s) = MODE_ERROR /\ nDoS (apply_op o s) = nDoS s.
Proof.
  intros Hm. destruct o; cbn [apply_op].
  - rewrite DoS_in_error by assumption. split; reflexivity.
  - unfold Invalid. rewrite DoS_in_error by assumption. split; reflexivity.
  - split; reflexivity.
  - split; [exact Hm | reflexivity].
Qed.

Lemma apply_ops_error os : forall s,
  mode s = MODE_ERROR ->
  mode (apply_ops os s) = MODE_ERROR /\ nDoS (apply_ops os s) = nDoS s.
Proof.
  induction os as [|o os IH]; intros s Hm; [split; [exact Hm | reflexivity] |].
  cbn [apply_ops foldl]. destruct (apply_op_error o s Hm) as [Hm' Hn].
  destruct (IH _ Hm') as [Hm'' Hn'']. fold (apply_ops os (apply_op o s)).
  split; [exact Hm'' | congruence].
Qed.

(** C2. Once [Error] has been called, whatever calls follow, a further
    [Invalid] leaves [IsError] true and [IsInvalid] false, keeps the score (it
    is still the score at the time of the [Error] call) and returns [ret];
    and [DoS] called in error mode keeps mode and score, stores the reason,
    reject code and messages it was given, and returns [ret]. *)
Theorem C2_error_mode_is_sticky :
  (forall s msg os r ret c m d,
      let s1 := apply_ops os (Error msg s).2 in
      let res := Invalid r ret c m d s1 in
      IsError res.2 = true /\ IsInvalid res.2 = false /\
      GetDoS res.2 = GetDoS s1 /\ GetDoS res.2 = GetDoS s /\ res.1 = ret)
  /\
  (forall s level r ret c m co d,
      IsError s = true ->
      let res := DoS level r ret c m co d s in
      res.1 = ret /\
      IsError res.2 = true /\ IsInvalid res.2 = false /\ IsValid res.2 = false /\
      GetDoS res.2 = GetDoS s /\
      GetReason res.2 = r /\ GetRejectCode res.2 = c /\
      GetRejectReason res.2 = m /\ GetDebugMessage res.2 = d).
Proof.
  split.
  - intros s msg os r ret c m d s1 res.
    assert (Hs1 : mode s1 = MODE_ERROR /\ nDoS s1 = nDoS s).
    { subst s1. destruct (apply_ops_error os (Error msg s).2) as [H1 H2];
        [reflexivity | split; [exact H1 | exact H2]]. }
    destruct Hs1 as [Hm Hn]. subst res. unfold Invalid.
    rewrite DoS_in_error by exact Hm.
    unfold IsError, IsInvalid, GetDoS; cbn. repeat split; try reflexivity; exact Hn.
  - intros s level r ret c m co d He res.
    assert (Hm : mode s = MODE_ERROR).
    { unfold IsError in He. apply bool_decide_eq_true in He. exact He. }
    subst res. rewrite DoS_in_error by exact Hm.
    unfold IsError, IsInvalid, IsValid, GetDoS, GetReason, GetRejectCode,
      GetRejectReason, GetDebugMessage; cbn.
    repeat split; reflexivity.
Qed.

Lemma C2_witness :
  let s := (Error "disk" init).2 in
  IsError s = true /\
  (DoS 100 CONSENSUS true 16 "bad-txns" false "dbg" s).1 = true /\
  GetDoS (DoS 100 CONSENSUS true 16 "bad-txns" false "dbg" s).2 = 0.
Proof.
  cbv zeta. split; [reflexivity |].
  pose proof (proj2 C2_error_mode_is_sticky (Error "disk" init).2
                100 CONSENSUS true 16 "bad-txns"%string false "dbg"%string
                eq_refl) as H.
  cbv zeta in H. destruct H as (H1 & _ & _ & _ & H5 & _).
  split; [exact H1 | exact H5].
Defined.

(** C8 fails as stated: a [DoS] with [corruptionIn = false] clears a flag that
    [SetCorruptionPossible] had set, and so does [Invalid]. *)
Lemma C8_counterexample :
  let s := SetCorruptionPossible init in
  CorruptionPossible s = true /\
  CorruptionPossible
    (apply_op (OpDoS 0 NONE false 0 EmptyString false EmptyString) s) = false /\
  CorruptionPossible
    (apply_op (OpInvalid NONE false 0 EmptyString EmptyString) s) = false.
Proof. cbv zeta. repeat split; reflexivity. Qed.

(** C8, amended. After any single operation the flag is: the [corruptionIn]
    argument after [DoS]; false after [Invalid]; unchanged after [Error]; true
    after [SetCorruptionPossible]. It is therefore kept by [Error],
    [SetCorruptionPossible] and [DoS] with [corruptionIn = true], and cleared
    by [Invalid] and by [DoS] with [corruptionIn = false]. *)
Theorem C8_corruption_flag_after_op (o : op) (s : CValidationState) :
  CorruptionPossible (apply_op o s) =
    match o with
    | OpDoS _ _ _ _ _ corruptionIn _ => corruptionIn
    | OpInvalid _ _ _ _ _ => false
    | OpError _ => CorruptionPossible s
    | OpSetCorruptionPossible => true
    end.
Proof.
  destruct o; cbn [apply_op]; unfold CorruptionPossible.
  - unfold DoS. cbn [mode]. destruct (decide (mode s = MODE_ERROR)); reflexivity.
  - unfold Invalid, DoS. cbn [mode]. destruct (decide (mode s = MODE_ERROR)); reflexivity.
  - reflexivity.
  - reflexivity.
Qed.

End ValidationSpec.

(* ===================================================================== *)
(** * Properties of the script-verification pre-checks                     *)
(* ===================================================================== *)

Module KernelSpec.
Import Kernel.

(** ** Bit tests *)

Lemma land_pow2 x k : 0 <= k -> Z.land x (2 ^ k) = if Z.testbit x k then 2 ^ k else 0.
Proof.
  intros Hk. apply Z.bits_inj'. intros i Hi.
  rewrite Z.land_spec, Z.pow2_bits_eqb by lia.
  destruct (Z.eqb_spec k i) as [->|Hne].
  - destruct (Z.testbit x i); cbn.
    + rewrite Z.pow2_bits_eqb by lia. symmetry. apply Z.eqb_refl.
    + symmetry. apply Z.bits_0.
  - rewrite andb_false_r. destruct (Z.testbit x k).
    + rewrite Z.pow2_bits_eqb by lia. symmetry. apply Z.eqb_neq. exact Hne.
    + symmetry. apply Z.bits_0.
Qed.

Lemma has_bits_pow2 x k : 0 <= k -> has_bits x (2 ^ k) = Z.testbit x k.
Proof.
  intros Hk. unfold has_bits. rewrite land_pow2 by exact Hk.
  destruct (Z.testbit x k); [| reflexivity].
  assert (0 < 2 ^ k) by (apply Z.pow_pos_nonneg; lia).
  destruct (Z.eqb_spec (2 ^ k) 0); [lia | reflexivity].
Qed.

Lemma testbit_bit_not x k : 0 <= k < 32 -> Z.testbit (bit_not x) k = negb (Z.testbit x k).
Proof.
  intros Hk. unfold bit_not, UINT_MAX. rewrite Z.lxor_spec.
  change (2 ^ 32 - 1) with (Z.ones 32). rewrite Z.ones_spec_low by lia.
  destruct (Z.testbit x k); reflexivity.
Qed.

Lemma has_bits_lor x a b : has_bits x (Z.lor a b) = has_bits x a || has_bits x b.
Proof.
  unfold has_bits. rewrite Z.land_lor_distr_r.
  destruct (Z.eqb_spec (Z.land x a) 0) as [Ha|Ha], (Z.eqb_spec (Z.land x b) 0) as [Hb|Hb]; cbn.
  - rewrite Ha, Hb. reflexivity.
  - destruct (Z.eqb_spec (Z.lor (Z.land x a) (Z.land x b)) 0) as [H|H]; [|reflexivity].
    apply Z.lor_eq_0_iff in H. tauto.
  - destruct (Z.eqb_spec (Z.lor (Z.land x a) (Z.land x b)) 0) as [H|H]; [|reflexivity].
    apply Z.lor_eq_0_iff in H. tauto.
  - destruct (Z.eqb_spec (Z.lor (Z.land x a) (Z.land x b)) 0) as [H|H]; [|reflexivity].
    apply Z.lor_eq_0_iff in H. tauto.
Qed.

Lemma has_P2SH flags : has_bits flags SCRIPT_VERIFY_P2SH = Z.testbit flags 0.
Proof. exact (has_bits_pow2 flags 0 ltac:(lia)). Qed.

Lemma has_WITNESS flags : has_bits flags SCRIPT_VERIFY_WITNESS = Z.testbit flags 11.
Proof. exact (has_bits_pow2 flags 11 ltac:(lia)). Qed.

(** [~flags & SCRIPT_VERIFY_P2SH]: the P2SH bit is missing. *)
Lemma lacks_P2SH flags :
  has_bits (bit_not flags) SCRIPT_VERIFY_P2SH = negb (has_bits flags SCRIPT_VERIFY_P2SH).
Proof. rewrite !has_P2SH. apply testbit_bit_not. lia. Qed.

(** [~flags & (SCRIPT_VERIFY_P2SH | SCRIPT_VERIFY_WITNESS)]: one of the two
    bits is missing. *)
Lemma lacks_P2SH_or_WITNESS flags :
  has_bits (bit_not flags) (Z.lor SCRIPT_VERIFY_P2SH SCRIPT_VERIFY_WITNESS) =
  negb (has_bits flags SCRIPT_VERIFY_P2SH && has_bits flags SCRIPT_VERIFY_WITNESS).
Proof.
  rewrite has_bits_lor, !has_P2SH, !has_WITNESS, !testbit_bit_not by lia.
  destruct (Z.testbit flags 0), (Z.testbit flags 11); reflexivity.
Qed.

Lemma is_valid_flag_combination_bad cleanstack flags :
  bad_combination cleanstack flags ->
  is_valid_flag_combination cleanstack flags = false.
Proof.
  unfold bad_combination, is_valid_flag_combination.
  rewrite lacks_P2SH_or_WITNESS, lacks_P2SH.
  intros [[Hc Hn] | [Hw Hp]].
  - rewrite Hc.
    destruct (has_bits flags SCRIPT_VERIFY_P2SH),
             (has_bits flags SCRIPT_VERIFY_WITNESS); cbn; try reflexivity.
    exfalso. apply Hn. split; reflexivity.
  - rewrite Hw, Hp. cbn. rewrite andb_true_r.
    destruct (has_bits flags cleanstack); reflexivity.
Qed.

(** C7 fails as stated: the recognised-flags test comes first. With the
    clean-stack bit at its interpreter position (bit 8, which the kernel
    header does not expose), [flags = {CLEANSTACK}] is answered
    invalid-flags; so is the witness bit without P2SH next to an unknown
    bit. *)
Lemma C7_counterexample :
  let cleanstack := Z.shiftl 1 8 in
  let tx := {| GetHash := 1%N; vin := []; IsCoinBase := false |} in
  (bad_combination cleanstack cleanstack /\
   forall interp,
     kernel_verify_script cleanstack interp [] 0 tx None 0 0 cleanstack
                          (Some kernel_SCRIPT_VERIFY_OK) =
     {| ret := false;
        status_after := Some kernel_SCRIPT_VERIFY_ERROR_INVALID_FLAGS;
        interpreter_calls := [] |})
  /\
  (let flags := Z.lor kernel_SCRIPT_FLAGS_VERIFY_WITNESS (Z.shiftl 1 1) in
   bad_combination cleanstack flags /\
   forall interp,
     kernel_verify_script cleanstack interp [] 0 tx None 0 0 flags
                          (Some kernel_SCRIPT_VERIFY_OK) =
     {| ret := false;
        status_after := Some kernel_SCRIPT_VERIFY_ERROR_INVALID_FLAGS;
        interpreter_calls := [] |}).
Proof.
  cbv zeta. split; (split; [| intros interp; reflexivity]).
  - left. split; [reflexivity |]. intros [H _]. discriminate H.
  - right. split; reflexivity.
Qed.

(** C7, amended. Whatever the other arguments: when the flag word has a bit
    outside the recognised set, the call returns false, writes invalid-flags to
    a non-null status slot and does not invoke the interpreter; when all bits
    are recognised and the word has clean-stack without both P2SH and witness,
    or witness without P2SH, it returns false, writes
    invalid-flag-combination to a non-null status slot and does not invoke
    the interpreter. *)
Theorem C7_flag_prechecks cleanstack interp script_pubkey amount tx_to
    spent_outputs_ spent_outputs_len input_index flags status :
  let r := kernel_verify_script cleanstack interp script_pubkey amount tx_to
             spent_outputs_ spent_outputs_len input_index flags status in
  (verify_flags flags = false ->
     ret r = false /\ interpreter_calls r = [] /\
     status_after r =
       (fun _ => kernel_SCRIPT_VERIFY_ERROR_INVALID_FLAGS) <$> status)
  /\
  (verify_flags flags = true -> bad_combination cleanstack flags ->
     ret r = false /\ interpreter_calls r = [] /\
     status_after r =
       (fun _ => kernel_SCRIPT_VERIFY_ERROR_INVALID_FLAGS_COMBINATION) <$> status).
Proof.
  cbv zeta. unfold kernel_verify_script. split.
  - intros Hv. rewrite Hv. cbn. destruct status; repeat split; reflexivity.
  - intros Hv Hb. rewrite Hv, (is_valid_flag_combination_bad _ _ Hb). cbn.
    destruct status; repeat split; reflexivity.
Qed.

Lemma C7_witness :
  let tx := {| GetHash := 1%N; vin := []; IsCoinBase := false |} in
  let r := kernel_verify_script (Z.shiftl 1 8) (fun _ => true) [] 0 tx None 0 0
             kernel_SCRIPT_FLAGS_VERIFY_WITNESS (Some kernel_SCRIPT_VERIFY_OK) in
  ret r = false /\ interpreter_calls r = [] /\
  status_after r = Some kernel_SCRIPT_VERIFY_ERROR_INVALID_FLAGS_COMBINATION.
Proof.
  cbv zeta.
  apply (proj2 (C7_flag_prechecks (Z.shiftl 1 8) (fun _ => true) [] 0
                  {| GetHash := 1%N; vin := []; IsCoinBase := false |} None 0 0
                  kernel_SCRIPT_FLAGS_VERIFY_WITNESS (Some kernel_SCRIPT_VERIFY_OK))).
  - reflexivity.
  - right. split; reflexivity.
Defined.

(** C9. When the five pre-checks pass, the status slot is left as it was
    (whatever it held, so OK stays OK), the interpreter is invoked once, on
    the input at [input_index], and its verdict, true or false, is returned. *)
Theorem C9_status_untouched_on_pass cleanstack interp script_pubkey amount tx_to
    spent_outputs_ spent_outputs_len input_index flags status :
  prechecks_pass cleanstack tx_to spent_outputs_ spent_outputs_len input_index flags ->
  let r := kernel_verify_script cleanstack interp script_pubkey amount tx_to
             spent_outputs_ spent_outputs_len input_index flags status in
  status_after r = status /\
  exists txin call,
    vin tx_to !! Z.to_nat input_index = Some txin /\
    arg_scriptSig call = scriptSig txin /\
    arg_scriptPubKey call = script_pubkey /\
    arg_witness call = scriptWitness txin /\
    arg_flags call = flags /\
    interpreter_calls r = [call] /\ ret r = interp call.
Proof.
  intros (Hv & Hc & Ht & Hl & Hi) r. subst r. unfold kernel_verify_script.
  rewrite Hv, Hc. cbn [negb].
  assert (Htap : has_bits flags kernel_SCRIPT_FLAGS_VERIFY_TAPROOT
                 && bool_decide (spent_outputs_ = None) = false).
  { destruct (has_bits flags kernel_SCRIPT_FLAGS_VERIFY_TAPROOT) eqn:E; [| reflexivity].
    cbn. apply bool_decide_eq_false. apply Ht. reflexivity. }
  rewrite Htap.
  assert (Hlen : match spent_outputs_ with
                 | Some _ => negb (spent_outputs_len =? vsize (vin tx_to))
                 | None => false
                 end = false).
  { destruct spent_outputs_ as [arr|]; [| reflexivity].
    rewrite (Hl ltac:(discriminate)), Z.eqb_refl. reflexivity. }
  rewrite Hlen.
  assert (Hidx : (vsize (vin tx_to) <=? input_index) = false) by (apply Z.leb_gt; lia).
  rewrite Hidx.
  assert (Hin : is_Some (vin_at tx_to input_index)).
  { unfold vin_at. apply lookup_lt_is_Some. unfold vsize in Hi. lia. }
  destruct Hin as [txin Htxin]. rewrite Htxin. cbn.
  split; [reflexivity |].
  eexists txin, _. repeat split; try reflexivity. exact Htxin.
Qed.

Lemma C9_witness :
  let txin := {| prevout := {| hash := 7%N; n := 0%N |}; scriptSig := [];
                 scriptWitness := [] |} in
  let tx := {| GetHash := 1%N; vin := [txin]; IsCoinBase := false |} in
  let r_true := kernel_verify_script (Z.shiftl 1 8) (fun _ => true) [] 0 tx None 0 0
                  kernel_SCRIPT_FLAGS_VERIFY_P2SH (Some kernel_SCRIPT_VERIFY_OK) in
  let r_false := kernel_verify_script (Z.shiftl 1 8) (fun _ => false) [] 0 tx None 0 0
                   kernel_SCRIPT_FLAGS_VERIFY_P2SH (Some kernel_SCRIPT_VERIFY_OK) in
  (status_after r_true = Some kernel_SCRIPT_VERIFY_OK /\ ret r_true = true) /\
  (status_after r_false = Some kernel_SCRIPT_VERIFY_OK /\ ret r_false = false).
Proof.
  cbv zeta.
  set (txin := {| prevout := {| hash := 7%N; n := 0%N |}; scriptSig := [];
                  scriptWitness := [] |}).
  set (tx := {| GetHash := 1%N; vin := [txin]; IsCoinBase := false |}).
  assert (Hpre : prechecks_pass (Z.shiftl 1 8) tx None 0 0
                   kernel_SCRIPT_FLAGS_VERIFY_P2SH).
  { repeat split; try reflexivity; try discriminate; intros H; contradiction. }
  split.
  - destruct (C9_status_untouched_on_pass (Z.shiftl 1 8) (fun _ => true) [] 0 tx
                None 0 0 kernel_SCRIPT_FLAGS_VERIFY_P2SH
                (Some kernel_SCRIPT_VERIFY_OK) Hpre)
      as (Hs & _ & call & _ & _ & _ & _ & _ & _ & Hr).
    split; [exact Hs | exact Hr].
  - destruct (C9_status_untouched_on_pass (Z.shiftl 1 8) (fun _ => false) [] 0 tx
                None 0 0 kernel_SCRIPT_FLAGS_VERIFY_P2SH
                (Some kernel_SCRIPT_VERIFY_OK) Hpre)
      as (Hs & _ & call & _ & _ & _ & _ & _ & _ & Hr).
    split; [exact Hs | exact Hr].
Defined.

End KernelSpec.

(* ===================================================================== *)
(** * Properties of the input fetcher                                      *)
(* ===================================================================== *)

Module FetcherSpec.
Import Fetcher.

(** ** The claim of a batch *)

Lemma vsize_app {A} (l k : list A) : vsize (l ++ k) = vsize l + vsize k.
Proof. unfold vsize. rewrite length_app. lia. Qed.

Lemma vsize_nonneg {A} (l : list A) : 0 <= vsize l.
Proof. unfold vsize. lia. Qed.

Lemma vsize_nil_iff {A} (l : list A) : vsize l = 0 <-> l = [].
Proof. unfold vsize. destruct l; cbn; split; intros; try done; lia. Qed.

Lemma batch_count_range wc bs s k :
  batch_count wc bs s = Some k ->
  m_outpoints s <> [] ->
  1 <= k <= vsize (m_outpoints s).
Proof.
  unfold batch_count. destruct (decide (wc = 0)); [discriminate |].
  intros [= <-] Hq.
  assert (1 <= vsize (m_outpoints s)).
  { pose proof (vsize_nonneg (m_outpoints s)).
    destruct (decide (vsize (m_outpoints s) = 0)) as [E|E]; [| lia].
    apply vsize_nil_iff in E. contradiction. }
  lia.
Qed.

Lemma claim_batch_spec wc bs s k batch s' :
  claim_batch wc bs s = Some (k, batch, s') ->
  batch_count wc bs s = Some k /\
  1 <= k <= vsize (m_outpoints s) /\
  vsize batch = k /\
  m_outpoints s = m_outpoints s' ++ batch /\
  m_pairs s' = m_pairs s /\
  m_in_flight_fetches_count s' = m_in_flight_fetches_count s /\
  m_request_stop s' = m_request_stop s.
Proof.
  unfold claim_batch. destruct (batch_count wc bs s) as [c|] eqn:Hc; [| discriminate].
  destruct (decide (c <= vsize (m_outpoints s))) as [Hle|]; [| discriminate].
  intros [= <- <- <-]. cbn.
  assert (1 <= c) by (unfold batch_count in Hc; destruct (decide (wc = 0)); [discriminate|];
                      injection Hc as <-; lia).
  unfold vsize in *. rewrite length_drop, take_drop.
  repeat split; try reflexivity; lia.
Qed.

Lemma claim_batch_defined wc bs s :
  m_outpoints s <> [] -> wc <> 0 ->
  exists k batch s', claim_batch wc bs s = Some (k, batch, s').
Proof.
  intros Hq Hwc. unfold claim_batch.
  destruct (batch_count wc bs s) as [c|] eqn:Hc.
  - destruct (batch_count_range _ _ _ _ Hc Hq) as [_ Hle].
    destruct (decide (c <= vsize (m_outpoints s))); [| lia]. eauto.
  - unfold batch_count in Hc. destruct (decide (wc = 0)); [contradiction | discriminate].
Qed.

(** C10. With a non-empty queue and at least one worker the batch size is
    defined and lies between 1 and the queue length, whatever the counter and
    the batch size are; the claim then takes exactly that many outpoints off
    the back of the queue and leaves the rest. *)
Theorem C10_claim_in_bounds (worker_count batch_size : Z) (s : shared) :
  m_outpoints s <> [] -> 1 <= worker_count ->
  exists k batch s',
    batch_count worker_count batch_size s = Some k /\
    1 <= k <= vsize (m_outpoints s) /\
    claim_batch worker_count batch_size s = Some (k, batch, s') /\
    vsize batch = k /\
    m_outpoints s = m_outpoints s' ++ batch /\
    vsize (m_outpoints s') = vsize (m_outpoints s) - k.
Proof.
  intros Hq Hwc.
  destruct (claim_batch_defined worker_count batch_size s Hq ltac:(lia))
    as (k & batch & s' & Hclaim).
  destruct (claim_batch_spec _ _ _ _ _ _ Hclaim) as (Hk & _ & Hlen & Happ & _).
  exists k, batch, s'. repeat split; try assumption.
  - apply (batch_count_range _ _ _ _ Hk Hq).
  - apply (batch_count_range _ _ _ _ Hk Hq).
  - rewrite Happ, vsize_app. lia.
Qed.

Lemma C10_witness :
  exists k batch s',
    batch_count 8 2 ex_queued = Some k /\
    1 <= k <= vsize (m_outpoints ex_queued) /\
    claim_batch 8 2 ex_queued = Some (k, batch, s') /\
    vsize batch = k /\
    m_outpoints ex_queued = m_outpoints s' ++ batch /\
    vsize (m_outpoints s') = vsize (m_outpoints ex_queued) - k.
Proof. apply (C10_claim_in_bounds 8 2 ex_queued); [discriminate | lia]. Defined.

Lemma merge_results_queue w s : m_outpoints (merge_results w s) = m_outpoints s.
Proof. unfold merge_results. destruct (decide _); reflexivity. Qed.

Lemma merge_results_stop w s : m_request_stop (merge_results w s) = m_request_stop s.
Proof. unfold merge_results. destruct (decide _); reflexivity. Qed.

Lemma merge_results_pairs w s :
  m_pairs (merge_results w s) =
    if decide (in_flight_fetches_count w = 0) then m_pairs s else m_pairs s ++ pairs w.
Proof.
  unfold merge_results. destruct (decide _); [reflexivity |]. cbn.
  destruct (decide (m_pairs s = [])) as [->|]; reflexivity.
Qed.

(** The three ways out of [Loop_wait_or_claim]. *)
Lemma Loop_wait_or_claim_cases wc bs w s w' s' :
  Loop_wait_or_claim wc bs w s = Some (w', s') ->
  (m_outpoints s = [] /\ m_request_stop s = false /\ s' = s /\
   w' = {| w_pc := Waiting; in_flight_fetches_count := in_flight_fetches_count w;
           pairs := pairs w; outpoints := outpoints w |})
  \/
  (m_request_stop s = true /\ s' = s /\
   w' = {| w_pc := Exited; in_flight_fetches_count := in_flight_fetches_count w;
           pairs := pairs w; outpoints := outpoints w |})
  \/
  (m_outpoints s <> [] /\ m_request_stop s = false /\
   exists k batch,
     claim_batch wc bs s = Some (k, batch, s') /\
     w' = {| w_pc := Fetching; in_flight_fetches_count := k;
             pairs := pairs w; outpoints := batch |}).
Proof.
  unfold Loop_wait_or_claim.
  destruct (bool_decide (m_outpoints s = [])) eqn:Hq;
    destruct (m_request_stop s) eqn:Hs; cbn.
  - intros [= <- <-]. right; left. auto.
  - apply bool_decide_eq_true in Hq. intros [= <- <-]. left. auto.
  - intros [= <- <-]. right; left. auto.
  - apply bool_decide_eq_false in Hq.
    destruct (claim_batch wc bs s) as [[[k batch] s1]|] eqn:Hc; [| discriminate].
    intros [= <- <-]. right; right. eauto 10.
Qed.

Lemma Loop_locked_at_claim wc bs w s :
  w_pc w = AtLock \/ w_pc w = Waiting ->
  Loop_locked wc bs w s = Loop_wait_or_claim wc bs w (at_claim w s).
Proof. unfold Loop_locked, at_claim. intros [-> | ->]; reflexivity. Qed.

(** C6. A worker that enters its critical section with a non-empty queue, no
    stop request and [worker_count >= 1] claims a batch, and the number of
    outpoints it takes off the queue is
    [max 1 (min batch_size (min queue_length (in_flight / worker_count)))],
    with the counter as it is when the size is computed (after this worker's
    merge) and [/] the integer division. *)
Theorem C6_batch_size (worker_count batch_size : Z) (w : worker) (s : shared) :
  w_pc w = AtLock \/ w_pc w = Waiting ->
  m_outpoints s <> [] -> m_request_stop s = false -> 1 <= worker_count ->
  exists w' s',
    Loop_locked worker_count batch_size w s = Some (w', s') /\
    w_pc w' = Fetching /\
    let in_flight := m_in_flight_fetches_count (at_claim w s) in
    let k := Z.max 1 (Z.min batch_size
                        (Z.min (vsize (m_outpoints s)) (in_flight / worker_count))) in
    vsize (m_outpoints s) - vsize (m_outpoints s') = k /\
    vsize (outpoints w') = k /\
    in_flight_fetches_count w' = k /\
    m_outpoints s = m_outpoints s' ++ outpoints w'.
Proof.
  intros Hpc Hq Hstop Hwc.
  assert (Hq1 : m_outpoints (at_claim w s) = m_outpoints s).
  { unfold at_claim. destruct (w_pc w); try reflexivity. apply merge_results_queue. }
  assert (Hs1 : m_request_stop (at_claim w s) = m_request_stop s).
  { unfold at_claim. destruct (w_pc w); try reflexivity. apply merge_results_stop. }
  destruct (claim_batch_defined worker_count batch_size (at_claim w s))
    as (k & batch & s' & Hclaim); [rewrite Hq1; exact Hq | lia |].
  destruct (claim_batch_spec _ _ _ _ _ _ Hclaim) as (Hk & _ & Hlen & Happ & _).
  eexists _, s'. split.
  - rewrite (Loop_locked_at_claim _ _ _ _ Hpc). unfold Loop_wait_or_claim.
    rewrite Hq1, Hs1, Hstop.
    rewrite bool_decide_eq_false_2 by exact Hq. cbn. rewrite Hclaim. reflexivity.
  - cbn. split; [reflexivity |].
    unfold batch_count in Hk. destruct (decide (worker_count = 0)); [lia |].
    injection Hk as Hk. rewrite Hq1 in Hk, Happ.
    assert (Hmin : Z.min batch_size (Z.min (vsize (m_outpoints s))
                     (m_in_flight_fetches_count (at_claim w s) / worker_count)) =
                   Z.min (Z.min (vsize (m_outpoints s)) batch_size)
                     (m_in_flight_fetches_count (at_claim w s) / worker_count)) by lia.
    rewrite Hmin, Hk. repeat split; try assumption; try reflexivity.
    rewrite Happ, vsize_app. lia.
Qed.

Lemma C6_witness :
  exists w' s',
    Loop_locked 2 2 new_worker ex_queued = Some (w', s') /\
    w_pc w' = Fetching /\
    let in_flight := m_in_flight_fetches_count (at_claim new_worker ex_queued) in
    let k := Z.max 1 (Z.min 2 (Z.min (vsize (m_outpoints ex_queued)) (in_flight / 2))) in
    vsize (m_outpoints ex_queued) - vsize (m_outpoints s') = k /\
    vsize (outpoints w') = k /\
    in_flight_fetches_count w' = k /\
    m_outpoints ex_queued = m_outpoints s' ++ outpoints w'.
Proof.
  apply (C6_batch_size 2 2 new_worker ex_queued);
    [left; reflexivity | discriminate | reflexivity | lia].
Defined.

(** ** The lookups of a batch *)

Lemma fetch_batch_acc db batch : forall acc,
  fetch_batch db batch acc = acc ++ fetch_batch db batch [].
Proof.
  induction batch as [|o rest IH]; intros acc; cbn.
  - rewrite app_nil_r. reflexivity.
  - destruct (GetCoin db o) as [c|]; [| rewrite app_nil_r; reflexivity].
    rewrite (IH (acc ++ [(o, c)])), (IH [(o, c)]), <- app_assoc. reflexivity.
Qed.

Lemma fetch_batch_cons db o rest :
  fetch_batch db (o :: rest) [] =
    match GetCoin db o with
    | Some c => (o, c) :: fetch_batch db rest []
    | None => []
    end.
Proof.
  cbn. destruct (GetCoin db o) as [c|]; [| reflexivity].
  rewrite fetch_batch_acc. reflexivity.
Qed.

(** The result is the longest prefix of the batch found in the store. *)
Lemma fetch_batch_prefix db batch :
  let r := fetch_batch db batch [] in
  r.*1 = take (length r) batch /\
  (forall p, p ∈ r -> GetCoin db p.1 = Some p.2) /\
  (forall o, batch !! length r = Some o -> GetCoin db o = None).
Proof.
  induction batch as [|o rest IH]; cbv zeta.
  - cbn. repeat split; [intros p Hp; inversion Hp | intros o Ho; discriminate Ho].
  - rewrite fetch_batch_cons. destruct (GetCoin db o) as [c|] eqn:Hc.
    + destruct IH as (IH1 & IH2 & IH3). cbn. repeat split.
      * f_equal. exact IH1.
      * intros p Hp. apply elem_of_cons in Hp as [-> | Hp]; [exact Hc | exact (IH2 p Hp)].
      * exact IH3.
    + cbn. repeat split; [intros p Hp; inversion Hp |].
      intros o' [= <-]. exact Hc.
Qed.

Lemma fetch_batch_length db batch :
  (length (fetch_batch db batch []) <= length batch)%nat.
Proof.
  induction batch as [|o rest IH]; [cbn; lia |].
  rewrite fetch_batch_cons. destruct (GetCoin db o); cbn; lia.
Qed.

Lemma fetch_batch_elem db batch p :
  p ∈ fetch_batch db batch [] -> p.1 ∈ batch /\ db !! p.1 = Some p.2.
Proof.
  intros Hp. destruct (fetch_batch_prefix db batch) as (H1 & H2 & _).
  split; [| exact (H2 p Hp)].
  assert (Hin : p.1 ∈ (fetch_batch db batch []).*1) by (apply list_elem_of_fmap; eauto).
  rewrite H1 in Hin. exact (subseteq_take _ _ _ Hin).
Qed.

(** When the store has every outpoint of the batch, none is dropped. *)
Lemma fetch_batch_all db batch :
  (forall o, o ∈ batch -> is_Some (db !! o)) ->
  (fetch_batch db batch []).*1 = batch.
Proof.
  induction batch as [|o rest IH]; intros Hall; [reflexivity |].
  rewrite fetch_batch_cons. destruct (Hall o ltac:(left)) as [c Hc].
  unfold GetCoin. rewrite Hc. cbn. f_equal. apply IH.
  intros o' Ho'. apply Hall. right. exact Ho'.
Qed.

Lemma Loop_wait_or_claim_frame wc bs w s w' s' :
  Loop_wait_or_claim wc bs w s = Some (w', s') ->
  m_pairs s' = m_pairs s /\
  m_in_flight_fetches_count s' = m_in_flight_fetches_count s /\
  m_request_stop s' = m_request_stop s /\
  pairs w' = pairs w.
Proof.
  intros H. apply Loop_wait_or_claim_cases in H
    as [(_ & _ & -> & ->) | [(_ & -> & ->) | (_ & _ & k & batch & Hc & ->)]];
    cbn; try (repeat split; reflexivity).
  apply claim_batch_spec in Hc as (_ & _ & _ & _ & H1 & H2 & H3). auto.
Qed.

(** C4. A worker that has claimed a batch produces, in order, the pairs
    (outpoint, coin) of the longest prefix of the batch that the store has: it
    stops at the first outpoint without a coin. These pairs are what its next
    critical section appends to the shared result queue. *)
Theorem C4_fetch_stops_at_first_missing (db : gmap COutPoint Coin)
    (worker_count batch_size : Z) (w0 w : worker) (s0 s1 : shared) :
  Loop_locked worker_count batch_size w0 s0 = Some (w, s1) ->
  w_pc w = Fetching ->
  exists w',
    Loop_fetch db w = Some w' /\ w_pc w' = AtLock /\
    let r := pairs w' in
    (length r <= length (outpoints w))%nat /\
    r.*1 = take (length r) (outpoints w) /\
    (forall p, p ∈ r -> GetCoin db p.1 = Some p.2) /\
    (forall o, outpoints w !! length r = Some o -> GetCoin db o = None) /\
    (forall wc' bs' s w'' s',
        Loop_locked wc' bs' w' s = Some (w'', s') -> m_pairs s' = m_pairs s ++ r).
Proof.
  intros Hclaim Hpc.
  assert (Hcount : 1 <= in_flight_fetches_count w).
  { assert (Hpc0 : w_pc w0 = AtLock \/ w_pc w0 = Waiting).
    { unfold Loop_locked in Hclaim. destruct (w_pc w0); try discriminate; auto. }
    rewrite (Loop_locked_at_claim _ _ _ _ Hpc0) in Hclaim.
    apply Loop_wait_or_claim_cases in Hclaim
      as [(_ & _ & _ & ->) | [(_ & _ & ->) | (_ & _ & k & batch & Hc & ->)]];
      try discriminate Hpc.
    apply claim_batch_spec in Hc as (_ & Hk & _). cbn. lia. }
  unfold Loop_fetch. rewrite Hpc. eexists. split; [reflexivity |]. cbn.
  split; [reflexivity |].
  destruct (fetch_batch_prefix db (outpoints w)) as (H1 & H2 & H3).
  split; [apply fetch_batch_length |].
  split; [exact H1 |]. split; [exact H2 |]. split; [exact H3 |].
  intros wc' bs' s w'' s' Hnext. unfold Loop_locked in Hnext. cbn in Hnext.
  apply Loop_wait_or_claim_frame in Hnext as (Hp & _). rewrite Hp.
  rewrite merge_results_pairs. cbn.
  destruct (decide (in_flight_fetches_count w = 0)); [lia | reflexivity].
Qed.

Lemma C4_witness :
  exists w s1,
    Loop_locked 1 2 new_worker ex_queued = Some (w, s1) /\
    exists w',
      Loop_fetch ex_db w = Some w' /\ w_pc w' = AtLock /\
      let r := pairs w' in
      (length r <= length (outpoints w))%nat /\
      r.*1 = take (length r) (outpoints w) /\
      (forall p, p ∈ r -> GetCoin ex_db p.1 = Some p.2) /\
      (forall o, outpoints w !! length r = Some o -> GetCoin ex_db o = None) /\
      (forall wc' bs' s w'' s',
          Loop_locked wc' bs' w' s = Some (w'', s') -> m_pairs s' = m_pairs s ++ r).
Proof.
  eexists _, _. split; [vm_compute; reflexivity |].
  eapply (C4_fetch_stops_at_first_missing ex_db 1 2 new_worker _ ex_queued _);
    [vm_compute; reflexivity | reflexivity].
Defined.

(** ** One step, case by case *)

Lemma step_WorkerLock_inv db bs i st st' :
  step db bs (WorkerLock i) st = Some st' ->
  exists w w',
    m_worker_threads st !! i = Some w /\
    (w_pc w = AtLock \/ w_pc w = Waiting) /\
    Loop_wait_or_claim (vsize (m_worker_threads st)) bs w (at_claim w (guarded st))
      = Some (w', guarded st') /\
    m_worker_threads st' = <[i := w']> (m_worker_threads st) /\
    main st' = main st /\ cache st' = cache st.
Proof.
  cbn. destruct (m_worker_threads st !! i) as [w|] eqn:Hw; [| discriminate].
  destruct (Loop_locked _ bs w (guarded st)) as [[w' s']|] eqn:HL; [| discriminate].
  intros [= <-]. cbn.
  assert (Hpc : w_pc w = AtLock \/ w_pc w = Waiting).
  { unfold Loop_locked in HL. destruct (w_pc w); try discriminate; auto. }
  rewrite (Loop_locked_at_claim _ _ _ _ Hpc) in HL. eauto 10.
Qed.

Lemma step_WorkerFetch_inv db bs i st st' :
  step db bs (WorkerFetch i) st = Some st' ->
  exists w,
    m_worker_threads st !! i = Some w /\ w_pc w = Fetching /\
    guarded st' = guarded st /\
    m_worker_threads st' =
      <[i := {| w_pc := AtLock;
                in_flight_fetches_count := in_flight_fetches_count w;
                pairs := fetch_batch db (outpoints w) [];
                outpoints := outpoints w |}]> (m_worker_threads st) /\
    main st' = main st /\ cache st' = cache st.
Proof.
  cbn. destruct (m_worker_threads st !! i) as [w|] eqn:Hw; [| discriminate].
  unfold Loop_fetch. destruct (w_pc w) eqn:Hpc; try discriminate.
  intros [= <-]. cbn. eauto 10.
Qed.

Lemma FetchInputs_locked_cases st st' :
  main st = AtDrainLock \/ main st = DrainWaiting ->
  m_worker_threads st' = m_worker_threads st ->
  cache st' = cache st ->
  (main st', guarded st') = FetchInputs_locked (guarded st) ->
  main_step st st'.
Proof.
  intros Hpc Hw Hc. unfold FetchInputs_locked.
  destruct (bool_decide (m_pairs (guarded st) = [])) eqn:Hp;
    destruct (m_request_stop (guarded st)) eqn:Hs; cbn.
  - intros [= H1 H2]. apply main_return; auto.
  - apply bool_decide_eq_true in Hp.
    destruct (decide (m_in_flight_fetches_count (guarded st) = 0)); intros [= H1 H2].
    + apply main_return; auto.
    + apply main_wait; auto.
  - intros [= H1 H2]. apply main_return; auto.
  - intros [= H1 H2]. apply main_drain; auto; rewrite H2; cbn; congruence.
Qed.

Lemma step_MainStep_inv db bs st st' :
  step db bs MainStep st = Some st' ->
  m_worker_threads st' = m_worker_threads st /\ main_step st st'.
Proof.
  cbn. destruct (main st) as [[|batch adds]| | |ps|] eqn:Hm.
  - intros [= <-]. split; [reflexivity |]. apply main_scan_done; auto.
  - intros [= <-]. split; [reflexivity |].
    apply (main_add _ _ batch adds); cbn; auto; destruct adds; cbn; auto; discriminate.
  - destruct (FetchInputs_locked (guarded st)) as [pc s'] eqn:HF. intros [= <-].
    split; [reflexivity |]. apply FetchInputs_locked_cases; cbn; auto.
  - destruct (FetchInputs_locked (guarded st)) as [pc s'] eqn:HF. intros [= <-].
    split; [reflexivity |]. apply FetchInputs_locked_cases; cbn; auto.
  - intros [= <-]. split; [reflexivity |]. apply (main_insert _ _ ps); auto.
  - discriminate.
Qed.

(** ** Sums over the workers *)

Lemma held_count_nonneg db w : worker_ok db w -> 0 <= held_count w.
Proof.
  unfold worker_ok, held_count. destruct (w_pc w); try lia.
  intros [-> _]. apply vsize_nonneg.
Qed.

Lemma sum_held_nonneg db ws : Forall (worker_ok db) ws -> 0 <= sum_held ws.
Proof.
  induction 1 as [|w ws Hw _ IH]; [cbn; lia |].
  change (0 <= held_count w + sum_held ws).
  pose proof (held_count_nonneg db w Hw). lia.
Qed.

Lemma sum_held_insert ws : forall i w w',
  ws !! i = Some w ->
  sum_held (<[i := w']> ws) = sum_held ws - held_count w + held_count w'.
Proof.
  induction ws as [|x ws IH]; intros [|i] w w' Hi; try discriminate.
  - injection Hi as ->. change (held_count w' + sum_held ws =
                                 held_count w + sum_held ws - held_count w + held_count w').
    lia.
  - change (held_count x + sum_held (<[i := w']> ws) =
            held_count x + sum_held ws - held_count w + held_count w').
    rewrite (IH i w w' Hi). lia.
Qed.

Lemma held_le_sum db ws : forall i w,
  Forall (worker_ok db) ws -> ws !! i = Some w -> held_count w <= sum_held ws.
Proof.
  induction ws as [|x ws IH]; intros [|i] w Hok Hi; try discriminate;
    apply Forall_cons in Hok as [Hx Hws].
  - injection Hi as ->. change (held_count w <= held_count w + sum_held ws).
    pose proof (sum_held_nonneg db ws Hws). lia.
  - change (held_count w <= held_count x + sum_held ws).
    pose proof (IH i w Hws Hi). pose proof (held_count_nonneg db x Hx). lia.
Qed.

Lemma sum_held_zero db ws w :
  Forall (worker_ok db) ws -> sum_held ws = 0 -> w ∈ ws -> held_count w = 0.
Proof.
  intros Hok Hsum Hin. apply list_elem_of_lookup in Hin as [i Hi].
  pose proof (held_le_sum db ws i w Hok Hi).
  pose proof (held_count_nonneg db w (proj1 (Forall_forall _ _) Hok w
                 (proj2 (list_elem_of_lookup _ _) (ex_intro _ i Hi)))).
  lia.
Qed.

(** ** The counter invariant *)

Section CountInv.
Variable db : gmap COutPoint Coin.
Variable total : Z.
Hypothesis total_fits : total < SIZE_MAX_plus_1.

Lemma size_t_wrap_small z : 0 <= z <= total -> size_t_wrap z = z.
Proof. intros Hz. unfold size_t_wrap. apply Z.mod_small. lia. Qed.

Lemma in_flight_nonneg st :
  count_inv db total st -> 0 <= m_in_flight_fetches_count (guarded st).
Proof.
  intros [Heq _ Hok]. rewrite Heq.
  pose proof (vsize_nonneg (m_outpoints (guarded st))).
  pose proof (sum_held_nonneg db _ Hok). lia.
Qed.

Lemma pending_adds_nonneg pc : 0 <= vsize (pending_adds pc).
Proof. apply vsize_nonneg. Qed.

(** The merge takes the worker's batch off the counter, without wrapping. *)
Lemma at_claim_counter st i w :
  count_inv db total st ->
  m_worker_threads st !! i = Some w ->
  w_pc w = AtLock \/ w_pc w = Waiting ->
  m_in_flight_fetches_count (at_claim w (guarded st)) =
    m_in_flight_fetches_count (guarded st) - held_count w /\
  m_outpoints (at_claim w (guarded st)) = m_outpoints (guarded st) /\
  m_request_stop (at_claim w (guarded st)) = m_request_stop (guarded st).
Proof.
  intros Hinv Hw Hpc. pose proof (in_flight_nonneg st Hinv) as Hnn.
  destruct Hinv as [Heq Hbound Hok].
  pose proof (held_le_sum db _ i w Hok Hw) as Hle.
  pose proof (vsize_nonneg (m_outpoints (guarded st))) as Hq.
  pose proof (pending_adds_nonneg (main st)) as Hp.
  unfold at_claim, held_count. destruct Hpc as [Hpc | Hpc]; rewrite Hpc in *.
  - unfold held_count in Hle. rewrite Hpc in Hle.
    unfold merge_results. destruct (decide (in_flight_fetches_count w = 0)) as [E|E].
    + rewrite E. repeat split; lia.
    + cbn. repeat split. apply size_t_wrap_small.
      assert (0 <= in_flight_fetches_count w).
      { pose proof (held_count_nonneg db w) as H. unfold held_count in H.
        rewrite Hpc in H. apply H.
        apply (proj1 (Forall_forall _ _) Hok). apply list_elem_of_lookup. eauto. }
      lia.
  - repeat split; lia.
Qed.

Lemma count_inv_step bs a st st' :
  count_inv db total st -> step db bs a st = Some st' -> count_inv db total st'.
Proof.
  intros Hinv Hstep. pose proof (in_flight_nonneg st Hinv) as Hnn.
  pose proof (pending_adds_nonneg (main st)) as Hpa.
  destruct a as [i | i | |].
  - (* a worker's critical section *)
    apply step_WorkerLock_inv in Hstep
      as (w & w' & Hw & Hpc & HL & Hws & Hm & _).
    destruct (at_claim_counter st i w Hinv Hw Hpc) as (Hc1 & Hq1 & _).
    destruct Hinv as [Heq Hbound Hok].
    pose proof (held_count_nonneg db w
                  (proj1 (Forall_forall _ _) Hok w
                     (proj2 (list_elem_of_lookup _ _) (ex_intro _ i Hw)))) as Hh.
    apply Loop_wait_or_claim_cases in HL
      as [(_ & _ & Hs & ->) | [(_ & Hs & ->) | (_ & _ & k & batch & Hc & ->)]].
    + split; rewrite ?Hws, ?Hm, ?Hs, ?(sum_held_insert _ i w _ Hw), ?Hc1, ?Hq1.
      * cbn. lia.
      * lia.
      * apply Forall_insert; [exact Hok | exact I].
    + split; rewrite ?Hws, ?Hm, ?Hs, ?(sum_held_insert _ i w _ Hw), ?Hc1, ?Hq1.
      * cbn. lia.
      * lia.
      * apply Forall_insert; [exact Hok | exact I].
    + apply claim_batch_spec in Hc as (_ & Hk & Hlen & Happ & _ & Hcnt & _).
      rewrite Hq1 in Happ. rewrite Happ, vsize_app in Heq.
      split; rewrite ?Hws, ?Hm, ?(sum_held_insert _ i w _ Hw), ?Hcnt, ?Hc1.
      * cbn. lia.
      * lia.
      * apply Forall_insert; [exact Hok |]. unfold worker_ok. cbn. lia.
  - (* a worker's lookups *)
    apply step_WorkerFetch_inv in Hstep as (w & Hw & Hpc & Hs & Hws & Hm & _).
    destruct Hinv as [Heq Hbound Hok].
    assert (Hwok : worker_ok db w).
    { apply (proj1 (Forall_forall _ _) Hok). apply list_elem_of_lookup. eauto. }
    split; rewrite ?Hws, ?Hm, ?Hs, ?(sum_held_insert _ i w _ Hw).
    + unfold held_count. rewrite Hpc. cbn. lia.
    + exact Hbound.
    + apply Forall_insert; [exact Hok |]. unfold worker_ok in Hwok |- *.
      rewrite Hpc in Hwok. cbn. split; [apply Hwok | reflexivity].
  - (* the main thread *)
    apply step_MainStep_inv in Hstep as [Hws Hmain].
    destruct Hinv as [Heq Hbound Hok].
    destruct Hmain as [batch adds Hm Hs Hpa' _ _ _ | Hm Hs Hm' _ | Hm Hs Hm' _ _
                      | Hm Hs Hm' _ | Hm _ Hm' Hq _ Hc _ _ | ps Hm Hs Hm' _].
    + rewrite Hm in Hbound, Hpa. cbn in Hbound, Hpa. rewrite vsize_app in Hbound, Hpa.
      pose proof (vsize_nonneg (concat adds)). pose proof (vsize_nonneg batch).
      split; rewrite ?Hws, ?Hs, ?Hpa'; [| | exact Hok]; unfold Add;
        (destruct (decide (batch = [])) as [-> | Hb]; [cbn in *; lia |]); cbn;
        rewrite size_t_wrap_small by lia.
      * destruct (decide (m_outpoints (guarded st) = [])) as [E|E].
        -- rewrite E in Heq. change (vsize (@nil COutPoint)) with 0 in Heq. lia.
        -- rewrite vsize_app. lia.
      * lia.
    + split; rewrite ?Hws, ?Hs, ?Hm'; [exact Heq | cbn; change (vsize (@nil COutPoint)) with 0; lia | exact Hok].
    + split; rewrite ?Hws, ?Hs, ?Hm'; [exact Heq | cbn; change (vsize (@nil COutPoint)) with 0; lia | exact Hok].
    + split; rewrite ?Hws, ?Hs, ?Hm'; [exact Heq | cbn; change (vsize (@nil COutPoint)) with 0; lia | exact Hok].
    + split; rewrite ?Hws, ?Hq, ?Hc, ?Hm'; [exact Heq | cbn; change (vsize (@nil COutPoint)) with 0; lia | exact Hok].
    + split; rewrite ?Hws, ?Hs, ?Hm'; [exact Heq | cbn; change (vsize (@nil COutPoint)) with 0; lia | exact Hok].
  - (* the stop request *)
    injection Hstep as <-. destruct Hinv as [Heq Hbound Hok].
    split; cbn; assumption.
Qed.

Lemma count_inv_run bs sched : forall st st',
  count_inv db total st -> run db bs sched st = Some st' -> count_inv db total st'.
Proof.
  induction sched as [|a sched IH]; intros st st' Hinv Hrun; cbn in Hrun.
  - injection Hrun as <-. exact Hinv.
  - destruct (step db bs a st) as [st1|] eqn:Hstep; [| discriminate].
    exact (IH st1 st' (count_inv_step bs a st st1 Hinv Hstep) Hrun).
Qed.

End CountInv.

Lemma sum_held_all_zero ws :
  (forall j w, ws !! j = Some w -> held_count w = 0) -> sum_held ws = 0.
Proof.
  induction ws as [|w ws IH]; intros H; [reflexivity |].
  change (held_count w + sum_held ws = 0).
  rewrite (H 0%nat w eq_refl), IH; [reflexivity |].
  intros j w' Hj. exact (H (S j) w' Hj).
Qed.

(** ** Idle fetchers *)

Lemma forallb_Forall {A} (f : A -> bool) (l : list A) :
  forallb f l = true <-> Forall (fun x => f x = true) l.
Proof.
  induction l as [|x l IH]; cbn.
  - split; [constructor | reflexivity].
  - rewrite andb_true_iff, IH, Forall_cons. reflexivity.
Qed.

Lemma worker_idle_spec w :
  worker_idle w = true <->
  (w_pc w = AtLock /\ in_flight_fetches_count w = 0 /\
   outpoints w = [] /\ pairs w = [])
  \/ w_pc w = Waiting.
Proof.
  unfold worker_idle. destruct (w_pc w).
  - rewrite !andb_true_iff, !bool_decide_eq_true. split.
    + intros [[H1 H2] H3]. left. auto.
    + intros [(_ & H1 & H2 & H3) | H]; [auto | discriminate H].
  - split; [auto | reflexivity].
  - split; [discriminate | intros [[H _] | H]; discriminate H].
  - split; [discriminate | intros [[H _] | H]; discriminate H].
Qed.

Lemma idle_spec f :
  idle f = true <->
  m_outpoints f.1 = [] /\ m_pairs f.1 = [] /\ m_in_flight_fetches_count f.1 = 0 /\
  m_request_stop f.1 = false /\ Forall (fun w => worker_idle w = true) f.2.
Proof.
  unfold idle.
  rewrite !andb_true_iff, !bool_decide_eq_true, negb_true_iff, forallb_Forall.
  tauto.
Qed.

Lemma idle_worker_held w : worker_idle w = true -> held_count w = 0.
Proof.
  intros H. apply worker_idle_spec in H as [(Hpc & Hn & _) | Hpc];
    unfold held_count; rewrite Hpc; [exact Hn | reflexivity].
Qed.

Lemma idle_worker_holds w : worker_idle w = true -> held_outpoints w = [].
Proof.
  intros H. apply worker_idle_spec in H as [(Hpc & _ & Ho & _) | Hpc];
    unfold held_outpoints; rewrite Hpc; [exact Ho | reflexivity].
Qed.

Lemma idle_worker_ok db w : worker_idle w = true -> worker_ok db w.
Proof.
  intros H. apply worker_idle_spec in H as [(Hpc & Hn & Ho & Hp) | Hpc];
    unfold worker_ok; rewrite Hpc; [| exact I].
  rewrite Hn, Ho, Hp. split; reflexivity.
Qed.

Lemma idle_worker_alive w : worker_idle w = true -> w_pc w <> Exited.
Proof.
  intros H. apply worker_idle_spec in H as [(Hpc & _) | Hpc]; rewrite Hpc; discriminate.
Qed.

(** A freshly constructed fetcher is idle. *)
Lemma construct_idle n : idle (construct n) = true.
Proof.
  apply idle_spec. cbn. repeat split. apply Forall_replicate. reflexivity.
Qed.

Lemma count_inv_enter db f bs c block :
  idle f = true ->
  count_inv db (vsize (fetch_targets c bs block)) (FetchInputs_enter f bs c block).
Proof.
  intros Hidle. apply idle_spec in Hidle as (Hq & _ & Hz & _ & Hws).
  split; cbn.
  - rewrite Hz, Hq, sum_held_all_zero; [reflexivity |].
    intros j w Hj. apply idle_worker_held. exact (Forall_lookup_1 _ _ _ _ Hws Hj).
  - rewrite Hz. unfold fetch_targets. lia.
  - eapply Forall_impl; [exact Hws |]. intros w. apply idle_worker_ok.
Qed.

(** ** The scan *)

Lemma HaveCoinInCache_false (c : gmap COutPoint CCoinsCacheEntry) o :
  HaveCoinInCache c o = false <-> c !! o = None.
Proof.
  unfold HaveCoinInCache. rewrite bool_decide_eq_false, <- eq_None_not_Some. reflexivity.
Qed.

Lemma scan_inputs_concat c bs txids ins : forall buffer adds,
  let r := scan_inputs c bs txids ins buffer adds in
  concat r.2 ++ r.1 = concat adds ++ buffer ++ wanted_inputs c txids ins.
Proof.
  unfold wanted_inputs.
  induction ins as [|txin ins IH]; intros buffer adds; cbn [scan_inputs fst snd].
  - cbn. rewrite app_nil_r. reflexivity.
  - rewrite fmap_cons, filter_cons.
    destruct (decide ((hash (prevout txin) ∉ txids) /\
                      HaveCoinInCache c (prevout txin) = false)) as [[Hin Hc]|Hn].
    + destruct (decide (hash (prevout txin) ∈ txids)); [contradiction |].
      rewrite Hc.
      destruct (decide (vsize (buffer ++ [prevout txin]) = bs)).
      * specialize (IH [] (adds ++ [buffer ++ [prevout txin]])).
        rewrite IH, concat_app. cbn. rewrite !app_nil_r, <- !app_assoc. reflexivity.
      * specialize (IH (buffer ++ [prevout txin]) adds).
        rewrite IH, <- !app_assoc. reflexivity.
    + destruct (decide (hash (prevout txin) ∈ txids)); [apply IH |].
      destruct (HaveCoinInCache c (prevout txin)) eqn:Hc; [apply IH |].
      exfalso. apply Hn. split; [assumption | reflexivity].
Qed.

Lemma scan_txs_concat c bs txs : forall txids buffer adds,
  let r := scan_txs c bs txs txids buffer adds in
  concat r.2 ++ r.1 = concat adds ++ buffer ++ wanted_txs c txids txs.
Proof.
  induction txs as [|tx txs IH]; intros txids buffer adds; cbn.
  - rewrite app_nil_r. reflexivity.
  - destruct (IsCoinBase tx); [apply IH |].
    pose proof (scan_inputs_concat c bs txids (vin tx) buffer adds) as Hin.
    cbv zeta in Hin.
    destruct (scan_inputs c bs txids (vin tx) buffer adds) as [buffer' adds'].
    cbn in Hin. specialize (IH ({[GetHash tx]} ∪ txids) buffer' adds'). cbv zeta in IH.
    rewrite IH, app_assoc, Hin, <- !app_assoc. reflexivity.
Qed.

(** The targets do not depend on the batch size. *)
Lemma fetch_targets_wanted c bs block :
  fetch_targets c bs block = wanted_txs c ∅ (vtx block).
Proof.
  unfold fetch_targets, FetchInputs_scan.
  pose proof (scan_txs_concat c bs (vtx block) ∅ [] []) as H. cbv zeta in H.
  destruct (scan_txs c bs (vtx block) ∅ [] []) as [buffer adds]. cbn in H.
  rewrite concat_app. cbn. rewrite app_nil_r. exact H.
Qed.

Lemma elem_of_wanted_inputs c txids ins o :
  o ∈ wanted_inputs c txids ins <->
  (exists txin, (txin ∈ ins) /\ prevout txin = o) /\ (hash o ∉ txids) /\ c !! o = None.
Proof.
  unfold wanted_inputs. rewrite list_elem_of_filter, list_elem_of_fmap, HaveCoinInCache_false.
  split.
  - intros [[H1 H2] (txin & -> & Hin)]. eauto.
  - intros [(txin & Hin & <-) [H1 H2]]. eauto.
Qed.

Lemma elem_of_wanted_txs c txs o : forall txids,
  o ∈ wanted_txs c txids txs <->
  exists pre tx post txin,
    txs = pre ++ tx :: post /\ IsCoinBase tx = false /\
    (txin ∈ vin tx) /\ prevout txin = o /\
    (hash o ∉ txids) /\ (hash o ∉ recorded_txids pre) /\ c !! o = None.
Proof.
  induction txs as [|tx txs IH]; intros txids; cbn.
  - split; [intros H; inversion H |].
    intros (pre & tx & post & _ & H & _). destruct pre; discriminate H.
  - destruct (IsCoinBase tx) eqn:Hcb.
    + rewrite IH. split.
      * intros (pre & tx' & post & txin & -> & H1 & H2 & H3 & H4 & H5 & H6).
        exists (tx :: pre), tx', post, txin. repeat split; try assumption.
        unfold recorded_txids. rewrite filter_cons, decide_False by congruence. exact H5.
      * intros (pre & tx' & post & txin & Heq & H1 & H2 & H3 & H4 & H5 & H6).
        destruct pre as [|tx0 pre]; cbn in Heq; injection Heq as <- ->; [congruence |].
        exists pre, tx', post, txin. repeat split; try assumption.
        unfold recorded_txids in H5. rewrite filter_cons, decide_False in H5 by congruence.
        exact H5.
    + rewrite elem_of_app, elem_of_wanted_inputs, IH. split.
      * intros [[(txin & Hin & Ho) [H1 H2]]
               | (pre & tx' & post & txin & -> & H1 & H2 & H3 & H4 & H5 & H6)].
        -- exists [], tx, txs, txin. repeat split; try assumption.
           unfold recorded_txids. cbn. intros H; inversion H.
        -- exists (tx :: pre), tx', post, txin. repeat split; try assumption.
           ++ intros Hx. apply H4, elem_of_union. right. exact Hx.
           ++ unfold recorded_txids. rewrite filter_cons, decide_True by assumption.
              cbn. rewrite elem_of_cons. intros [Hx | Hx]; [| exact (H5 Hx)].
              apply H4, elem_of_union. left. apply elem_of_singleton. exact Hx.
      * intros (pre & tx' & post & txin & Heq & H1 & H2 & H3 & H4 & H5 & H6).
        destruct pre as [|tx0 pre]; cbn in Heq; injection Heq as <- ->.
        -- left. eauto.
        -- right. exists pre, tx', post, txin.
           unfold recorded_txids in H5. rewrite filter_cons, decide_True in H5 by assumption.
           cbn in H5. rewrite elem_of_cons in H5.
           repeat split; try assumption.
           ++ intros Hx. apply elem_of_union in Hx as [Hx | Hx]; [| exact (H4 Hx)].
              apply elem_of_singleton in Hx. apply H5. left. exact Hx.
           ++ intros Hx. apply H5. right. exact Hx.
Qed.

(** The targets are the scanned outpoints. *)
Lemma elem_of_fetch_targets c bs block o :
  o ∈ fetch_targets c bs block <-> scanned c block o.
Proof.
  rewrite fetch_targets_wanted, elem_of_wanted_txs. unfold scanned. split.
  - intros (pre & tx & post & txin & H). exists pre, tx, post, txin. tauto.
  - intros (pre & tx & post & txin & H). exists pre, tx, post, txin.
    repeat split; try tauto. apply not_elem_of_empty.
Qed.

(** Without a reference to the id of an earlier coinbase of the block, the
    scanned outpoints are those not produced earlier in the block. *)
Lemma scanned_referenced c block o :
  referenced_not_produced_earlier c block o -> scanned c block o.
Proof.
  intros (pre & tx & post & txin & H1 & H2 & H3 & H4 & H5 & H6).
  exists pre, tx, post, txin. repeat split; try assumption.
  intros Hin. apply H5. unfold recorded_txids in Hin.
  apply list_elem_of_fmap in Hin as (t & -> & Ht). apply list_elem_of_filter in Ht as [_ Ht].
  apply list_elem_of_fmap. eauto.
Qed.

Lemma no_coinbase_reference_from_spec txs : forall cbs,
  no_coinbase_reference_from cbs txs = true ->
  forall pre tx post txin,
    txs = pre ++ tx :: post -> IsCoinBase tx = false -> txin ∈ vin tx ->
    (hash (prevout txin) ∉ cbs) /\
    forall cb, cb ∈ pre -> IsCoinBase cb = true -> hash (prevout txin) <> GetHash cb.
Proof.
  induction txs as [|x txs IH]; intros cbs Hn pre tx post txin Heq Hcb Hin.
  - destruct pre; discriminate Heq.
  - cbn in Hn. destruct pre as [|y pre]; cbn in Heq; injection Heq as <- Heq.
    + rewrite Hcb in Hn. apply andb_true_iff in Hn as [Hn _].
      split; [| intros cb Hc; inversion Hc].
      apply forallb_Forall in Hn.
      pose proof (proj1 (Forall_forall _ _) Hn txin Hin) as H. cbn beta in H.
      apply bool_decide_eq_true in H. exact H.
    + destruct (IsCoinBase x) eqn:Hx.
      * destruct (IH _ Hn pre tx post txin Heq Hcb Hin) as [H1 H2]. split.
        -- intros Hc. apply H1, elem_of_union. right. exact Hc.
        -- intros cb Hc Hcbb. apply elem_of_cons in Hc as [-> | Hc]; [| exact (H2 cb Hc Hcbb)].
           intros E. apply H1, elem_of_union. left. apply elem_of_singleton. exact E.
      * apply andb_true_iff in Hn as [_ Hn].
        destruct (IH _ Hn pre tx post txin Heq Hcb Hin) as [H1 H2]. split; [exact H1 |].
        intros cb Hc Hcbb. apply elem_of_cons in Hc as [-> | Hc]; [congruence |].
        exact (H2 cb Hc Hcbb).
Qed.

(** In a block without a reference to the id of an earlier coinbase of its
    own, the scanned outpoints are those not produced earlier in the block. *)
Lemma scanned_iff_referenced c block o :
  no_coinbase_reference block = true ->
  scanned c block o <-> referenced_not_produced_earlier c block o.
Proof.
  intros Hn. split; [| apply scanned_referenced].
  intros (pre & tx & post & txin & H1 & H2 & H3 & H4 & H5 & H6).
  exists pre, tx, post, txin. repeat split; try assumption.
  intros Hin. apply list_elem_of_fmap in Hin as (t & Ht & Hpre).
  destruct (IsCoinBase t) eqn:Hcb.
  - destruct (no_coinbase_reference_from_spec _ _ Hn pre tx post txin H1 H2 H3) as [_ H].
    apply (H t Hpre Hcb). rewrite H4. exact Ht.
  - apply H5. unfold recorded_txids. apply list_elem_of_fmap. exists t.
    split; [exact Ht |]. apply list_elem_of_filter. split; assumption.
Qed.

(** ** Insertion into the cache *)

Lemma Emplace_lookup o c d (m : gmap COutPoint CCoinsCacheEntry) o' :
  EmplaceCoinInternalDANGER o c d m !! o' =
    match m !! o' with
    | Some e => Some e
    | None => if decide (o = o') then Some {| coin := c; dirty := d |} else None
    end.
Proof.
  unfold EmplaceCoinInternalDANGER. destruct (m !! o) as [e|] eqn:Ho.
  - destruct (m !! o') as [e'|] eqn:Ho'; [reflexivity |].
    destruct (decide (o = o')) as [->|]; [congruence | reflexivity].
  - rewrite lookup_insert. destruct (decide (o = o')) as [->|].
    + rewrite Ho. reflexivity.
    + destruct (m !! o'); reflexivity.
Qed.

Lemma insert_pairs_mono ps : forall (m : gmap COutPoint CCoinsCacheEntry) o e,
  m !! o = Some e -> insert_pairs ps m !! o = Some e.
Proof.
  induction ps as [|p ps IH]; intros m o e Hm; [exact Hm |].
  cbn. apply IH. rewrite Emplace_lookup, Hm. reflexivity.
Qed.

Lemma insert_pairs_lookup ps : forall (m : gmap COutPoint CCoinsCacheEntry) o e,
  insert_pairs ps m !! o = Some e ->
  m !! o = Some e \/
  exists c, (o, c) ∈ ps /\ e = {| coin := c; dirty := false |}.
Proof.
  induction ps as [|[o1 c1] ps IH]; intros m o e H; [left; exact H |].
  cbn in H. apply IH in H as [H | (c & Hin & ->)].
  - rewrite Emplace_lookup in H. destruct (m !! o) as [e'|]; [left; exact H |].
    destruct (decide (o1 = o)) as [->|]; [| discriminate].
    injection H as <-. right. exists c1. split; [left | reflexivity].
  - right. exists c. split; [right; exact Hin | reflexivity].
Qed.

Lemma insert_pairs_present ps : forall (m : gmap COutPoint CCoinsCacheEntry) o,
  o ∈ ps.*1 -> is_Some (insert_pairs ps m !! o).
Proof.
  induction ps as [|[o1 c1] ps IH]; intros m o Hin; [inversion Hin |].
  cbn in Hin. apply elem_of_cons in Hin as [-> | Hin].
  - cbn. destruct (EmplaceCoinInternalDANGER o1 c1 false m !! o1) as [e|] eqn:He.
    + exists e. apply insert_pairs_mono. exact He.
    + rewrite Emplace_lookup in He. destruct (m !! o1); [discriminate |].
      rewrite decide_True in He by reflexivity. discriminate.
  - cbn. apply IH. exact Hin.
Qed.

(** ** Shared-state effects of the steps *)

Lemma elem_of_insert_cases {A} (l : list A) i x x' y :
  l !! i = Some x -> y ∈ l -> y = x \/ y ∈ <[i := x']> l.
Proof.
  intros Hi Hy. apply list_elem_of_lookup in Hy as [j Hj].
  destruct (decide (j = i)) as [-> | Hne].
  - left. congruence.
  - right. apply list_elem_of_lookup. exists j.
    rewrite list_lookup_insert_ne by congruence. exact Hj.
Qed.

Lemma elem_of_insert_new {A} (l : list A) i x x' :
  l !! i = Some x -> x' ∈ <[i := x']> l.
Proof. intros Hi. apply list_elem_of_insert. eapply lookup_lt_Some. exact Hi. Qed.

Lemma Forall_lookup_elim {A} (P : A -> Prop) (l : list A) i x :
  Forall P l -> l !! i = Some x -> P x.
Proof.
  intros HF Hi. apply (proj1 (Forall_forall P l) HF).
  apply list_elem_of_lookup. exists i. exact Hi.
Qed.

(** The pairs a worker merges when it enters its critical section. *)
Lemma at_claim_pairs w s :
  m_pairs (at_claim w s) =
    m_pairs s ++
    (if decide (w_pc w = AtLock /\ in_flight_fetches_count w <> 0) then pairs w else []).
Proof.
  unfold at_claim. destruct (w_pc w) eqn:Hpc.
  - rewrite merge_results_pairs.
    destruct (decide (in_flight_fetches_count w = 0)) as [E|E].
    + rewrite decide_False by tauto. rewrite app_nil_r. reflexivity.
    + rewrite decide_True by tauto. reflexivity.
  - rewrite decide_False by (intros [? _]; discriminate). rewrite app_nil_r. reflexivity.
  - rewrite decide_False by (intros [? _]; discriminate). rewrite app_nil_r. reflexivity.
  - rewrite decide_False by (intros [? _]; discriminate). rewrite app_nil_r. reflexivity.
Qed.

Lemma at_claim_queue w s : m_outpoints (at_claim w s) = m_outpoints s.
Proof. unfold at_claim. destruct (w_pc w); try reflexivity. apply merge_results_queue. Qed.

Lemma at_claim_stop w s : m_request_stop (at_claim w s) = m_request_stop s.
Proof. unfold at_claim. destruct (w_pc w); try reflexivity. apply merge_results_stop. Qed.

(** What [Loop_wait_or_claim] changes. *)
Lemma Loop_wait_or_claim_summary wc bs w s w' s' :
  Loop_wait_or_claim wc bs w s = Some (w', s') ->
  m_pairs s' = m_pairs s /\
  m_in_flight_fetches_count s' = m_in_flight_fetches_count s /\
  m_request_stop s' = m_request_stop s /\
  pairs w' = pairs w /\
  ((m_outpoints s' = m_outpoints s /\ outpoints w' = outpoints w /\
    (w_pc w' = Waiting \/ w_pc w' = Exited))
   \/
   (m_outpoints s = m_outpoints s' ++ outpoints w' /\ w_pc w' = Fetching /\
    1 <= in_flight_fetches_count w' /\
    in_flight_fetches_count w' = vsize (outpoints w'))).
Proof.
  intros H. apply Loop_wait_or_claim_cases in H
    as [(_ & _ & -> & ->) | [(_ & -> & ->) | (_ & _ & k & batch & Hc & ->)]]; cbn.
  - repeat split; try reflexivity. left. auto.
  - repeat split; try reflexivity. left. auto.
  - apply claim_batch_spec in Hc as (_ & Hk & Hlen & Happ & H1 & H2 & H3).
    repeat split; try assumption. right. repeat split; try assumption; lia.
Qed.

Lemma Add_queue batch s : m_outpoints (Add batch s) = m_outpoints s ++ batch.
Proof.
  unfold Add. destruct (decide (batch = [])) as [-> |]; [rewrite app_nil_r; reflexivity |].
  cbn. destruct (decide (m_outpoints s = [])) as [-> |]; reflexivity.
Qed.

Lemma Add_frame batch s :
  m_pairs (Add batch s) = m_pairs s /\ m_request_stop (Add batch s) = m_request_stop s.
Proof. unfold Add. destruct (decide (batch = [])); split; reflexivity. Qed.

(** ** Soundness: only targets travel, only the store's coins arrive *)

Section Sound.
Variable db : gmap COutPoint Coin.
Variable targets : list COutPoint.
Variable cache0 : gmap COutPoint CCoinsCacheEntry.

Lemma sound_inv_step bs a st st' :
  Forall (worker_ok db) (m_worker_threads st) ->
  sound_inv db targets cache0 st ->
  step db bs a st = Some st' ->
  sound_inv db targets cache0 st'.
Proof.
  intros Hok [Hadds Hqueue Hworkers Hpairs Hins Hcache Hcache0] Hstep.
  destruct a as [i | i | |].
  - apply step_WorkerLock_inv in Hstep as (w & w' & Hw & Hpc & HL & Hws & Hm & Hc).
    apply Loop_wait_or_claim_summary in HL as (Hp & _ & _ & _ & Hq).
    rewrite at_claim_pairs in Hp. rewrite at_claim_queue in Hq.
    pose proof (Forall_lookup_elim _ _ _ _ Hworkers Hw) as Hwt.
    pose proof (Forall_lookup_elim _ _ _ _ Hok Hw) as Hwok.
    split; rewrite ?Hm, ?Hc; try assumption.
    + intros o Ho. apply Hqueue.
      destruct Hq as [(Hq & _) | (Hq & _)]; [rewrite Hq in Ho; exact Ho |].
      rewrite Hq. apply elem_of_app. left. exact Ho.
    + rewrite Hws. apply Forall_insert; [exact Hworkers |].
      unfold held_outpoints.
      destruct Hq as [(_ & _ & [Hpc' | Hpc']) | (Hq & Hpc' & _)]; rewrite Hpc';
        try (intros o Ho; inversion Ho; fail).
      intros o Ho. apply Hqueue. rewrite Hq. apply elem_of_app. right. exact Ho.
    + intros p Hin. rewrite Hp in Hin. apply elem_of_app in Hin as [Hin | Hin];
        [exact (Hpairs p Hin) |].
      destruct (decide (w_pc w = AtLock /\ in_flight_fetches_count w <> 0))
        as [[Hat _] |]; [| inversion Hin].
      unfold worker_ok in Hwok. rewrite Hat in Hwok. destruct Hwok as [_ Hwp].
      rewrite Hwp in Hin. apply fetch_batch_elem in Hin as [Hin1 Hin2].
      unfold held_outpoints in Hwt. rewrite Hat in Hwt.
      split; [exact (Hwt _ Hin1) | exact Hin2].
  - apply step_WorkerFetch_inv in Hstep as (w & Hw & Hpc & Hs & Hws & Hm & Hc).
    pose proof (Forall_lookup_elim _ _ _ _ Hworkers Hw) as Hwt.
    split; rewrite ?Hm, ?Hc, ?Hs; try assumption.
    rewrite Hws. apply Forall_insert; [exact Hworkers |].
    unfold held_outpoints in Hwt |- *. rewrite Hpc in Hwt. exact Hwt.
  - apply step_MainStep_inv in Hstep as [Hws Hmain].
    destruct Hmain as [batch adds Hm Hs Hpa' Hpi' _ Hc | Hm Hs Hm' Hc | Hm Hs Hm' Hc _
                      | Hm Hs Hm' Hc | Hm _ Hm' Hq Hp _ _ Hc | ps Hm Hs Hm' Hc].
    + rewrite Hm in Hadds. cbn in Hadds.
      split; rewrite ?Hws, ?Hc, ?Hs, ?Hpa', ?Hpi'; try assumption.
      * intros o Ho. apply Hadds, elem_of_app. right. exact Ho.
      * intros o Ho. rewrite Add_queue in Ho. apply elem_of_app in Ho as [Ho | Ho];
          [exact (Hqueue o Ho) |]. apply Hadds, elem_of_app. left. exact Ho.
      * rewrite (proj1 (Add_frame batch (guarded st))). exact Hpairs.
      * intros p Hp. inversion Hp.
    + split; rewrite ?Hws, ?Hc, ?Hs, ?Hm'; try assumption;
        cbn; intros x Hx; inversion Hx.
    + split; rewrite ?Hws, ?Hc, ?Hs, ?Hm'; try assumption;
        cbn; intros x Hx; inversion Hx.
    + split; rewrite ?Hws, ?Hc, ?Hs, ?Hm'; try assumption;
        cbn; intros x Hx; inversion Hx.
    + split; rewrite ?Hws, ?Hc, ?Hq, ?Hp, ?Hm'; try assumption; cbn.
      * intros x Hx; inversion Hx.
      * intros x Hx; inversion Hx.
    + rewrite Hm in Hins. cbn in Hins.
      split; rewrite ?Hws, ?Hs, ?Hm'; try assumption; cbn.
      * intros x Hx; inversion Hx.
      * intros x Hx; inversion Hx.
      * intros o e He. rewrite Hc in He. apply insert_pairs_lookup in He
          as [He | (c & Hin & ->)]; [exact (Hcache o e He) |].
        right. destruct (Hins _ Hin) as [H1 H2]. cbn in H1, H2. eauto.
      * intros o e He. rewrite Hc. apply insert_pairs_mono. exact (Hcache0 o e He).
  - injection Hstep as <-. split; cbn; assumption.
Qed.

Lemma sound_inv_run total bs sched : forall st st',
  total < SIZE_MAX_plus_1 ->
  count_inv db total st ->
  sound_inv db targets cache0 st ->
  run db bs sched st = Some st' ->
  sound_inv db targets cache0 st'.
Proof.
  induction sched as [|a sched IH]; intros st st' Hfit Hcount Hsound Hrun; cbn in Hrun.
  - injection Hrun as <-. exact Hsound.
  - destruct (step db bs a st) as [st1|] eqn:Hstep; [| discriminate].
    apply (IH st1 st' Hfit); [| | exact Hrun].
    + exact (count_inv_step db total Hfit bs a st st1 Hcount Hstep).
    + exact (sound_inv_step bs a st st1 (count_workers _ _ _ Hcount) Hsound Hstep).
Qed.

End Sound.

Lemma sound_inv_enter db f bs c block :
  idle f = true ->
  sound_inv db (fetch_targets c bs block) c (FetchInputs_enter f bs c block).
Proof.
  intros Hidle. apply idle_spec in Hidle as (Hq & Hp & _ & _ & Hws).
  split; cbn; rewrite ?Hq, ?Hp.
  - intros o Ho. exact Ho.
  - intros o Ho. inversion Ho.
  - eapply Forall_impl; [exact Hws |]. intros w Hw o Ho.
    rewrite (idle_worker_holds w Hw) in Ho. inversion Ho.
  - intros p Hin. inversion Hin.
  - intros p Hin. inversion Hin.
  - intros o e He. left. exact He.
  - intros o e He. exact He.
Qed.

(** ** Completeness: when the store has every target, none is lost *)

Section Complete.
Variable db : gmap COutPoint Coin.
Variable targets : list COutPoint.
Variable cache0 : gmap COutPoint CCoinsCacheEntry.
Variable total : Z.
Hypothesis total_fits : total < SIZE_MAX_plus_1.
Hypothesis all_present : forall o, o ∈ targets -> is_Some (db !! o).

(** A worker that holds outpoints holds a batch of size at least 1. *)
Lemma held_outpoints_count w o :
  worker_ok db w -> o ∈ held_outpoints w -> 1 <= held_count w.
Proof.
  unfold worker_ok, held_outpoints, held_count.
  destruct (w_pc w); intros Hok Ho; try (inversion Ho; fail).
  - destruct Hok as [-> _]. unfold vsize.
    destruct (outpoints w); [inversion Ho | cbn; lia].
  - lia.
Qed.

Lemma located_step bs a st st' o :
  count_inv db total st ->
  sound_inv db targets cache0 st ->
  step db bs a st = Some st' ->
  located st o -> located st' o.
Proof.
  intros Hcount Hsound Hstep Hloc.
  pose proof (count_workers _ _ _ Hcount) as Hok.
  pose proof (sound_workers _ _ _ _ Hsound) as Hworkers.
  destruct a as [i | i | |].
  - apply step_WorkerLock_inv in Hstep as (w & w' & Hw & Hpc & HL & Hws & Hm & Hc).
    apply Loop_wait_or_claim_summary in HL as (Hp & _ & _ & _ & Hq).
    rewrite at_claim_pairs in Hp. rewrite at_claim_queue in Hq.
    pose proof (Forall_lookup_elim _ _ _ _ Hworkers Hw) as Hwt.
    pose proof (Forall_lookup_elim _ _ _ _ Hok Hw) as Hwok.
    unfold located. rewrite Hm, Hc, Hws, Hp, fmap_app, elem_of_app.
    destruct Hloc as [H | [H | [(w0 & Hw0 & Ho) | [H | [H | H]]]]]; auto 10.
    + destruct Hq as [(Hq & _) | (Hq & Hpc' & _)]; [rewrite Hq; auto |].
      rewrite Hq in H. apply elem_of_app in H as [H | H]; [auto |].
      right; right; left. exists w'. split; [exact (elem_of_insert_new _ _ _ _ Hw) |].
      unfold held_outpoints. rewrite Hpc'. exact H.
    + destruct (elem_of_insert_cases _ i w w' w0 Hw Hw0) as [-> | Hin];
        [| right; right; left; eauto].
      pose proof (held_outpoints_count w o Hwok Ho) as Hheld.
      unfold held_outpoints in Ho. unfold held_count in Hheld.
      destruct Hpc as [Hat | Hwait]; [| rewrite Hwait in Ho; inversion Ho].
      rewrite Hat in Ho, Hheld. unfold worker_ok in Hwok. rewrite Hat in Hwok.
      destruct Hwok as [_ Hwp].
      rewrite decide_True by (split; [exact Hat | lia]).
      right; right; right; left. right.
      rewrite Hwp, fetch_batch_all; [exact Ho |].
      unfold held_outpoints in Hwt. rewrite Hat in Hwt.
      intros o' Ho'. apply all_present, Hwt, Ho'.
  - apply step_WorkerFetch_inv in Hstep as (w & Hw & Hpc & Hs & Hws & Hm & Hc).
    unfold located. rewrite Hm, Hc, Hws, Hs.
    destruct Hloc as [H | [H | [(w0 & Hw0 & Ho) | [H | [H | H]]]]]; auto 10.
    right; right; left.
    destruct (elem_of_insert_cases _ i w
                {| w_pc := AtLock;
                   in_flight_fetches_count := in_flight_fetches_count w;
                   pairs := fetch_batch db (outpoints w) [];
                   outpoints := outpoints w |} w0 Hw Hw0) as [-> | Hin]; [| eauto].
    eexists. split; [exact (elem_of_insert_new _ _ _ _ Hw) |].
    unfold held_outpoints in Ho |- *. rewrite Hpc in Ho. exact Ho.
  - apply step_MainStep_inv in Hstep as [Hws Hmain].
    unfold located. rewrite Hws.
    destruct Hmain as [batch adds Hm Hs Hpa' Hpi' _ Hc | Hm Hs Hm' Hc | Hm Hs Hm' Hc _
                      | Hm Hs Hm' Hc | Hm _ Hm' Hq Hp _ _ Hc | ps Hm Hs Hm' Hc].
    + rewrite Hs, Hpa', Hpi', Hc, Add_queue, (proj1 (Add_frame batch (guarded st))),
        elem_of_app.
      destruct Hloc as [H | [H | [H | [H | [H | H]]]]]; auto 10.
      * rewrite Hm in H. cbn in H. apply elem_of_app in H as [H | H]; auto.
      * rewrite Hm in H. inversion H.
    + rewrite Hs, Hm', Hc.
      destruct Hloc as [H | [H | [H | [H | [H | H]]]]]; auto 10;
        rewrite Hm in H; inversion H.
    + rewrite Hs, Hm', Hc.
      destruct Hloc as [H | [H | [H | [H | [H | H]]]]]; auto 10;
        destruct Hm as [Hm | Hm]; rewrite Hm in H; inversion H.
    + rewrite Hs, Hm', Hc.
      destruct Hloc as [H | [H | [H | [H | [H | H]]]]]; auto 10;
        destruct Hm as [Hm | Hm]; rewrite Hm in H; inversion H.
    + rewrite Hq, Hp, Hm', Hc. cbn [pending_inserts pending_adds].
      destruct Hloc as [H | [H | [H | [H | [H | H]]]]]; auto 10;
        destruct Hm as [Hm | Hm]; rewrite Hm in H; inversion H.
    + rewrite Hs, Hm', Hc.
      destruct Hloc as [H | [H | [H | [H | [H | H]]]]]; auto 10.
      * rewrite Hm in H. inversion H.
      * rewrite Hm in H. cbn in H. do 5 right. apply insert_pairs_present. exact H.
      * do 5 right. destruct H as [e He]. exists e. apply insert_pairs_mono. exact He.
  - injection Hstep as <-. exact Hloc.
Qed.

Lemma complete_inv_step bs a st st' :
  count_inv db total st ->
  sound_inv db targets cache0 st ->
  complete_inv targets st ->
  step db bs a st = Some st' ->
  complete_inv targets st'.
Proof.
  intros Hcount Hsound Hloc Hstep o Ho.
  exact (located_step bs a st st' o Hcount Hsound Hstep (Hloc o Ho)).
Qed.

Lemma complete_inv_run bs sched : forall st st',
  count_inv db total st ->
  sound_inv db targets cache0 st ->
  complete_inv targets st ->
  run db bs sched st = Some st' ->
  complete_inv targets st'.
Proof.
  induction sched as [|a sched IH]; intros st st' Hcount Hsound Hcompl Hrun;
    cbn in Hrun.
  - injection Hrun as <-. exact Hcompl.
  - destruct (step db bs a st) as [st1|] eqn:Hstep; [| discriminate].
    apply (IH st1 st'); [| | | exact Hrun].
    + exact (count_inv_step db total total_fits bs a st st1 Hcount Hstep).
    + exact (sound_inv_step db targets cache0 bs a st st1
               (count_workers _ _ _ Hcount) Hsound Hstep).
    + exact (complete_inv_step bs a st st1 Hcount Hsound Hcompl Hstep).
Qed.

Lemma returned_inv_step bs a st st' :
  count_inv db total st ->
  returned_inv st ->
  step db bs a st = Some st' ->
  returned_inv st'.
Proof.
  intros Hcount Hret Hstep [Hr1 Hr2].
  pose proof (count_workers _ _ _ Hcount) as Hok.
  destruct a as [i | i | |].
  - apply step_WorkerLock_inv in Hstep as (w & w' & Hw & Hpc & HL & Hws & Hm & Hc).
    destruct (at_claim_counter db total total_fits st i w Hcount Hw Hpc)
      as (Hcnt & _ & _).
    apply Loop_wait_or_claim_summary in HL as (Hp & Hn & Hs & _).
    rewrite at_claim_stop in Hs. rewrite at_claim_pairs in Hp.
    destruct Hret as [Hz Hnil]; [split; congruence |].
    destruct Hcount as [Heq _ _].
    pose proof (vsize_nonneg (m_outpoints (guarded st))).
    pose proof (sum_held_nonneg db _ Hok).
    assert (Hheld : held_count w = 0).
    { apply (sum_held_zero db (m_worker_threads st)); [exact Hok | lia |].
      apply list_elem_of_lookup. eauto. }
    split; [rewrite Hn, Hcnt; lia |].
    rewrite Hp, Hnil. cbn.
    destruct (decide (w_pc w = AtLock /\ in_flight_fetches_count w <> 0))
      as [[Hat Hne] |]; [| reflexivity].
    unfold held_count in Hheld. rewrite Hat in Hheld. contradiction.
  - apply step_WorkerFetch_inv in Hstep as (w & Hw & Hpc & Hs & Hws & Hm & Hc).
    rewrite Hs. apply Hret. split; congruence.
  - apply step_MainStep_inv in Hstep as [Hws Hmain].
    destruct Hmain as [batch adds Hm Hs Hpa' Hpi' Hne Hc | Hm Hs Hm' Hc
                      | Hm Hs Hm' Hc Hwhy | Hm Hs Hm' Hc | Hm _ Hm' Hq Hp _ _ Hc
                      | ps Hm Hs Hm' Hc]; try congruence.
    rewrite Hs in Hr2 |- *. destruct Hwhy as [Hstop | [H1 H2]]; [congruence | auto].
  - injection Hstep as <-. cbn in Hr2. discriminate Hr2.
Qed.

Lemma returned_inv_run bs sched : forall st st',
  count_inv db total st ->
  returned_inv st ->
  run db bs sched st = Some st' ->
  returned_inv st'.
Proof.
  induction sched as [|a sched IH]; intros st st' Hcount Hret Hrun; cbn in Hrun.
  - injection Hrun as <-. exact Hret.
  - destruct (step db bs a st) as [st1|] eqn:Hstep; [| discriminate].
    apply (IH st1 st'); [| | exact Hrun].
    + exact (count_inv_step db total total_fits bs a st st1 Hcount Hstep).
    + exact (returned_inv_step bs a st st1 Hcount Hret Hstep).
Qed.

(** On return every target is in the cache. *)
Lemma returned_all_cached st o :
  count_inv db total st ->
  complete_inv targets st ->
  returned_inv st ->
  returned st -> o ∈ targets -> is_Some (cache st !! o).
Proof.
  intros Hcount Hloc Hret Hr Ho. destruct (Hret Hr) as [Hz Hnil].
  pose proof (count_workers _ _ _ Hcount) as Hok.
  destruct Hcount as [Heq _ _].
  pose proof (vsize_nonneg (m_outpoints (guarded st))).
  pose proof (sum_held_nonneg db _ Hok).
  destruct Hr as [Hr _].
  destruct (Hloc o Ho) as [H' | [H' | [(w0 & Hw0 & Ho') | [H' | [H' | H']]]]].
  - rewrite Hr in H'. inversion H'.
  - assert (Hq : m_outpoints (guarded st) = []) by (apply vsize_nil_iff; lia).
    rewrite Hq in H'. inversion H'.
  - assert (Hheld : held_count w0 = 0).
    { apply (sum_held_zero db (m_worker_threads st)); [exact Hok | lia | exact Hw0]. }
    pose proof (held_outpoints_count w0 o
                  (proj1 (Forall_forall _ _) Hok w0 Hw0) Ho').
    lia.
  - rewrite Hnil in H'. inversion H'.
  - rewrite Hr in H'. inversion H'.
  - exact H'.
Qed.

End Complete.

Lemma complete_inv_enter f bs c block :
  complete_inv (fetch_targets c bs block) (FetchInputs_enter f bs c block).
Proof. intros o Ho. left. exact Ho. Qed.

Lemma returned_inv_enter f bs c block : returned_inv (FetchInputs_enter f bs c block).
Proof. intros [Hr _]. cbn in Hr. discriminate Hr. Qed.

(** ** Workers stay alive until the stop is requested *)

Lemma alive_inv_enter f bs c block :
  idle f = true -> alive_inv (FetchInputs_enter f bs c block).
Proof.
  intros Hidle _. apply idle_spec in Hidle as (_ & _ & _ & _ & Hws). cbn.
  eapply Forall_impl; [exact Hws |]. intros w. apply idle_worker_alive.
Qed.

Lemma alive_inv_step db bs a st st' :
  alive_inv st -> step db bs a st = Some st' -> alive_inv st'.
Proof.
  intros Halive Hstep Hstop. destruct a as [i | i | |].
  - apply step_WorkerLock_inv in Hstep as (w & w' & Hw & Hpc & HL & Hws & _).
    pose proof HL as HL'.
    apply Loop_wait_or_claim_summary in HL' as (_ & _ & Hs & _).
    rewrite at_claim_stop in Hs. rewrite Hs in Hstop.
    rewrite Hws. apply Forall_insert; [exact (Halive Hstop) |].
    apply Loop_wait_or_claim_cases in HL
      as [(_ & _ & _ & ->) | [(Hs' & _ & _) | (_ & _ & k & batch & _ & ->)]];
      try discriminate.
    rewrite at_claim_stop in Hs'. congruence.
  - apply step_WorkerFetch_inv in Hstep as (w & Hw & Hpc & Hs & Hws & _).
    rewrite Hs in Hstop. rewrite Hws.
    apply Forall_insert; [exact (Halive Hstop) | discriminate].
  - apply step_MainStep_inv in Hstep as [Hws Hmain]. rewrite Hws. apply Halive.
    destruct Hmain as [batch adds _ Hs _ _ _ _ | _ Hs _ _ | _ Hs _ _ _
                      | _ Hs _ _ | _ _ _ _ _ _ Hs _ | ps _ Hs _ _];
      rewrite Hs in Hstop; try exact Hstop.
    rewrite (proj2 (Add_frame batch (guarded st))) in Hstop. exact Hstop.
  - injection Hstep as <-. cbn in Hstop. discriminate Hstop.
Qed.

Lemma alive_inv_run db bs sched : forall st st',
  alive_inv st -> run db bs sched st = Some st' -> alive_inv st'.
Proof.
  induction sched as [|a sched IH]; intros st st' Halive Hrun; cbn in Hrun.
  - injection Hrun as <-. exact Halive.
  - destruct (step db bs a st) as [st1|] eqn:Hstep; [| discriminate].
    exact (IH st1 st' (alive_inv_step db bs a st st1 Halive Hstep) Hrun).
Qed.

(** A fetcher whose call has returned with no stop requested is idle. *)
Lemma returned_idle db total st :
  count_inv db total st -> alive_inv st -> returned_inv st -> returned st ->
  idle (guarded st, m_worker_threads st) = true.
Proof.
  intros Hcount Halive Hret Hr. destruct (Hret Hr) as [Hz Hnil].
  destruct Hr as [_ Hstop]. pose proof (count_workers _ _ _ Hcount) as Hok.
  destruct Hcount as [Heq _ _].
  pose proof (vsize_nonneg (m_outpoints (guarded st))).
  pose proof (sum_held_nonneg db _ Hok).
  apply idle_spec. cbn. repeat split; try assumption.
  - apply vsize_nil_iff. lia.
  - apply Forall_forall. intros w Hw.
    assert (Hheld : held_count w = 0).
    { apply (sum_held_zero db (m_worker_threads st)); [exact Hok | lia | exact Hw]. }
    pose proof (proj1 (Forall_forall _ _) Hok w Hw) as Hwok.
    pose proof (proj1 (Forall_forall _ _) (Halive Hstop) w Hw) as Hwa.
    cbn beta in Hwa.
    apply worker_idle_spec. unfold held_count in Hheld. unfold worker_ok in Hwok.
    destruct (w_pc w); [| auto | lia | congruence].
    left. destruct Hwok as [Hn Hp]. rewrite Hheld in Hn. symmetry in Hn.
    apply vsize_nil_iff in Hn. rewrite Hn in Hp. auto.
Qed.

(** ** The invariants along a run of [FetchInputs] *)

Section Runs.
Variable db : gmap COutPoint Coin.
Variable f : shared * list worker.
Variable batch_size : Z.
Variable c : gmap COutPoint CCoinsCacheEntry.
Variable block : CBlock.
Variable sched : list action.
Variable st : state.
Hypothesis f_idle : idle f = true.
Hypothesis fits : vsize (fetch_targets c batch_size block) < SIZE_MAX_plus_1.
Hypothesis Hrun :
  run db batch_size sched (FetchInputs_enter f batch_size c block) = Some st.

Lemma run_count_inv : count_inv db (vsize (fetch_targets c batch_size block)) st.
Proof.
  exact (count_inv_run db _ fits batch_size sched _ st
           (count_inv_enter db f batch_size c block f_idle) Hrun).
Qed.

Lemma run_sound_inv : sound_inv db (fetch_targets c batch_size block) c st.
Proof.
  exact (sound_inv_run db _ c _ batch_size sched _ st fits
           (count_inv_enter db f batch_size c block f_idle)
           (sound_inv_enter db f batch_size c block f_idle) Hrun).
Qed.

Lemma run_returned_inv : returned_inv st.
Proof.
  exact (returned_inv_run db _ fits batch_size sched _ st
           (count_inv_enter db f batch_size c block f_idle)
           (returned_inv_enter f batch_size c block) Hrun).
Qed.

(** After the return the fetcher is idle again, ready for the next call. *)
Lemma run_returned_idle : returned st -> idle (guarded st, m_worker_threads st) = true.
Proof.
  apply (returned_idle db _ st run_count_inv); [| exact run_returned_inv].
  exact (alive_inv_run db batch_size sched _ st
           (alive_inv_enter f batch_size c block f_idle) Hrun).
Qed.

(** Entries of the initial cache stay. *)
Lemma run_cache_keeps o e : c !! o = Some e -> cache st !! o = Some e.
Proof. exact (sound_cache0 _ _ _ _ run_sound_inv o e). Qed.

(** Every other entry is a scanned outpoint with the store's coin, clean. *)
Lemma run_cache_new o e :
  cache st !! o = Some e -> c !! o = None ->
  scanned c block o /\
  exists coin, db !! o = Some coin /\ e = {| coin := coin; dirty := false |}.
Proof.
  intros He Hc. destruct (sound_cache _ _ _ _ run_sound_inv o e He)
    as [H | [Ht Hcoin]]; [congruence |].
  split; [apply (elem_of_fetch_targets c batch_size), Ht | exact Hcoin].
Qed.

(** When the store has every scanned outpoint, all are cached on return. *)
Lemma run_cache_complete o :
  (forall o', scanned c block o' -> is_Some (db !! o')) ->
  returned st -> scanned c block o -> is_Some (cache st !! o).
Proof.
  intros Hall Hret Ho.
  assert (Hall' : forall o', o' ∈ fetch_targets c batch_size block -> is_Some (db !! o')).
  { intros o' Ho'. apply Hall, (elem_of_fetch_targets c batch_size), Ho'. }
  apply (returned_all_cached db (fetch_targets c batch_size block) _ st o run_count_inv).
  - exact (complete_inv_run db _ c _ fits Hall' batch_size sched _ st
             (count_inv_enter db f batch_size c block f_idle)
             (sound_inv_enter db f batch_size c block f_idle)
             (complete_inv_enter f batch_size c block) Hrun).
  - exact run_returned_inv.
  - exact Hret.
  - apply (elem_of_fetch_targets c batch_size), Ho.
Qed.

(** The cache on return, entry by entry, when the store has every scanned
    outpoint. *)
Lemma run_cache_lookup o :
  (forall o', scanned c block o' -> is_Some (db !! o')) ->
  returned st ->
  cache st !! o =
    match c !! o with
    | Some e => Some e
    | None =>
        if decide (o ∈ wanted_txs c ∅ (vtx block)) then
          (fun coin => {| coin := coin; dirty := false |}) <$> db !! o
        else None
    end.
Proof.
  intros Hall Hret. destruct (c !! o) as [e|] eqn:Hc; [exact (run_cache_keeps o e Hc) |].
  rewrite <- (fetch_targets_wanted c batch_size block).
  destruct (decide (o ∈ fetch_targets c batch_size block)) as [Hin | Hout].
  - apply (elem_of_fetch_targets c batch_size) in Hin.
    destruct (run_cache_complete o Hall Hret Hin) as [e He].
    destruct (run_cache_new o e He Hc) as [_ (coin & Hdb & ->)].
    rewrite He, Hdb. reflexivity.
  - destruct (cache st !! o) as [e|] eqn:He; [| reflexivity].
    destruct (run_cache_new o e He Hc) as [Hs _].
    exfalso. apply Hout, (elem_of_fetch_targets c batch_size), Hs.
Qed.

End Runs.

(** C3. Between any two atomic steps of a run of [FetchInputs] on an idle
    fetcher (the mutex is free there, a waiting thread included) the counter
    is non-negative and equals the queue length plus the sizes of the batches
    the workers have claimed and not merged yet. The number of queued
    outpoints is assumed to fit [size_t]. *)
Theorem C3_in_flight_counter (db : gmap COutPoint Coin) (f : shared * list worker)
    (batch_size : Z) (c : gmap COutPoint CCoinsCacheEntry) (block : CBlock)
    (sched : list action) (st : state) :
  idle f = true ->
  vsize (fetch_targets c batch_size block) < SIZE_MAX_plus_1 ->
  run db batch_size sched (FetchInputs_enter f batch_size c block) = Some st ->
  0 <= m_in_flight_fetches_count (guarded st) /\
  m_in_flight_fetches_count (guarded st) =
    vsize (m_outpoints (guarded st)) + sum_held (m_worker_threads st).
Proof.
  intros Hidle Hfit Hrun.
  pose proof (run_count_inv db f batch_size c block sched st Hidle Hfit Hrun) as Hinv.
  split.
  - exact (in_flight_nonneg db _ st Hinv).
  - exact (count_eq _ _ _ Hinv).
Qed.

Lemma C3_witness :
  exists st,
    run ex_db 2 (take 4 ex_sched_2) (FetchInputs_enter (construct 2) 2 ∅ ex_block)
      = Some st /\
    0 <= m_in_flight_fetches_count (guarded st) /\
    m_in_flight_fetches_count (guarded st) =
      vsize (m_outpoints (guarded st)) + sum_held (m_worker_threads st).
Proof.
  eexists. split; [vm_compute; reflexivity |].
  apply (C3_in_flight_counter ex_db (construct 2) 2 ∅ ex_block (take 4 ex_sched_2));
    vm_compute; reflexivity.
Defined.

(** C1 fails as stated. First run: the store lacks [ex_a]; the worker claims
    [ex_a] and [ex_b] in one batch and stops at [ex_a], so [ex_b], which the
    store has, is not inserted either. Second run: the coinbase is skipped
    before its id is recorded, so an input that names the id of the block's
    own coinbase is queued, and inserted when the store has a coin there. *)
Lemma C1_counterexample :
  (exists st,
     run ex_db 2 ex_sched_1_short (FetchInputs_enter (construct 1) 2 ∅ ex_block)
       = Some st /\
     returned st /\
     referenced_not_produced_earlier ∅ ex_block ex_a /\
     referenced_not_produced_earlier ∅ ex_block ex_b /\
     ex_db !! ex_b = Some ex_coin /\
     cache st !! ex_a = None /\ cache st !! ex_b = None)
  /\
  (exists st,
     run ex_db_c 2 ex_sched_c (FetchInputs_enter (construct 1) 2 ∅ ex_block_c)
       = Some st /\
     returned st /\
     ~ referenced_not_produced_earlier ∅ ex_block_c ex_c /\
     cache st !! ex_c = Some {| coin := ex_coin; dirty := false |}).
Proof.
  split.
  - eexists. split; [vm_compute; reflexivity |].
    split; [split; reflexivity |].
    split; [| split].
    + exists [ex_coinbase], ex_tx, [], (ex_input ex_a).
      repeat split; try reflexivity.
      * left.
      * cbn. intros H. apply list_elem_of_singleton in H. discriminate H.
    + exists [ex_coinbase], ex_tx, [], (ex_input ex_b).
      repeat split; try reflexivity.
      * right. left.
      * cbn. intros H. apply list_elem_of_singleton in H. discriminate H.
    + repeat split; vm_compute; reflexivity.
  - eexists. split; [vm_compute; reflexivity |].
    split; [split; reflexivity |].
    split; [| vm_compute; reflexivity].
    intros (pre & tx & post & txin & Heq & Hcb & _ & _ & Hnot & _).
    destruct pre as [|x [|y [|z pre]]]; cbn in Heq.
    + injection Heq as <- _. discriminate Hcb.
    + injection Heq as <- <- _. apply Hnot. cbn. left.
    + injection Heq as _ _ Heq. discriminate Heq.
    + injection Heq as _ _ Heq. discriminate Heq.
Qed.

(** C1, amended. Take a block in which no input of a non-coinbase transaction
    names the id of an earlier coinbase of the block. After [FetchInputs],
    called on an idle fetcher, has returned with no stop requested: the
    entries the cache had are kept; an outpoint newly in the cache is
    referenced by a non-coinbase input of the block, its producing id is not
    the id of an earlier transaction of the block, it was not in the cache,
    the store has it, and the entry is the store's coin, not dirty; and when
    the store has every such outpoint, the outpoints newly in the cache are
    exactly these. *)
Theorem C1_fetch_inputs_cache (db : gmap COutPoint Coin) (f : shared * list worker)
    (batch_size : Z) (c : gmap COutPoint CCoinsCacheEntry) (block : CBlock)
    (sched : list action) (st : state) :
  idle f = true ->
  vsize (fetch_targets c batch_size block) < SIZE_MAX_plus_1 ->
  no_coinbase_reference block = true ->
  run db batch_size sched (FetchInputs_enter f batch_size c block) = Some st ->
  returned st ->
  let new o := is_Some (cache st !! o) /\ c !! o = None in
  (forall o e, c !! o = Some e -> cache st !! o = Some e) /\
  (forall o, new o ->
     referenced_not_produced_earlier c block o /\
     exists coin, db !! o = Some coin /\
                  cache st !! o = Some {| coin := coin; dirty := false |}) /\
  ((forall o, referenced_not_produced_earlier c block o -> is_Some (db !! o)) ->
   forall o, new o <-> referenced_not_produced_earlier c block o).
Proof.
  intros Hidle Hfit Hncr Hrun Hret new. split; [| split].
  - intros o e. exact (run_cache_keeps db f _ c block sched st Hidle Hfit Hrun o e).
  - intros o [[e He] Hc].
    destruct (run_cache_new db f _ c block sched st Hidle Hfit Hrun o e He Hc)
      as [Hs (coin & Hdb & ->)].
    split; [exact (proj1 (scanned_iff_referenced c block o Hncr) Hs) | eauto].
  - intros Hall o. split.
    + intros [[e He] Hc]. apply (scanned_iff_referenced c block o Hncr).
      exact (proj1 (run_cache_new db f _ c block sched st Hidle Hfit Hrun o e He Hc)).
    + intros Hr. split.
      * apply (run_cache_complete db f _ c block sched st Hidle Hfit Hrun o);
          [| exact Hret | exact (scanned_referenced c block o Hr)].
        intros o' Ho'. apply Hall, (scanned_iff_referenced c block o' Hncr), Ho'.
      * destruct Hr as (_ & _ & _ & _ & _ & _ & _ & _ & _ & Hc). exact Hc.
Qed.

Lemma ex_db_full_has_all o : scanned ∅ ex_block o -> is_Some (ex_db_full !! o).
Proof.
  intros Hs. apply (elem_of_fetch_targets ∅ 2) in Hs.
  change (fetch_targets ∅ 2 ex_block) with [ex_a; ex_b] in Hs.
  apply elem_of_cons in Hs as [-> | Hs]; [exists ex_coin; vm_compute; reflexivity |].
  apply list_elem_of_singleton in Hs as ->. exists ex_coin. vm_compute; reflexivity.
Qed.

Lemma C1_witness :
  exists st,
    run ex_db_full 2 ex_sched_1 (FetchInputs_enter (construct 1) 2 ∅ ex_block)
      = Some st /\
    forall o,
      is_Some (cache st !! o) /\ (∅ : gmap COutPoint CCoinsCacheEntry) !! o = None
      <-> referenced_not_produced_earlier ∅ ex_block o.
Proof.
  eexists. split; [vm_compute; reflexivity |].
  refine (proj2 (proj2 (C1_fetch_inputs_cache ex_db_full (construct 1) 2 ∅ ex_block
                          ex_sched_1 _ _ _ _ _ _)) _).
  - reflexivity.
  - vm_compute; reflexivity.
  - reflexivity.
  - vm_compute; reflexivity.
  - split; reflexivity.
  - intros o Ho. apply ex_db_full_has_all, scanned_referenced, Ho.
Defined.

(** C5 fails as stated: with the store lacking [ex_a], one worker claims both
    outpoints in one batch and stops at [ex_a]; with two workers, and with
    eight, the batches have one outpoint each, and [ex_b] is cached. *)
Lemma C5_counterexample :
  exists st1 st2 st8,
    run ex_db 2 ex_sched_1_short (FetchInputs_enter (construct 1) 2 ∅ ex_block)
      = Some st1 /\
    run ex_db 2 ex_sched_2 (FetchInputs_enter (construct 2) 2 ∅ ex_block)
      = Some st2 /\
    run ex_db 2 ex_sched_2 (FetchInputs_enter (construct 8) 2 ∅ ex_block)
      = Some st8 /\
    returned st1 /\ returned st2 /\ returned st8 /\
    cache st1 !! ex_b = None /\
    cache st2 !! ex_b = Some {| coin := ex_coin; dirty := false |} /\
    cache st8 !! ex_b = Some {| coin := ex_coin; dirty := false |} /\
    cache st1 <> cache st2 /\ cache st1 <> cache st8.
Proof.
  eexists _, _, _. split; [vm_compute; reflexivity |].
  split; [vm_compute; reflexivity |]. split; [vm_compute; reflexivity |].
  split; [split; reflexivity |]. split; [split; reflexivity |].
  split; [split; reflexivity |].
  split; [vm_compute; reflexivity |]. split; [vm_compute; reflexivity |].
  split; [vm_compute; reflexivity |].
  split; intros Heq; apply (f_equal (fun m => m !! ex_b)) in Heq; vm_compute in Heq;
    discriminate Heq.
Qed.

(** C5, amended. When the store has every scanned outpoint of the block, two
    runs of [FetchInputs] on the same store, cache and block, each on an idle
    fetcher, that return with no stop requested end with the same cache,
    whatever their worker counts, batch sizes and schedules. *)
Theorem C5_cache_independent_of_workers (db : gmap COutPoint Coin)
    (c : gmap COutPoint CCoinsCacheEntry) (block : CBlock)
    (f_1 f_2 : shared * list worker) (batch_size_1 batch_size_2 : Z)
    (sched_1 sched_2 : list action) (st_1 st_2 : state) :
  idle f_1 = true -> idle f_2 = true ->
  vsize (wanted_txs c ∅ (vtx block)) < SIZE_MAX_plus_1 ->
  (forall o, scanned c block o -> is_Some (db !! o)) ->
  run db batch_size_1 sched_1 (FetchInputs_enter f_1 batch_size_1 c block) = Some st_1 ->
  returned st_1 ->
  run db batch_size_2 sched_2 (FetchInputs_enter f_2 batch_size_2 c block) = Some st_2 ->
  returned st_2 ->
  cache st_1 = cache st_2.
Proof.
  intros Hidle1 Hidle2 Hfit Hall Hrun1 Hret1 Hrun2 Hret2. apply map_eq. intros o.
  rewrite (run_cache_lookup db f_1 batch_size_1 c block sched_1 st_1 Hidle1
             ltac:(rewrite fetch_targets_wanted; exact Hfit) Hrun1 o Hall Hret1).
  rewrite (run_cache_lookup db f_2 batch_size_2 c block sched_2 st_2 Hidle2
             ltac:(rewrite fetch_targets_wanted; exact Hfit) Hrun2 o Hall Hret2).
  reflexivity.
Qed.

Lemma C5_witness :
  exists st1 st2 st8,
    run ex_db_full 2 ex_sched_1 (FetchInputs_enter (construct 1) 2 ∅ ex_block)
      = Some st1 /\
    run ex_db_full 2 ex_sched_2 (FetchInputs_enter (construct 2) 2 ∅ ex_block)
      = Some st2 /\
    run ex_db_full 2 ex_sched_2 (FetchInputs_enter (construct 8) 2 ∅ ex_block)
      = Some st8 /\
    cache st1 = cache st2 /\ cache st2 = cache st8.
Proof.
  eexists _, _, _. split; [vm_compute; reflexivity |].
  split; [vm_compute; reflexivity |]. split; [vm_compute; reflexivity |].
  split.
  - refine (C5_cache_independent_of_workers ex_db_full ∅ ex_block
              (construct 1) (construct 2) 2 2
              ex_sched_1 ex_sched_2 _ _ _ _ _ ex_db_full_has_all _ _ _ _).
    + reflexivity.
    + reflexivity.
    + vm_compute; reflexivity.
    + vm_compute; reflexivity.
    + split; reflexivity.
    + vm_compute; reflexivity.
    + split; reflexivity.
  - refine (C5_cache_independent_of_workers ex_db_full ∅ ex_block
              (construct 2) (construct 8) 2 2
              ex_sched_2 ex_sched_2 _ _ _ _ _ ex_db_full_has_all _ _ _ _).
    + reflexivity.
    + reflexivity.
    + vm_compute; reflexivity.
    + vm_compute; reflexivity.
    + split; reflexivity.
    + vm_compute; reflexivity.
    + split; reflexivity.
Defined.

(** X24. A call that has returned with no stop requested leaves the fetcher
    idle: the statements above apply to the next call as well. *)
Theorem FetchInputs_returns_idle (db : gmap COutPoint Coin) (f : shared * list worker)
    (batch_size : Z) (c : gmap COutPoint CCoinsCacheEntry) (block : CBlock)
    (sched : list action) (st : state) :
  idle f = true ->
  vsize (fetch_targets c batch_size block) < SIZE_MAX_plus_1 ->
  run db batch_size sched (FetchInputs_enter f batch_size c block) = Some st ->
  returned st ->
  idle (guarded st, m_worker_threads st) = true.
Proof.
  intros Hidle Hfit Hrun.
  exact (run_returned_idle db f batch_size c block sched st Hidle Hfit Hrun).
Qed.

(** ** A run that returns exists *)

Lemma run_app db bs s1 : forall s2 st st1 st2,
  run db bs s1 st = Some st1 -> run db bs s2 st1 = Some st2 ->
  run db bs (s1 ++ s2) st = Some st2.
Proof.
  induction s1 as [|a s1 IH]; intros s2 st st1 st2 H1 H2; cbn in H1 |- *.
  - injection H1 as ->. exact H2.
  - destruct (step db bs a st) as [st'|]; [| discriminate].
    exact (IH s2 st' st1 st2 H1 H2).
Qed.

(** A worker at a lock acquisition can always take its step: the batch size
    is defined and within the queue. *)
Lemma step_WorkerLock_defined db bs i st w :
  m_worker_threads st !! i = Some w ->
  w_pc w = AtLock \/ w_pc w = Waiting ->
  is_Some (step db bs (WorkerLock i) st).
Proof.
  intros Hw Hpc. cbn. rewrite Hw, (Loop_locked_at_claim _ _ _ _ Hpc).
  unfold Loop_wait_or_claim.
  destruct (bool_decide (m_outpoints (at_claim w (guarded st)) = [])) eqn:Hq;
    destruct (m_request_stop (at_claim w (guarded st))); cbn; try (eexists; reflexivity).
  apply bool_decide_eq_false in Hq.
  assert (Hwc : vsize (m_worker_threads st) <> 0).
  { apply lookup_lt_Some in Hw. unfold vsize. lia. }
  destruct (claim_batch_defined _ bs _ Hq Hwc) as (k & batch & s' & ->).
  eexists; reflexivity.
Qed.

Lemma step_WorkerFetch_defined db bs i st w :
  m_worker_threads st !! i = Some w -> w_pc w = Fetching ->
  is_Some (step db bs (WorkerFetch i) st).
Proof.
  intros Hw Hpc. cbn. rewrite Hw. unfold Loop_fetch. rewrite Hpc. eexists; reflexivity.
Qed.

(** The main thread makes its [Add] calls. *)
Lemma main_adds_all db bs adds : forall st,
  main st = Scanning adds ->
  exists sched st',
    run db bs sched st = Some st' /\
    main st' = AtDrainLock /\
    m_worker_threads st' = m_worker_threads st /\
    m_request_stop (guarded st') = m_request_stop (guarded st).
Proof.
  induction adds as [|batch adds IH]; intros st Hm.
  - exists [MainStep]. eexists. cbn. rewrite Hm. split; [reflexivity |]. cbn. auto.
  - destruct adds as [|batch' adds].
    + exists [MainStep]. eexists. cbn. rewrite Hm. split; [reflexivity |]. cbn.
      repeat split. apply Add_frame.
    + destruct (IH {| guarded := Add batch (guarded st);
                      m_worker_threads := m_worker_threads st;
                      main := Scanning (batch' :: adds);
                      cache := cache st |} eq_refl) as (sched & st' & Hrun & H1 & H2 & H3).
      exists (MainStep :: sched), st'. cbn. rewrite Hm. cbn in H2, H3.
      repeat split; try assumption.
      rewrite H3. apply Add_frame.
Qed.

Lemma FetchInputs_locked_done s :
  m_pairs s = [] -> m_request_stop s = false -> m_in_flight_fetches_count s = 0 ->
  FetchInputs_locked s = (Returned, s).
Proof.
  intros Hp Hs Hz. unfold FetchInputs_locked. rewrite Hp, Hs, Hz. reflexivity.
Qed.

Lemma FetchInputs_locked_take s :
  m_pairs s <> [] -> m_request_stop s = false ->
  FetchInputs_locked s =
    (Inserting (m_pairs s),
     {| m_outpoints := m_outpoints s; m_pairs := [];
        m_in_flight_fetches_count := m_in_flight_fetches_count s;
        m_request_stop := m_request_stop s |}).
Proof.
  intros Hp Hs. unfold FetchInputs_locked.
  rewrite bool_decide_eq_false_2 by exact Hp. rewrite Hs. reflexivity.
Qed.

Section Progress.
Variable db : gmap COutPoint Coin.
Variable bs : Z.
Variable total : Z.
Hypothesis total_fits : total < SIZE_MAX_plus_1.

(** Worker 0 alone empties the queue and ends up waiting. *)
Lemma worker_0_drains (len : nat) : forall st w,
  count_inv db total st ->
  (length (m_outpoints (guarded st)) <= len)%nat ->
  m_worker_threads st !! 0%nat = Some w ->
  w_pc w = AtLock \/ w_pc w = Waiting ->
  m_request_stop (guarded st) = false ->
  exists sched st' w',
    run db bs sched st = Some st' /\
    count_inv db total st' /\
    m_outpoints (guarded st') = [] /\
    m_worker_threads st' !! 0%nat = Some w' /\ w_pc w' = Waiting /\
    (forall j, j <> 0%nat -> m_worker_threads st' !! j = m_worker_threads st !! j) /\
    main st' = main st /\
    m_request_stop (guarded st') = false.
Proof.
  induction len as [|len IH]; intros st w Hinv Hlen Hw Hpc Hstop;
    destruct (step_WorkerLock_defined db bs 0 st w Hw Hpc) as [st1 Hstep];
    pose proof (count_inv_step db total total_fits bs _ st st1 Hinv Hstep) as Hinv1;
    pose proof Hstep as Hstep';
    apply step_WorkerLock_inv in Hstep' as (w0 & w1 & Hw0 & _ & HL & Hws & Hm & _);
    rewrite Hw in Hw0; injection Hw0 as <-;
    apply Loop_wait_or_claim_summary in HL as (_ & _ & Hs & _ & Hq);
    rewrite at_claim_stop in Hs; rewrite at_claim_queue in Hq;
    assert (Hw1 : m_worker_threads st1 !! 0%nat = Some w1)
      by (rewrite Hws; apply list_lookup_insert_eq; eapply lookup_lt_Some; exact Hw);
    assert (Hothers : forall j, j <> 0%nat ->
              m_worker_threads st1 !! j = m_worker_threads st !! j)
      by (intros j Hj; rewrite Hws; apply list_lookup_insert_ne; congruence).
  - (* the queue is empty *)
    assert (Hnil : m_outpoints (guarded st) = []).
    { destruct (m_outpoints (guarded st)); [reflexivity | cbn in Hlen; lia]. }
    destruct Hq as [(Hq & _ & [Hwait | Hexit]) | (Hq & _ & Hn & Hk)].
    + exists [WorkerLock 0%nat], st1, w1. cbn [run]. rewrite Hstep.
      repeat apply conj; try assumption; congruence.
    + exfalso. cbn in Hstep. rewrite Hw, (Loop_locked_at_claim _ _ _ _ Hpc) in Hstep.
      unfold Loop_wait_or_claim in Hstep.
      rewrite at_claim_queue, at_claim_stop, Hnil, Hstop in Hstep. cbn in Hstep.
      injection Hstep as <-. cbn in Hw1. rewrite list_lookup_insert_eq in Hw1
        by (eapply lookup_lt_Some; exact Hw).
      injection Hw1 as <-. discriminate Hexit.
    + exfalso. rewrite Hnil in Hq. symmetry in Hq. apply app_eq_nil in Hq as [_ Hq].
      rewrite Hq in Hk. change (vsize (@nil COutPoint)) with 0 in Hk. lia.
  - destruct Hq as [(Hq & _ & [Hwait | Hexit]) | (Hq & Hfetch & Hn & Hk)].
    + (* the queue was empty: the worker waits *)
      assert (Hnil : m_outpoints (guarded st) = []).
      { destruct (m_outpoints (guarded st)) as [|o q] eqn:E; [reflexivity |].
        exfalso. cbn in Hstep. rewrite Hw, (Loop_locked_at_claim _ _ _ _ Hpc) in Hstep.
        unfold Loop_wait_or_claim in Hstep.
        rewrite at_claim_queue, at_claim_stop, E, Hstop in Hstep. cbn in Hstep.
        destruct (claim_batch _ bs _) as [[[k b] s']|]; [| discriminate].
        injection Hstep as <-. cbn in Hw1. rewrite list_lookup_insert_eq in Hw1
          by (eapply lookup_lt_Some; exact Hw).
        injection Hw1 as <-. discriminate Hwait. }
      exists [WorkerLock 0%nat], st1, w1. cbn [run]. rewrite Hstep.
      repeat apply conj; try assumption; congruence.
    + exfalso. cbn in Hstep. rewrite Hw, (Loop_locked_at_claim _ _ _ _ Hpc) in Hstep.
      unfold Loop_wait_or_claim in Hstep.
      rewrite at_claim_stop, Hstop in Hstep. rewrite andb_true_r in Hstep.
      destruct (bool_decide _); [| destruct (claim_batch _ bs _) as [[[k b] s']|]];
        try discriminate; injection Hstep as <-; cbn in Hw1;
        rewrite list_lookup_insert_eq in Hw1 by (eapply lookup_lt_Some; exact Hw);
        injection Hw1 as <-; discriminate Hexit.
    + (* the worker claims a batch, looks it up, and goes on *)
      destruct (step_WorkerFetch_defined db bs 0 st1 w1 Hw1 Hfetch) as [st2 Hstep2].
      pose proof (count_inv_step db total total_fits bs _ st1 st2 Hinv1 Hstep2) as Hinv2.
      pose proof Hstep2 as Hstep2'.
      apply step_WorkerFetch_inv in Hstep2' as (w1' & Hw1' & _ & Hs2 & Hws2 & Hm2 & _).
      rewrite Hw1 in Hw1'. injection Hw1' as <-.
      assert (Hlen2 : (length (m_outpoints (guarded st2)) <= len)%nat).
      { rewrite Hs2. rewrite Hq, length_app in Hlen. unfold vsize in Hk. lia. }
      edestruct (IH st2) as (sched & st' & w' & Hrun & Hinv' & Hq' & Hw' & Hpc' & Hoth' & Hm' & Hs');
        [exact Hinv2 | exact Hlen2
        | rewrite Hws2; apply list_lookup_insert_eq; eapply lookup_lt_Some; exact Hw1
        | left; reflexivity
        | rewrite Hs2; congruence |].
      exists (WorkerLock 0%nat :: WorkerFetch 0%nat :: sched), st', w'.
      cbn [run]. rewrite Hstep. rewrite Hstep2.
      repeat apply conj; try assumption; try congruence.
      intros j Hj. rewrite (Hoth' j Hj), Hws2, list_lookup_insert_ne by congruence.
      exact (Hothers j Hj).
Qed.

(** With nothing in flight the main thread drains what is left and returns. *)
Lemma main_returns st :
  main st = AtDrainLock ->
  m_request_stop (guarded st) = false ->
  m_in_flight_fetches_count (guarded st) = 0 ->
  exists sched st', run db bs sched st = Some st' /\ returned st'.
Proof.
  intros Hm Hstop Hz.
  destruct (decide (m_pairs (guarded st) = [])) as [Hnil | Hne].
  - exists [MainStep]. eexists. cbn [run step]. rewrite Hm.
    rewrite (FetchInputs_locked_done _ Hnil Hstop Hz).
    split; [reflexivity |]. split; [reflexivity | exact Hstop].
  - exists [MainStep; MainStep; MainStep]. eexists. cbn [run step]. rewrite Hm.
    rewrite (FetchInputs_locked_take _ Hne Hstop). cbn [main guarded].
    rewrite FetchInputs_locked_done by (cbn; auto).
    split; [reflexivity |]. split; [reflexivity | exact Hstop].
Qed.

End Progress.

(** With at least one worker, every call of [FetchInputs] on an idle fetcher
    has a schedule under which it returns with no stop requested. *)
Theorem FetchInputs_can_return (db : gmap COutPoint Coin) (f : shared * list worker)
    (batch_size : Z) (c : gmap COutPoint CCoinsCacheEntry) (block : CBlock) :
  idle f = true ->
  f.2 <> [] ->
  vsize (fetch_targets c batch_size block) < SIZE_MAX_plus_1 ->
  exists sched st,
    run db batch_size sched (FetchInputs_enter f batch_size c block) = Some st /\
    returned st.
Proof.
  intros Hidle Hwc Hfit.
  set (st0 := FetchInputs_enter f batch_size c block).
  set (total := vsize (fetch_targets c batch_size block)) in *.
  pose proof (count_inv_enter db f batch_size c block Hidle) as Hinv0.
  apply idle_spec in Hidle as (_ & _ & _ & Hstop0 & Hws0).
  destruct (main_adds_all db batch_size _ st0 eq_refl)
    as (sched1 & st1 & Hrun1 & Hm1 & Hws1 & Hstop1).
  pose proof (count_inv_run db total Hfit batch_size sched1 st0 st1 Hinv0 Hrun1) as Hinv1.
  destruct (f.2) as [|w0 ws] eqn:Hf2; [contradiction |].
  assert (Hw0 : m_worker_threads st1 !! 0%nat = Some w0).
  { rewrite Hws1. cbn. rewrite Hf2. reflexivity. }
  assert (Hpc0 : w_pc w0 = AtLock \/ w_pc w0 = Waiting).
  { apply Forall_cons in Hws0 as [Hw _].
    apply worker_idle_spec in Hw as [(Hpc & _) | Hpc]; auto. }
  destruct (worker_0_drains db batch_size total Hfit _ st1 w0 Hinv1
              (Nat.le_refl _) Hw0 Hpc0 ltac:(rewrite Hstop1; exact Hstop0))
    as (sched2 & st2 & w' & Hrun2 & Hinv2 & Hq2 & Hw2 & Hpc2 & Hoth2 & Hm2 & Hstop2).
  assert (Hz : m_in_flight_fetches_count (guarded st2) = 0).
  { rewrite (count_eq _ _ _ Hinv2), Hq2, sum_held_all_zero; [reflexivity |].
    intros j w Hj. destruct j as [|j].
    - rewrite Hw2 in Hj. injection Hj as <-. unfold held_count. rewrite Hpc2. reflexivity.
    - rewrite (Hoth2 (S j) ltac:(lia)), Hws1 in Hj. cbn in Hj. rewrite Hf2 in Hj.
      apply idle_worker_held.
      exact (Forall_lookup_1 _ _ _ _ Hws0 Hj). }
  destruct (main_returns db batch_size st2 ltac:(congruence) Hstop2 Hz)
    as (sched3 & st3 & Hrun3 & Hret).
  exists (sched1 ++ sched2 ++ sched3), st3. split; [| exact Hret].
  eapply run_app; [exact Hrun1 |]. eapply run_app; [exact Hrun2 | exact Hrun3].
Qed.

End FetcherSpec.

(* ===================================================================== *)
(** * Further properties of the validation outcome                         *)
(* ===================================================================== *)

Module ValidationProps.
Import Validation ValidationSpec.

Lemma int_wrap_in_int z : in_int z = true -> int_wrap z = z.
Proof.
  unfold in_int, int_wrap. intros H. apply andb_true_iff in H as [H1 H2].
  apply Z.leb_le in H1. apply Z.ltb_lt in H2.
  rewrite Z.mod_small by lia. lia.
Qed.

(** Outside error mode a [DoS] adds its level and makes the state invalid. *)
Lemma DoS_not_error level r ret c m co d s :
  mode s <> MODE_ERROR ->
  mode (DoS level r ret c m co d s).2 = MODE_INVALID /\
  nDoS (DoS level r ret c m co d s).2 = int_wrap (nDoS s + level).
Proof.
  intros Hm. unfold DoS. cbn [mode].
  destruct (decide (mode s = MODE_ERROR)); [contradiction |]. split; reflexivity.
Qed.

Lemma apply_ops_cons o os s : apply_ops (o :: os) s = apply_ops os (apply_op o s).
Proof. reflexivity. Qed.

(** X1. Outside error mode the score after a sequence of calls is the score
    before plus the levels of the [DoS] calls made up to the first [Error]
    ([Invalid] counts 0, [SetCorruptionPossible] nothing), provided no
    partial sum leaves the range of [int]. *)
Theorem DoS_score_is_sum (os : list op) (s : CValidationState) :
  mode s <> MODE_ERROR ->
  sums_fit (nDoS s) (counted_levels os) = true ->
  GetDoS (apply_ops os s) = nDoS s + sum_levels (counted_levels os).
Proof.
  unfold GetDoS. revert s.
  induction os as [|o os IH]; intros s Hm Hfit.
  - cbn. lia.
  - rewrite apply_ops_cons. destruct o as [level r ret c m co d | r ret c m d | m |].
    + cbn [counted_levels sums_fit] in Hfit. apply andb_true_iff in Hfit as [Hi Hfit].
      cbn [apply_op counted_levels sum_levels foldr].
      destruct (DoS_not_error level r ret c m co d s Hm) as [Hm' Hn'].
      rewrite int_wrap_in_int in Hn' by exact Hi.
      rewrite IH; [| rewrite Hm'; discriminate | rewrite Hn'; exact Hfit].
      rewrite Hn'. fold (sum_levels (counted_levels os)). lia.
    + cbn [counted_levels sums_fit] in Hfit. apply andb_true_iff in Hfit as [Hi Hfit].
      cbn [apply_op counted_levels sum_levels foldr]. unfold Invalid.
      destruct (DoS_not_error 0 r ret c m false d s Hm) as [Hm' Hn'].
      rewrite int_wrap_in_int in Hn' by exact Hi.
      rewrite IH; [| rewrite Hm'; discriminate | rewrite Hn'; exact Hfit].
      rewrite Hn'. fold (sum_levels (counted_levels os)). lia.
    + cbn [counted_levels sum_levels foldr apply_op].
      destruct (apply_ops_error os (Error m s).2 eq_refl) as [_ Hn].
      rewrite Hn. cbn. lia.
    + cbn [counted_levels apply_op]. cbn [counted_levels] in Hfit.
      rewrite IH; [reflexivity | exact Hm | exact Hfit].
Qed.

Lemma DoS_score_is_sum_witness :
  GetDoS (apply_ops [OpDoS 10 CONSENSUS false 16 "a" false EmptyString;
                     OpInvalid TX_NOT_STANDARD false 64 "b" EmptyString;
                     OpDoS 20 CONSENSUS false 16 "c" true EmptyString;
                     OpError "disk";
                     OpDoS 50 CONSENSUS false 16 "d" false EmptyString] init) = 30.
Proof.
  apply (DoS_score_is_sum
           [OpDoS 10 CONSENSUS false 16 "a"%string false EmptyString;
            OpInvalid TX_NOT_STANDARD false 64 "b"%string EmptyString;
            OpDoS 20 CONSENSUS false 16 "c"%string true EmptyString;
            OpError "disk"%string;
            OpDoS 50 CONSENSUS false 16 "d"%string false EmptyString] init).
  - discriminate.
  - vm_compute; reflexivity.
Defined.

Lemma mode_rank_apply_op o s :
  mode_rank (mode s) <= mode_rank (mode (apply_op o s)) /\
  (records_failure o = true -> 1 <= mode_rank (mode (apply_op o s))).
Proof.
  destruct o; cbn [apply_op records_failure]; unfold Invalid, DoS, Error; cbn [mode snd].
  - destruct (decide (mode s = MODE_ERROR)) as [E|E]; cbn [mode snd].
    + rewrite E. cbn. split; [lia | intros _; lia].
    + destruct (mode s); cbn; try congruence; (split; [lia | intros _; lia]).
  - destruct (decide (mode s = MODE_ERROR)) as [E|E]; cbn [mode snd].
    + rewrite E. cbn. split; [lia | intros _; lia].
    + destruct (mode s); cbn; try congruence; (split; [lia | intros _; lia]).
  - destruct (mode s); cbn; (split; [lia | intros _; lia]).
  - unfold SetCorruptionPossible. cbn [mode]. split; [lia | discriminate].
Qed.

(** X2. The mode never moves back: over any sequence of calls it only goes
    from valid to invalid to error; and the state is still valid afterwards
    only if it was valid before and every call was [SetCorruptionPossible]. *)
Theorem mode_never_improves (os : list op) (s : CValidationState) :
  mode_rank (mode s) <= mode_rank (mode (apply_ops os s)) /\
  (IsValid (apply_ops os s) = true ->
   IsValid s = true /\ Forall (fun o => records_failure o = false) os).
Proof.
  revert s. induction os as [|o os IH]; intros s.
  - cbn. split; [lia | intros H; split; [exact H | constructor]].
  - rewrite apply_ops_cons. destruct (IH (apply_op o s)) as [IH1 IH2].
    destruct (mode_rank_apply_op o s) as [H1 H2]. split; [lia |].
    intros Hv. destruct (IH2 Hv) as [Hv' Hall].
    unfold IsValid in Hv' |- *. apply bool_decide_eq_true in Hv'.
    rewrite Hv' in H1, H2. cbn in H1, H2.
    destruct (records_failure o) eqn:Ho; [specialize (H2 eq_refl); lia |].
    split; [| constructor; [exact Ho | exact Hall]].
    apply bool_decide_eq_true. destruct (mode s); cbn in H1; [reflexivity | lia | lia].
Qed.

(** X3. [Error] on a state that already records a failure changes the mode
    and nothing else: its message is dropped, the reject reason of the
    earlier call stays. So after any call but [SetCorruptionPossible] a
    following [Error] keeps every diagnostic, and a second [Error] in a row
    changes nothing at all. On a valid state [Error] stores its message. *)
Theorem Error_keeps_first_failure (o : op) (m m' : string) (s : CValidationState) :
  let s1 := apply_op o s in
  let s2 := (Error m s1).2 in
  (Error m s1).1 = false /\
  IsError s2 = true /\
  GetDoS s2 = GetDoS s1 /\
  GetReason s2 = GetReason s1 /\
  GetRejectCode s2 = GetRejectCode s1 /\
  GetDebugMessage s2 = GetDebugMessage s1 /\
  CorruptionPossible s2 = CorruptionPossible s1 /\
  (records_failure o = true -> GetRejectReason s2 = GetRejectReason s1) /\
  (IsValid s1 = true -> GetRejectReason s2 = m) /\
  Error m' s2 = (false, s2).
Proof.
  cbv zeta. repeat apply conj; try reflexivity.
  - intros Ho. destruct (mode_rank_apply_op o s) as [_ H]. specialize (H Ho).
    unfold GetRejectReason, Error. cbn [snd strRejectReason].
    destruct (decide (mode (apply_op o s) = MODE_VALID)) as [E|E]; [| reflexivity].
    rewrite E in H. cbn in H. lia.
  - intros Hv. unfold IsValid in Hv. apply bool_decide_eq_true in Hv.
    unfold GetRejectReason, Error. cbn [snd strRejectReason].
    destruct (decide (mode (apply_op o s) = MODE_VALID)); [reflexivity | contradiction].
Qed.

End ValidationProps.

(* ===================================================================== *)
(** * Further properties of the kernel interface                           *)
(* ===================================================================== *)

Module KernelProps.
Import Kernel KernelSpec.

(** ** The recognised flag bits *)

Lemma testbit_above x i : 0 <= x < 2 ^ 32 -> 32 <= i -> Z.testbit x i = false.
Proof.
  intros Hx Hi. destruct (Z.eq_dec x 0) as [-> | Hne]; [apply Z.bits_0 |].
  apply Z.bits_above_log2; [lia |].
  assert (Z.log2 x < 32) by (apply Z.log2_lt_pow2; lia). lia.
Qed.

Lemma testbit_ALL i :
  0 <= i < 32 ->
  Z.testbit kernel_SCRIPT_FLAGS_VERIFY_ALL i = bool_decide (i ∈ recognised_bits).
Proof.
  intros Hi.
  assert (H : i = 0 \/ i = 1 \/ i = 2 \/ i = 3 \/ i = 4 \/ i = 5 \/ i = 6 \/ i = 7 \/
              i = 8 \/ i = 9 \/ i = 10 \/ i = 11 \/ i = 12 \/ i = 13 \/ i = 14 \/
              i = 15 \/ i = 16 \/ i = 17 \/ i = 18 \/ i = 19 \/ i = 20 \/ i = 21 \/
              i = 22 \/ i = 23 \/ i = 24 \/ i = 25 \/ i = 26 \/ i = 27 \/ i = 28 \/
              i = 29 \/ i = 30 \/ i = 31) by lia.
  repeat (destruct H as [-> | H]; [vm_compute; reflexivity |]).
  subst i. vm_compute; reflexivity.
Qed.

Lemma bit_not_ALL_range : 0 <= bit_not kernel_SCRIPT_FLAGS_VERIFY_ALL < 2 ^ 32.
Proof. vm_compute. split; [discriminate | reflexivity]. Qed.

(** [verify_flags] looks at the low 32 bits: each bit set there is a bit of
    [kernel_SCRIPT_FLAGS_VERIFY_ALL]. *)
Lemma verify_flags_testbit flags :
  verify_flags flags = true <->
  forall i, 0 <= i < 32 -> Z.testbit flags i = true ->
            Z.testbit kernel_SCRIPT_FLAGS_VERIFY_ALL i = true.
Proof.
  unfold verify_flags. rewrite Z.eqb_eq. split.
  - intros H i Hi Hb.
    assert (Hz : Z.testbit (Z.land flags (bit_not kernel_SCRIPT_FLAGS_VERIFY_ALL)) i = false)
      by (rewrite H; apply Z.bits_0).
    rewrite Z.land_spec, Hb, testbit_bit_not in Hz by exact Hi. cbn in Hz.
    destruct (Z.testbit kernel_SCRIPT_FLAGS_VERIFY_ALL i); [reflexivity | discriminate].
  - intros H. apply Z.bits_inj'. intros i Hi. rewrite Z.bits_0, Z.land_spec.
    destruct (Z_lt_le_dec i 32) as [Hlt | Hge].
    + rewrite testbit_bit_not by lia.
      destruct (Z.testbit flags i) eqn:Hb; [| reflexivity].
      rewrite (H i ltac:(lia) Hb). reflexivity.
    + rewrite (testbit_above _ i bit_not_ALL_range Hge). apply andb_false_r.
Qed.

(** X4. For a flag word of 32 bits, [verify_flags] accepts exactly the words
    whose set bits are all among the bit positions 0, 2, 4, 9, 10, 11 and 17
    of the seven flags the header exposes. *)
Theorem verify_flags_recognised (flags : Z) :
  0 <= flags < 2 ^ 32 ->
  (verify_flags flags = true <->
   forall i, Z.testbit flags i = true -> i ∈ recognised_bits).
Proof.
  intros Hr. rewrite verify_flags_testbit. split.
  - intros H i Hb.
    assert (Hi0 : 0 <= i).
    { destruct (Z_lt_le_dec i 0) as [Hn|]; [| assumption].
      rewrite Z.testbit_neg_r in Hb by exact Hn. discriminate. }
    assert (Hi32 : i < 32).
    { destruct (Z_lt_le_dec i 32) as [|Hge]; [assumption |].
      rewrite (testbit_above _ i Hr Hge) in Hb. discriminate. }
    specialize (H i ltac:(lia) Hb). rewrite testbit_ALL in H by lia.
    apply bool_decide_eq_true in H. exact H.
  - intros H i Hi Hb. rewrite testbit_ALL by exact Hi.
    apply bool_decide_eq_true. exact (H i Hb).
Qed.

Lemma verify_flags_recognised_witness :
  verify_flags (Z.lor kernel_SCRIPT_FLAGS_VERIFY_P2SH kernel_SCRIPT_FLAGS_VERIFY_WITNESS)
    = true <->
  forall i,
    Z.testbit (Z.lor kernel_SCRIPT_FLAGS_VERIFY_P2SH kernel_SCRIPT_FLAGS_VERIFY_WITNESS) i
      = true -> i ∈ recognised_bits.
Proof.
  apply (verify_flags_recognised
           (Z.lor kernel_SCRIPT_FLAGS_VERIFY_P2SH kernel_SCRIPT_FLAGS_VERIFY_WITNESS)).
  vm_compute. split; [discriminate | reflexivity].
Defined.

(** X5. A flag word composed with [|] is recognised exactly when both parts
    are; each of the seven named flags and the empty word are recognised. *)
Theorem verify_flags_lor (a b : Z) :
  verify_flags (Z.lor a b) = verify_flags a && verify_flags b /\
  verify_flags kernel_SCRIPT_FLAGS_VERIFY_NONE = true /\
  Forall (fun f => verify_flags f = true)
    [kernel_SCRIPT_FLAGS_VERIFY_P2SH; kernel_SCRIPT_FLAGS_VERIFY_DERSIG;
     kernel_SCRIPT_FLAGS_VERIFY_NULLDUMMY; kernel_SCRIPT_FLAGS_VERIFY_CHECKLOCKTIMEVERIFY;
     kernel_SCRIPT_FLAGS_VERIFY_CHECKSEQUENCEVERIFY; kernel_SCRIPT_FLAGS_VERIFY_WITNESS;
     kernel_SCRIPT_FLAGS_VERIFY_TAPROOT; kernel_SCRIPT_FLAGS_VERIFY_ALL].
Proof.
  split; [| split; [reflexivity | repeat constructor]].
  unfold verify_flags. rewrite Z.land_lor_distr_l.
  destruct (Z.eqb_spec (Z.land a (bit_not kernel_SCRIPT_FLAGS_VERIFY_ALL)) 0) as [Ha|Ha],
           (Z.eqb_spec (Z.land b (bit_not kernel_SCRIPT_FLAGS_VERIFY_ALL)) 0) as [Hb|Hb];
    cbn; rewrite ?Z.eqb_eq, ?Z.eqb_neq, Z.lor_eq_0_iff; tauto.
Qed.

(** The clean-stack bit is not set in a recognised flag word when it is none
    of the bits the header exposes. *)
Lemma recognised_lacks_cleanstack cleanstack flags :
  0 <= cleanstack < 2 ^ 32 ->
  Z.land cleanstack kernel_SCRIPT_FLAGS_VERIFY_ALL = 0 ->
  verify_flags flags = true ->
  has_bits flags cleanstack = false.
Proof.
  intros Hr Hd Hv. unfold has_bits.
  assert (Hz : Z.land flags cleanstack = 0); [| rewrite Hz; reflexivity].
  apply Z.bits_inj'. intros i Hi. rewrite Z.bits_0, Z.land_spec.
  destruct (Z_lt_le_dec i 32) as [Hlt | Hge].
  - destruct (Z.testbit flags i) eqn:Hb; [| reflexivity]. cbn.
    pose proof (proj1 (verify_flags_testbit flags) Hv i ltac:(lia) Hb) as Hall.
    assert (Hc : Z.testbit (Z.land cleanstack kernel_SCRIPT_FLAGS_VERIFY_ALL) i = false)
      by (rewrite Hd; apply Z.bits_0).
    rewrite Z.land_spec, Hall, andb_true_r in Hc. exact Hc.
  - rewrite (testbit_above _ i Hr Hge). apply andb_false_r.
Qed.

(** X6. When [SCRIPT_VERIFY_CLEANSTACK] is a 32-bit value that shares no bit
    with the flags the header exposes, the clean-stack test never fires on a
    recognised flag word: the combination is valid exactly when the witness
    flag comes with P2SH. *)
Theorem recognised_combination (cleanstack flags : Z) :
  0 <= cleanstack < 2 ^ 32 ->
  Z.land cleanstack kernel_SCRIPT_FLAGS_VERIFY_ALL = 0 ->
  verify_flags flags = true ->
  is_valid_flag_combination cleanstack flags =
    implb (has_bits flags kernel_SCRIPT_FLAGS_VERIFY_WITNESS)
          (has_bits flags kernel_SCRIPT_FLAGS_VERIFY_P2SH).
Proof.
  intros Hr Hd Hv. unfold is_valid_flag_combination.
  rewrite (recognised_lacks_cleanstack cleanstack flags Hr Hd Hv), lacks_P2SH.
  cbn [andb]. unfold SCRIPT_VERIFY_WITNESS, SCRIPT_VERIFY_P2SH.
  destruct (has_bits flags kernel_SCRIPT_FLAGS_VERIFY_WITNESS),
           (has_bits flags kernel_SCRIPT_FLAGS_VERIFY_P2SH); reflexivity.
Qed.

Lemma recognised_combination_witness :
  is_valid_flag_combination (Z.shiftl 1 8) kernel_SCRIPT_FLAGS_VERIFY_TAPROOT = true /\
  is_valid_flag_combination (Z.shiftl 1 8) kernel_SCRIPT_FLAGS_VERIFY_WITNESS = false.
Proof.
  split.
  - rewrite (recognised_combination (Z.shiftl 1 8) kernel_SCRIPT_FLAGS_VERIFY_TAPROOT);
      [reflexivity | vm_compute; split; [discriminate | reflexivity]
      | reflexivity | reflexivity].
  - rewrite (recognised_combination (Z.shiftl 1 8) kernel_SCRIPT_FLAGS_VERIFY_WITNESS);
      [reflexivity | vm_compute; split; [discriminate | reflexivity]
      | reflexivity | reflexivity].
Defined.

(** ** The outcome of [kernel_verify_script] *)

(** The cases of a call: the first failing pre-check, or the interpreter. *)
Lemma kernel_verify_script_cases cleanstack interp script_pubkey amount tx_to
    spent_outputs_ spent_outputs_len input_index flags status :
  0 <= input_index ->
  let r := kernel_verify_script cleanstack interp script_pubkey amount tx_to
             spent_outputs_ spent_outputs_len input_index flags status in
  (exists e, e <> kernel_SCRIPT_VERIFY_OK /\ r = fail_with status e /\
             ~ prechecks_pass cleanstack tx_to spent_outputs_ spent_outputs_len
                 input_index flags)
  \/
  (prechecks_pass cleanstack tx_to spent_outputs_ spent_outputs_len input_index flags /\
   exists call, r = {| ret := interp call; status_after := status;
                       interpreter_calls := [call] |}).
Proof.
  intros Hidx r. subst r. unfold kernel_verify_script.
  destruct (verify_flags flags) eqn:Hv; cbn [negb].
  2: { left. eexists. split; [| split; [reflexivity |]]; [discriminate |].
       intros (H & _). congruence. }
  destruct (is_valid_flag_combination cleanstack flags) eqn:Hc; cbn [negb].
  2: { left. eexists. split; [| split; [reflexivity |]]; [discriminate |].
       intros (_ & H & _). congruence. }
  destruct (has_bits flags kernel_SCRIPT_FLAGS_VERIFY_TAPROOT
            && bool_decide (spent_outputs_ = None)) eqn:Ht.
  { left. eexists. split; [| split; [reflexivity |]]; [discriminate |].
    apply andb_true_iff in Ht as [Ht1 Ht2]. apply bool_decide_eq_true in Ht2.
    intros (_ & _ & H & _). exact (H Ht1 Ht2). }
  destruct (match spent_outputs_ with
            | Some _ => negb (spent_outputs_len =? vsize (vin tx_to))
            | None => false
            end) eqn:Hl.
  { left. eexists. split; [| split; [reflexivity |]]; [discriminate |].
    intros (_ & _ & _ & H & _). destruct spent_outputs_ as [arr|]; [| discriminate].
    rewrite (H ltac:(discriminate)), Z.eqb_refl in Hl. discriminate. }
  destruct (vsize (vin tx_to) <=? input_index) eqn:Hi.
  { left. eexists. split; [| split; [reflexivity |]]; [discriminate |].
    apply Z.leb_le in Hi. intros (_ & _ & _ & _ & H). lia. }
  apply Z.leb_gt in Hi.
  assert (Hin : is_Some (vin_at tx_to input_index)).
  { unfold vin_at. apply lookup_lt_is_Some. unfold vsize in Hi. lia. }
  destruct Hin as [txin Htxin]. rewrite Htxin. right. split.
  - repeat apply conj; try reflexivity; try assumption; try lia.
    + intros Htap Hnone. rewrite Htap, Hnone in Ht. cbn in Ht. discriminate.
    + intros Hsome. destruct spent_outputs_ as [arr|]; [| contradiction].
      apply negb_false_iff, Z.eqb_eq in Hl. exact Hl.
  - eexists. reflexivity.
Qed.

(** With the pre-checks passed the interpreter decides. *)
Lemma kernel_verify_script_pass cleanstack interp script_pubkey amount tx_to
    spent_outputs_ spent_outputs_len input_index flags status :
  prechecks_pass cleanstack tx_to spent_outputs_ spent_outputs_len input_index flags ->
  exists call,
    kernel_verify_script cleanstack interp script_pubkey amount tx_to
      spent_outputs_ spent_outputs_len input_index flags status =
    {| ret := interp call; status_after := status; interpreter_calls := [call] |}.
Proof.
  intros Hp.
  assert (Hidx : 0 <= input_index) by (destruct Hp as (_ & _ & _ & _ & H); lia).
  destruct (kernel_verify_script_cases cleanstack interp script_pubkey amount tx_to
              spent_outputs_ spent_outputs_len input_index flags status Hidx)
    as [(e & _ & _ & Hn) | (_ & call & Hr)]; [contradiction |].
  exists call. exact Hr.
Qed.

(** X7. A call that returns true has passed all five pre-checks, has left
    the status slot as it was, and has run the interpreter exactly once, with
    a true verdict. *)
Theorem true_verdict_passed_prechecks cleanstack interp script_pubkey amount tx_to
    spent_outputs_ spent_outputs_len input_index flags status :
  0 <= input_index ->
  let r := kernel_verify_script cleanstack interp script_pubkey amount tx_to
             spent_outputs_ spent_outputs_len input_index flags status in
  ret r = true ->
  prechecks_pass cleanstack tx_to spent_outputs_ spent_outputs_len input_index flags /\
  status_after r = status /\
  exists call, interpreter_calls r = [call] /\ interp call = true.
Proof.
  intros Hidx r Hret.
  destruct (kernel_verify_script_cases cleanstack interp script_pubkey amount tx_to
              spent_outputs_ spent_outputs_len input_index flags status Hidx)
    as [(e & _ & Hr & _) | (Hp & call & Hr)]; fold r in Hr; rewrite Hr in Hret |- *.
  - discriminate Hret.
  - split; [exact Hp | split; [reflexivity |]]. exists call. split; [reflexivity | exact Hret].
Qed.

Lemma true_verdict_passed_prechecks_witness :
  let txin := {| prevout := {| hash := 7%N; n := 0%N |}; scriptSig := [];
                 scriptWitness := [] |} in
  let tx := {| GetHash := 1%N; vin := [txin]; IsCoinBase := false |} in
  prechecks_pass (Z.shiftl 1 8) tx None 0 0 kernel_SCRIPT_FLAGS_VERIFY_P2SH.
Proof.
  cbv zeta.
  refine (proj1 (true_verdict_passed_prechecks (Z.shiftl 1 8) (fun _ => true) [] 0
                   {| GetHash := 1%N;
                      vin := [{| prevout := {| hash := 7%N; n := 0%N |}; scriptSig := [];
                                 scriptWitness := [] |}];
                      IsCoinBase := false |}
                   None 0 0 kernel_SCRIPT_FLAGS_VERIFY_P2SH
                   (Some kernel_SCRIPT_VERIFY_OK) _ _)).
  - lia.
  - reflexivity.
Defined.

(** X8. The call never writes [kernel_SCRIPT_VERIFY_OK]: the status slot is
    either left as it was, or it holds an error code, and then false is
    returned and the interpreter was not run. The interpreter runs at most
    once. *)
Theorem status_is_never_set_to_OK cleanstack interp script_pubkey amount tx_to
    spent_outputs_ spent_outputs_len input_index flags status :
  let r := kernel_verify_script cleanstack interp script_pubkey amount tx_to
             spent_outputs_ spent_outputs_len input_index flags status in
  (status_after r = status \/
   (ret r = false /\ interpreter_calls r = [] /\
    exists e, e <> kernel_SCRIPT_VERIFY_OK /\ status_after r = Some e)) /\
  (interpreter_calls r <> [] -> status_after r = status) /\
  (length (interpreter_calls r) <= 1)%nat.
Proof.
  cbv zeta.
  assert (Hfail : forall e, e <> kernel_SCRIPT_VERIFY_OK ->
    let r := fail_with status e in
    (status_after r = status \/
     (ret r = false /\ interpreter_calls r = [] /\
      exists e, e <> kernel_SCRIPT_VERIFY_OK /\ status_after r = Some e)) /\
    (interpreter_calls r <> [] -> status_after r = status) /\
    (length (interpreter_calls r) <= 1)%nat).
  { intros e He. cbv zeta. unfold fail_with. cbn. repeat apply conj.
    - destruct status as [s|]; [right | left; reflexivity].
      repeat split. exists e. split; [exact He | reflexivity].
    - intros H. contradiction.
    - lia. }
  unfold kernel_verify_script.
  destruct (negb (verify_flags flags)); [apply Hfail; discriminate |].
  destruct (negb (is_valid_flag_combination cleanstack flags));
    [apply Hfail; discriminate |].
  destruct (has_bits flags kernel_SCRIPT_FLAGS_VERIFY_TAPROOT
            && bool_decide (spent_outputs_ = None)); [apply Hfail; discriminate |].
  destruct (match spent_outputs_ with
            | Some _ => negb (spent_outputs_len =? vsize (vin tx_to))
            | None => false
            end); [apply Hfail; discriminate |].
  destruct (vsize (vin tx_to) <=? input_index); [apply Hfail; discriminate |].
  destruct (vin_at tx_to input_index); [| apply Hfail; discriminate].
  cbn. repeat apply conj; [left; reflexivity | reflexivity | lia].
Qed.

(** X9. With the two flag pre-checks passed: a taproot flag without spent
    outputs is answered spent-outputs-required; spent outputs whose number
    differs from the number of inputs are answered spent-outputs-mismatch,
    also when the input index is out of range; an input index at or past the
    number of inputs is answered tx-input-index once the spent outputs are
    in order. Each time false is returned and the interpreter is not run. *)
Theorem spent_outputs_and_index_prechecks cleanstack interp script_pubkey amount tx_to
    spent_outputs_ spent_outputs_len input_index flags status :
  verify_flags flags = true ->
  is_valid_flag_combination cleanstack flags = true ->
  let r := kernel_verify_script cleanstack interp script_pubkey amount tx_to
             spent_outputs_ spent_outputs_len input_index flags status in
  (has_bits flags kernel_SCRIPT_FLAGS_VERIFY_TAPROOT = true -> spent_outputs_ = None ->
   r = fail_with status kernel_SCRIPT_VERIFY_ERROR_SPENT_OUTPUTS_REQUIRED)
  /\
  (spent_outputs_ <> None -> spent_outputs_len <> vsize (vin tx_to) ->
   r = fail_with status kernel_SCRIPT_VERIFY_ERROR_SPENT_OUTPUTS_MISMATCH)
  /\
  ((has_bits flags kernel_SCRIPT_FLAGS_VERIFY_TAPROOT = true -> spent_outputs_ <> None) ->
   (spent_outputs_ <> None -> spent_outputs_len = vsize (vin tx_to)) ->
   vsize (vin tx_to) <= input_index ->
   r = fail_with status kernel_SCRIPT_VERIFY_ERROR_TX_INPUT_INDEX).
Proof.
  intros Hv Hc r. subst r. unfold kernel_verify_script. rewrite Hv, Hc. cbn [negb].
  repeat apply conj.
  - intros Ht ->. rewrite Ht. reflexivity.
  - intros Hs Hl. destruct spent_outputs_ as [arr|]; [| contradiction].
    rewrite bool_decide_eq_false_2 by discriminate. rewrite andb_false_r.
    apply Z.eqb_neq in Hl. rewrite Hl. reflexivity.
  - intros Ht Hl Hi.
    assert (Htap : has_bits flags kernel_SCRIPT_FLAGS_VERIFY_TAPROOT
                   && bool_decide (spent_outputs_ = None) = false).
    { destruct (has_bits flags kernel_SCRIPT_FLAGS_VERIFY_TAPROOT); [| reflexivity].
      cbn. apply bool_decide_eq_false. apply Ht. reflexivity. }
    rewrite Htap.
    assert (Hlen : match spent_outputs_ with
                   | Some _ => negb (spent_outputs_len =? vsize (vin tx_to))
                   | None => false
                   end = false).
    { destruct spent_outputs_ as [arr|]; [| reflexivity].
      rewrite (Hl ltac:(discriminate)), Z.eqb_refl. reflexivity. }
    rewrite Hlen. apply Z.leb_le in Hi. rewrite Hi. reflexivity.
Qed.

Lemma spent_outputs_and_index_prechecks_witness :
  let tx := {| GetHash := 1%N; vin := [ {| prevout := {| hash := 7%N; n := 0%N |};
                                           scriptSig := []; scriptWitness := [] |} ];
               IsCoinBase := false |} in
  kernel_verify_script (Z.shiftl 1 8) (fun _ => true) [] 0 tx (Some []) 0 5
    kernel_SCRIPT_FLAGS_VERIFY_NONE (Some kernel_SCRIPT_VERIFY_OK)
  = fail_with (Some kernel_SCRIPT_VERIFY_OK)
      kernel_SCRIPT_VERIFY_ERROR_SPENT_OUTPUTS_MISMATCH.
Proof.
  cbv zeta.
  refine (proj1 (proj2 (spent_outputs_and_index_prechecks (Z.shiftl 1 8) (fun _ => true)
            [] 0 _ (Some []) 0 5 kernel_SCRIPT_FLAGS_VERIFY_NONE
            (Some kernel_SCRIPT_VERIFY_OK) _ _)) _ _).
  - reflexivity.
  - reflexivity.
  - discriminate.
  - vm_compute. discriminate.
Defined.

(** ** The wrapper *)

(** X10. Through the wrapper, with the flag pre-checks passed and an empty
    span of spent outputs: with the taproot flag the call returns 0 with
    status spent-outputs-required, whatever the transaction; without it the
    number of spent outputs is not compared with the number of inputs, so an
    input index in range reaches the interpreter and leaves the status as it
    was. *)
Theorem wrapper_empty_span cleanstack interp script_pubkey amount tx_to
    input_index flags status :
  verify_flags flags = true ->
  is_valid_flag_combination cleanstack flags = true ->
  let r := verify_script cleanstack interp script_pubkey amount tx_to []
             input_index flags status in
  (has_bits flags kernel_SCRIPT_FLAGS_VERIFY_TAPROOT = true ->
   r = {| wrapper_ret := 0;
          wrapper_status := kernel_SCRIPT_VERIFY_ERROR_SPENT_OUTPUTS_REQUIRED;
          wrapper_interpreter_calls := [] |})
  /\
  (has_bits flags kernel_SCRIPT_FLAGS_VERIFY_TAPROOT = false ->
   0 <= input_index < vsize (vin tx_to) ->
   wrapper_status r = status /\
   exists call, wrapper_interpreter_calls r = [call] /\
                wrapper_ret r = if interp call then 1 else 0).
Proof.
  intros Hv Hc r. subst r. unfold verify_script.
  change (vsize (@nil CTxOut)) with 0. cbn [Z.ltb Z.compare].
  split.
  - intros Ht.
    rewrite (proj1 (spent_outputs_and_index_prechecks cleanstack interp script_pubkey
                      amount tx_to None 0 input_index flags (Some status) Hv Hc)
               Ht eq_refl).
    reflexivity.
  - intros Ht Hi.
    destruct (kernel_verify_script_pass cleanstack interp script_pubkey amount tx_to
                None 0 input_index flags (Some status)) as (call & Hr).
    { repeat apply conj; try assumption; try lia.
      - intros H. rewrite H in Ht. discriminate.
      - intros H. contradiction. }
    rewrite Hr. cbn. split; [reflexivity |]. exists call. split; reflexivity.
Qed.

Lemma wrapper_empty_span_witness :
  verify_script (Z.shiftl 1 8) (fun _ => true) [] 0 ex_tx_one_input [] 0
    kernel_SCRIPT_FLAGS_VERIFY_TAPROOT kernel_SCRIPT_VERIFY_OK
  = {| wrapper_ret := 0;
       wrapper_status := kernel_SCRIPT_VERIFY_ERROR_SPENT_OUTPUTS_REQUIRED;
       wrapper_interpreter_calls := [] |}.
Proof.
  refine (proj1 (wrapper_empty_span (Z.shiftl 1 8) (fun _ => true) [] 0
                   ex_tx_one_input 0 kernel_SCRIPT_FLAGS_VERIFY_TAPROOT
                   kernel_SCRIPT_VERIFY_OK _ _) _); reflexivity.
Defined.

(** X11. With the status variable initialised to [kernel_SCRIPT_VERIFY_OK],
    the wrapper's caller can tell the failures apart: the result is 0 or 1;
    the status is still OK exactly when the interpreter was run (once), and
    then the result is its verdict; a status other than OK comes with the
    result 0 and no interpreter run. *)
Theorem wrapper_status_tells_failure cleanstack interp script_pubkey amount tx_to
    spent_outputs input_index flags :
  let r := verify_script cleanstack interp script_pubkey amount tx_to spent_outputs
             input_index flags kernel_SCRIPT_VERIFY_OK in
  (wrapper_ret r = 0 \/ wrapper_ret r = 1) /\
  (wrapper_status r = kernel_SCRIPT_VERIFY_OK <->
   exists call, wrapper_interpreter_calls r = [call] /\
                wrapper_ret r = if interp call then 1 else 0) /\
  (wrapper_status r <> kernel_SCRIPT_VERIFY_OK ->
   wrapper_ret r = 0 /\ wrapper_interpreter_calls r = []).
Proof.
  cbv zeta. unfold verify_script.
  set (ptr := if 0 <? vsize spent_outputs then Some spent_outputs else None).
  assert (Hfail : forall e, e <> kernel_SCRIPT_VERIFY_OK ->
    let k := fail_with (Some kernel_SCRIPT_VERIFY_OK) e in
    let r := {| wrapper_ret := if ret k then 1 else 0;
                wrapper_status := match status_after k with
                                  | Some st => st
                                  | None => kernel_SCRIPT_VERIFY_OK
                                  end;
                wrapper_interpreter_calls := interpreter_calls k |} in
    (wrapper_ret r = 0 \/ wrapper_ret r = 1) /\
    (wrapper_status r = kernel_SCRIPT_VERIFY_OK <->
     exists call, wrapper_interpreter_calls r = [call] /\
                  wrapper_ret r = if interp call then 1 else 0) /\
    (wrapper_status r <> kernel_SCRIPT_VERIFY_OK ->
     wrapper_ret r = 0 /\ wrapper_interpreter_calls r = [])).
  { intros e He. cbn. split; [left; reflexivity | split].
    - split; [intros H; contradiction | intros (call & H & _); discriminate].
    - intros _. split; reflexivity. }
  unfold kernel_verify_script.
  destruct (negb (verify_flags flags)); [apply Hfail; discriminate |].
  destruct (negb (is_valid_flag_combination cleanstack flags));
    [apply Hfail; discriminate |].
  destruct (has_bits flags kernel_SCRIPT_FLAGS_VERIFY_TAPROOT
            && bool_decide (ptr = None)); [apply Hfail; discriminate |].
  destruct (match ptr with
            | Some _ => negb (vsize spent_outputs =? vsize (vin tx_to))
            | None => false
            end); [apply Hfail; discriminate |].
  destruct (vsize (vin tx_to) <=? input_index); [apply Hfail; discriminate |].
  destruct (vin_at tx_to input_index) as [txin|]; [| apply Hfail; discriminate].
  cbn. split; [destruct (interp _); [right | left]; reflexivity | split].
  - split; [intros _; eexists; split; reflexivity | reflexivity].
  - intros H. contradiction.
Qed.

(** ** [TxInputStream::read] *)

Lemma vsize_take_le {A} (l : list A) k :
  0 <= k <= vsize l -> vsize (take (Z.to_nat k) l) = k.
Proof. unfold vsize. intros H. rewrite length_take. lia. Qed.

Lemma vsize_drop_le {A} (l : list A) k :
  0 <= k <= vsize l -> vsize (drop (Z.to_nat k) l) = vsize l - k.
Proof. unfold vsize. intros H. rewrite length_drop. lia. Qed.

(** X12. On a stream that keeps its contract, [read] of [dst_size] bytes
    succeeds exactly when that many bytes remain and neither buffer is null
    (this also holds for a read of no bytes); it then copies exactly
    [dst_size] bytes, the next bytes of the buffer, takes them off the stream
    and leaves a stream that keeps the contract. The three failures are
    tested in the order: end of data, destination, source. *)
Theorem read_spec (dst_data_null : bool) (dst_size : Z) (s : TxInputStream) :
  stream_ok s -> 0 <= dst_size ->
  match read dst_data_null dst_size s with
  | ReadOk bytes s' =>
      dst_size <= m_remaining s /\ dst_data_null = false /\
      vsize bytes = dst_size /\
      m_remaining s' = m_remaining s - dst_size /\
      stream_ok s' /\
      exists data rest, m_data s = Some data /\ m_data s' = Some rest /\
                        data = bytes ++ rest
  | ReadFailure what =>
      what = (if m_remaining s <? dst_size then "read: end of data"%string
              else if dst_data_null then "read: bad destination buffer"%string
              else "read: bad source buffer"%string) /\
      (m_remaining s < dst_size \/ dst_data_null = true \/ m_data s = None)
  end.
Proof.
  intros [Hr Hd] Hn. unfold read.
  destruct (Z.ltb_spec (m_remaining s) dst_size) as [Hlt | Hge].
  { split; [reflexivity | left; exact Hlt]. }
  destruct dst_data_null.
  { split; [reflexivity | right; left; reflexivity]. }
  destruct (m_data s) as [data|] eqn:Hdata.
  2: { split; [reflexivity | right; right; reflexivity]. }
  cbn [m_remaining m_data].
  split; [lia | split; [reflexivity | split; [| split; [reflexivity | split]]]].
  - apply vsize_take_le. lia.
  - unfold stream_ok. cbn [m_remaining m_data]. rewrite vsize_drop_le by lia. lia.
  - exists data, (drop (Z.to_nat dst_size) data).
    split; [reflexivity | split; [reflexivity |]]. symmetry. apply take_drop.
Qed.

Lemma read_spec_witness :
  match read false 2 (TxInputStream_new (Some [Byte.x01; Byte.x02; Byte.x03]) 3) with
  | ReadOk bytes s' =>
      bytes = [Byte.x01; Byte.x02] /\ m_data s' = Some [Byte.x03] /\ m_remaining s' = 1
  | ReadFailure _ => False
  end /\
  match read false 0 (TxInputStream_new None 0) with
  | ReadOk _ _ => False
  | ReadFailure what => what = "read: bad source buffer"%string
  end.
Proof.
  split.
  - pose proof (read_spec false 2
                  (TxInputStream_new (Some [Byte.x01; Byte.x02; Byte.x03]) 3)) as H.
    destruct (read false 2 (TxInputStream_new (Some [Byte.x01; Byte.x02; Byte.x03]) 3))
      as [bytes s'|what] eqn:E.
    + destruct H as (_ & _ & _ & Hrem & _ & data & rest & Hd & Hd' & Heq).
      * vm_compute. split; discriminate.
      * lia.
      * vm_compute in E. injection E as <- <-. repeat split.
    + vm_compute in E. discriminate E.
  - pose proof (read_spec false 0 (TxInputStream_new None 0)) as H.
    destruct (read false 0 (TxInputStream_new None 0)) as [bytes s'|what] eqn:E.
    + destruct H as (_ & _ & _ & _ & _ & data & rest & Hd & _).
      * vm_compute. split; [discriminate | exact I].
      * lia.
      * discriminate Hd.
    + destruct H as [-> _].
      * vm_compute. split; [discriminate | exact I].
      * lia.
      * reflexivity.
Defined.

(** X13. Reads compose: on a stream that keeps its contract, two reads of
    [a] and [b] bytes in a row succeed exactly when one read of [a + b]
    bytes does, and then they deliver the same bytes, in order, and leave
    the same stream. *)
Theorem read_read (a b : Z) (s : TxInputStream) :
  stream_ok s -> 0 <= a -> 0 <= b ->
  forall bytes s2,
    read false (a + b) s = ReadOk bytes s2 <->
    exists bytes1 s1 bytes2,
      read false a s = ReadOk bytes1 s1 /\
      read false b s1 = ReadOk bytes2 s2 /\
      bytes = bytes1 ++ bytes2.
Proof.
  intros [Hr Hd] Ha Hb bytes s2. unfold read.
  destruct (m_data s) as [data|] eqn:Hdata.
  2: { split.
       - intros H. destruct (m_remaining s <? a + b); discriminate.
       - intros (b1 & s1 & b2 & H & _). destruct (m_remaining s <? a); discriminate. }
  assert (Hsplit : take (Z.to_nat (a + b)) data =
                   take (Z.to_nat a) data ++ take (Z.to_nat b) (drop (Z.to_nat a) data)).
  { rewrite Z2Nat.inj_add by lia. symmetry. apply take_take_drop. }
  assert (Hdrop : drop (Z.to_nat (a + b)) data =
                  drop (Z.to_nat b) (drop (Z.to_nat a) data)).
  { rewrite Z2Nat.inj_add by lia. rewrite drop_drop. reflexivity. }
  split.
  - intros H.
    destruct (Z.ltb_spec (m_remaining s) (a + b)) as [Hlt | Hge]; [discriminate |].
    injection H as <- <-.
    destruct (Z.ltb_spec (m_remaining s) a) as [Hlt' | _]; [lia |].
    eexists _, _, _. split; [reflexivity |]. cbn [m_remaining m_data].
    destruct (Z.ltb_spec (m_remaining s - a) b) as [Hlt' | _]; [lia |].
    split; [| exact Hsplit].
    rewrite Hdrop. f_equal. f_equal. lia.
  - intros (b1 & s1 & b2 & H1 & H2 & ->).
    destruct (Z.ltb_spec (m_remaining s) a) as [Hlt | Hge]; [discriminate |].
    injection H1 as <- <-. cbn [m_remaining m_data] in H2.
    destruct (Z.ltb_spec (m_remaining s - a) b) as [Hlt | Hge']; [discriminate |].
    injection H2 as <- <-.
    destruct (Z.ltb_spec (m_remaining s) (a + b)) as [Hlt | _]; [lia |].
    rewrite Hsplit, Hdrop. f_equal. f_equal. lia.
Qed.

Lemma read_read_witness :
  exists bytes1 s1 bytes2,
    read false 1 (TxInputStream_new (Some [Byte.x01; Byte.x02; Byte.x03]) 3)
      = ReadOk bytes1 s1 /\
    read false 2 s1
      = ReadOk bytes2 {| m_data := Some []; m_remaining := 0 |} /\
    [Byte.x01; Byte.x02; Byte.x03] = bytes1 ++ bytes2.
Proof.
  apply (read_read 1 2 (TxInputStream_new (Some [Byte.x01; Byte.x02; Byte.x03]) 3)).
  - vm_compute. split; discriminate.
  - lia.
  - lia.
  - reflexivity.
Defined.

(** ** Logging options *)

(** X14. The logger is addressed unambiguously: two calls of
    [kernel_add_log_level_category] reach the logger with the same member
    function and strings only when category and level are the same; the
    catch-all category sets the global level and never reaches
    [SetCategoryLogLevel]; and enabling or disabling distinct categories
    names distinct logger categories. *)
Theorem log_options_are_distinct (c1 c2 : kernel_LogCategory) (l1 l2 : kernel_LogLevel) :
  (kernel_add_log_level_category c1 l1 = kernel_add_log_level_category c2 l2 <->
   c1 = c2 /\ l1 = l2) /\
  (kernel_add_log_level_category kernel_LOG_ALL l1 = SetLogLevel (log_level_to_string l1)) /\
  (forall category level,
     kernel_add_log_level_category c1 l1 = SetCategoryLogLevel category level ->
     c1 <> kernel_LOG_ALL /\ category <> "all"%string) /\
  (kernel_enable_log_category c1 = kernel_enable_log_category c2 <-> c1 = c2) /\
  (kernel_disable_log_category c1 = kernel_disable_log_category c2 <-> c1 = c2).
Proof.
  split; [| split; [reflexivity | split; [| split]]].
  - split; [| intros [-> ->]; reflexivity].
    destruct c1, c2, l1, l2; cbn; intros H; try discriminate H; split; reflexivity.
  - intros category level H.
    destruct c1; cbn in H; try discriminate H; injection H as <- _;
      split; discriminate.
  - split; [| intros ->; reflexivity].
    destruct c1, c2; cbn; intros H; try discriminate H; reflexivity.
  - split; [| intros ->; reflexivity].
    destruct c1, c2; cbn; intros H; try discriminate H; reflexivity.
Qed.

End KernelProps.

(* ===================================================================== *)
(** * Further properties of the input fetcher                              *)
(* ===================================================================== *)

Module FetcherProps.
Import Fetcher FetcherSpec.

(** ** The batches of the scan *)

Lemma scan_inputs_batches c bs txids ins :
  1 <= bs -> forall buffer adds,
  vsize buffer < bs -> Forall (fun b => vsize b = bs) adds ->
  vsize (scan_inputs c bs txids ins buffer adds).1 < bs /\
  Forall (fun b => vsize b = bs) (scan_inputs c bs txids ins buffer adds).2.
Proof.
  intros Hbs. induction ins as [|txin ins IH]; intros buffer adds Hb Ha; cbn [scan_inputs].
  - split; assumption.
  - destruct (decide (hash (prevout txin) ∈ txids)); [apply IH; assumption |].
    destruct (HaveCoinInCache c (prevout txin)); [apply IH; assumption |].
    destruct (decide (vsize (buffer ++ [prevout txin]) = bs)) as [E|E].
    + apply IH.
      * change (vsize (@nil COutPoint)) with 0. lia.
      * apply Forall_app. split; [assumption | constructor; [exact E | constructor]].
    + apply IH; [| assumption].
      rewrite vsize_app in E |- *. change (vsize [prevout txin]) with 1 in E |- *. lia.
Qed.

Lemma scan_txs_batches c bs txs :
  1 <= bs -> forall txids buffer adds,
  vsize buffer < bs -> Forall (fun b => vsize b = bs) adds ->
  vsize (scan_txs c bs txs txids buffer adds).1 < bs /\
  Forall (fun b => vsize b = bs) (scan_txs c bs txs txids buffer adds).2.
Proof.
  intros Hbs. induction txs as [|tx txs IH]; intros txids buffer adds Hb Ha; cbn [scan_txs].
  - split; assumption.
  - destruct (IsCoinBase tx); [apply IH; assumption |].
    destruct (scan_inputs_batches c bs txids (vin tx) Hbs buffer adds Hb Ha) as [H1 H2].
    destruct (scan_inputs c bs txids (vin tx) buffer adds) as [buffer' adds'].
    apply IH; assumption.
Qed.

Lemma scan_inputs_no_flush c bs txids ins :
  bs <= 0 -> forall buffer adds,
  (scan_inputs c bs txids ins buffer adds).2 = adds.
Proof.
  intros Hbs. induction ins as [|txin ins IH]; intros buffer adds; cbn [scan_inputs].
  - reflexivity.
  - destruct (decide (hash (prevout txin) ∈ txids)); [apply IH |].
    destruct (HaveCoinInCache c (prevout txin)); [apply IH |].
    destruct (decide (vsize (buffer ++ [prevout txin]) = bs)) as [E|E]; [| apply IH].
    rewrite vsize_app in E. change (vsize [prevout txin]) with 1 in E.
    pose proof (vsize_nonneg buffer). lia.
Qed.

Lemma scan_txs_no_flush c bs txs :
  bs <= 0 -> forall txids buffer adds,
  (scan_txs c bs txs txids buffer adds).2 = adds.
Proof.
  intros Hbs. induction txs as [|tx txs IH]; intros txids buffer adds; cbn [scan_txs].
  - reflexivity.
  - destruct (IsCoinBase tx); [apply IH |].
    pose proof (scan_inputs_no_flush c bs txids (vin tx) Hbs buffer adds) as H.
    destruct (scan_inputs c bs txids (vin tx) buffer adds) as [buffer' adds'].
    cbn in H. subst adds'. apply IH.
Qed.

(** The [Add] calls of a scan with a batch size of at least 1. *)
Lemma FetchInputs_scan_batches c bs block :
  1 <= bs ->
  exists adds buffer,
    FetchInputs_scan c bs block = adds ++ [buffer] /\
    Forall (fun b => vsize b = bs) adds /\
    vsize buffer < bs.
Proof.
  intros Hbs. unfold FetchInputs_scan.
  destruct (scan_txs_batches c bs (vtx block) Hbs ∅ [] []) as [H1 H2];
    [change (vsize (@nil COutPoint)) with 0; lia | constructor |].
  destruct (scan_txs c bs (vtx block) ∅ [] []) as [buffer adds].
  exists adds, buffer. repeat split; assumption.
Qed.


(** X15. With a batch size of at least 1 the scan hands its outpoints to
    [Add] in full batches: every call but the last passes exactly
    [batch_size] outpoints, and the last call, the flush after the loop,
    passes fewer (none when the number of outpoints is a multiple of the
    batch size). *)
Theorem scan_batches_are_full (c : gmap COutPoint CCoinsCacheEntry) (batch_size : Z)
    (block : CBlock) :
  1 <= batch_size ->
  exists adds buffer,
    FetchInputs_scan c batch_size block = adds ++ [buffer] /\
    Forall (fun b => vsize b = batch_size) adds /\
    vsize buffer < batch_size /\
    fetch_targets c batch_size block = concat adds ++ buffer.
Proof.
  intros Hbs.
  destruct (FetchInputs_scan_batches c batch_size block Hbs) as (adds & buffer & H1 & H2 & H3).
  exists adds, buffer. repeat split; try assumption.
  unfold fetch_targets. rewrite H1, concat_app. cbn. rewrite app_nil_r. reflexivity.
Qed.

Lemma scan_batches_are_full_witness :
  exists adds buffer,
    FetchInputs_scan ∅ 2 ex_block_3 = adds ++ [buffer] /\
    Forall (fun b => vsize b = 2) adds /\
    vsize buffer < 2 /\
    fetch_targets ∅ 2 ex_block_3 = concat adds ++ buffer.
Proof. apply (scan_batches_are_full ∅ 2 ex_block_3). lia. Defined.

(** X16. With batch size 0 the buffer never reaches the batch size, so the
    scan makes a single [Add] call, the flush after the loop, with all the
    outpoints. *)
Theorem batch_size_zero_single_add (c : gmap COutPoint CCoinsCacheEntry)
    (batch_size : Z) (block : CBlock) :
  batch_size <= 0 ->
  FetchInputs_scan c batch_size block = [fetch_targets c batch_size block].
Proof.
  intros Hbs. unfold fetch_targets, FetchInputs_scan.
  pose proof (scan_txs_no_flush c batch_size (vtx block) Hbs ∅ [] []) as Hadds.
  destruct (scan_txs c batch_size (vtx block) ∅ [] []) as [buffer adds].
  cbn [snd] in Hadds. subst adds. cbn [app concat]. rewrite app_nil_r. reflexivity.
Qed.

Lemma batch_size_zero_single_add_witness :
  FetchInputs_scan ∅ 0 ex_block_3 = [fetch_targets ∅ 0 ex_block_3].
Proof. apply (batch_size_zero_single_add ∅ 0 ex_block_3). lia. Defined.

(** ** The outpoints of a call *)

Lemma vsize_filter_le {A} (P : A -> Prop) `{!forall x, Decision (P x)} (l : list A) :
  vsize (filter P l) <= vsize l.
Proof. unfold vsize. pose proof (length_filter P l). lia. Qed.

Lemma wanted_inputs_le c txids ins : vsize (wanted_inputs c txids ins) <= vsize ins.
Proof.
  unfold wanted_inputs.
  etransitivity; [apply vsize_filter_le |]. unfold vsize. rewrite length_fmap. lia.
Qed.

Lemma wanted_txs_le c txs : forall txids,
  vsize (wanted_txs c txids txs) <=
  foldr (fun tx acc => (if IsCoinBase tx then 0 else vsize (vin tx)) + acc) 0 txs.
Proof.
  induction txs as [|tx txs IH]; intros txids; cbn [wanted_txs foldr].
  - change (vsize (@nil COutPoint)) with 0. lia.
  - destruct (IsCoinBase tx); [specialize (IH txids); lia |].
    rewrite vsize_app. pose proof (wanted_inputs_le c txids (vin tx)).
    specialize (IH ({[GetHash tx]} ∪ txids)). lia.
Qed.

(** X17. The outpoints a call queues, and their order, do not depend on the
    batch size; there are at most as many as the non-coinbase transactions
    of the block have inputs. *)
Theorem targets_independent_of_batch_size (c : gmap COutPoint CCoinsCacheEntry)
    (bs1 bs2 : Z) (block : CBlock) :
  fetch_targets c bs1 block = fetch_targets c bs2 block /\
  0 <= vsize (fetch_targets c bs1 block) <= input_count block.
Proof.
  rewrite !fetch_targets_wanted. split; [reflexivity |].
  split; [apply vsize_nonneg | apply wanted_txs_le].
Qed.

(** ** [Add] *)


Lemma Add_Add b1 b2 s : Add b2 (Add b1 s) = Add (b1 ++ b2) s.
Proof.
  destruct b1 as [|o1 b1]; [reflexivity |].
  destruct b2 as [|o2 b2]; [rewrite app_nil_r; reflexivity |].
  unfold Add.
  destruct (decide (o1 :: b1 = [])) as [E|_]; [discriminate |].
  destruct (decide (o2 :: b2 = [])) as [E|_]; [discriminate |].
  destruct (decide ((o1 :: b1) ++ o2 :: b2 = [])) as [E|_]; [discriminate |].
  cbn [m_outpoints m_pairs m_in_flight_fetches_count m_request_stop]. f_equal.
  - destruct (decide (m_outpoints s = [])) as [Hq|Hq].
    + destruct (decide (o1 :: b1 = [])); [discriminate | reflexivity].
    + destruct (decide (m_outpoints s ++ o1 :: b1 = [])) as [E|_].
      * apply app_eq_nil in E as [_ E]. discriminate.
      * rewrite app_assoc. reflexivity.
  - unfold size_t_wrap. rewrite vsize_app, Zplus_mod_idemp_l. f_equal. lia.
Qed.

(** X18. Two [Add] calls in a row leave the shared state as one [Add] of
    the concatenated batch does, counter included; so once the scan has made
    all its calls, and no worker has taken the mutex in between, the shared
    state is the one a single [Add] of all the outpoints gives, whatever the
    batch size. *)
Theorem Add_composes (b1 b2 : list COutPoint) (s : shared)
    (c : gmap COutPoint CCoinsCacheEntry) (batch_size : Z) (block : CBlock) :
  Add b2 (Add b1 s) = Add (b1 ++ b2) s /\
  foldl (fun s b => Add b s) s (FetchInputs_scan c batch_size block) =
    Add (fetch_targets c batch_size block) s.
Proof.
  split; [apply Add_Add |].
  unfold fetch_targets. generalize (FetchInputs_scan c batch_size block) as batches.
  intros batches. revert s.
  induction batches as [|b batches IH]; intros s; cbn [foldl concat].
  - reflexivity.
  - rewrite IH. apply Add_Add.
Qed.

(** ** A call with nothing to fetch *)




(** ** A fetcher without worker threads *)

Lemma no_threads_step db bs targets a st st' :
  m_worker_threads st = [] ->
  m_outpoints (guarded st) ++ pending_adds (main st) = targets ->
  step db bs a st = Some st' ->
  m_worker_threads st' = [] /\
  m_outpoints (guarded st') ++ pending_adds (main st') = targets.
Proof.
  intros Hws Hq Hstep. destruct a as [i | i | |].
  - cbn in Hstep. rewrite Hws in Hstep. discriminate.
  - cbn in Hstep. rewrite Hws in Hstep. discriminate.
  - apply step_MainStep_inv in Hstep as [Hws' Hm]. split; [congruence |].
    destruct Hm as [batch adds Hm Hg Hpa _ _ _ | Hm Hg Hm' _ | Hm Hg Hm' _ _
                   | Hm Hg Hm' _ | Hm _ Hm' Hg _ _ _ _ | ps Hm Hg Hm' _].
    + rewrite Hg, Hpa, Add_queue. rewrite Hm in Hq. cbn in Hq.
      rewrite <- app_assoc. exact Hq.
    + rewrite Hg, Hm'. rewrite Hm in Hq. exact Hq.
    + rewrite Hg, Hm'. destruct Hm as [Hm | Hm]; rewrite Hm in Hq; exact Hq.
    + rewrite Hg, Hm'. destruct Hm as [Hm | Hm]; rewrite Hm in Hq; exact Hq.
    + rewrite Hg, Hm'. destruct Hm as [Hm | Hm]; rewrite Hm in Hq; exact Hq.
    + rewrite Hg, Hm'. rewrite Hm in Hq. exact Hq.
  - cbn in Hstep. injection Hstep as <-. cbn. split; assumption.
Qed.

Lemma no_threads_run db bs targets sched : forall st st',
  m_worker_threads st = [] ->
  m_outpoints (guarded st) ++ pending_adds (main st) = targets ->
  run db bs sched st = Some st' ->
  m_worker_threads st' = [] /\
  m_outpoints (guarded st') ++ pending_adds (main st') = targets.
Proof.
  induction sched as [|a sched IH]; intros st st' Hws Hq Hrun; cbn [run] in Hrun.
  - injection Hrun as <-. split; assumption.
  - destruct (step db bs a st) as [st1|] eqn:Hstep; [| discriminate].
    destruct (no_threads_step db bs targets a st st1 Hws Hq Hstep) as [Hws1 Hq1].
    exact (IH st1 st' Hws1 Hq1 Hrun).
Qed.

(** X20. A fetcher without worker threads ([HasThreads] false) never
    completes a call that has something to fetch: under no schedule does
    [FetchInputs] return without a stop request. *)
Theorem no_threads_never_returns (db : gmap COutPoint Coin) (f : shared * list worker)
    (batch_size : Z) (c : gmap COutPoint CCoinsCacheEntry) (block : CBlock)
    (sched : list action) (st : state) :
  idle f = true ->
  HasThreads f = false ->
  fetch_targets c batch_size block <> [] ->
  vsize (fetch_targets c batch_size block) < SIZE_MAX_plus_1 ->
  run db batch_size sched (FetchInputs_enter f batch_size c block) = Some st ->
  ~ returned st.
Proof.
  intros Hidle Hno Hsome Hfit Hrun Hret.
  assert (Hws : f.2 = []).
  { unfold HasThreads in Hno. apply negb_false_iff, bool_decide_eq_true in Hno. exact Hno. }
  pose proof (proj1 (idle_spec f) Hidle) as (Hq & _).
  destruct (no_threads_run db batch_size (fetch_targets c batch_size block) sched
              (FetchInputs_enter f batch_size c block) st) as [Hws' Hq'].
  { exact Hws. }
  { cbn. rewrite Hq. reflexivity. }
  { exact Hrun. }
  pose proof (run_count_inv db f batch_size c block sched st Hidle Hfit Hrun) as Hc.
  pose proof (run_returned_inv db f batch_size c block sched st Hidle Hfit Hrun Hret)
    as [Hz _].
  pose proof (count_eq _ _ _ Hc) as Heq. rewrite Hws', Hz in Heq. cbn in Heq.
  destruct Hret as [Hm _]. rewrite Hm in Hq'. cbn in Hq'. rewrite app_nil_r in Hq'.
  rewrite Hq' in Heq. apply Hsome. apply vsize_nil_iff. lia.
Qed.

Lemma no_threads_never_returns_witness :
  exists st,
    run ex_db 2 [MainStep; MainStep; MainStep; MainStep]
      (FetchInputs_enter (construct 0) 2 ∅ ex_block) = Some st /\
    ~ returned st.
Proof.
  eexists. split; [vm_compute; reflexivity |].
  apply (no_threads_never_returns ex_db (construct 0) 2 ∅ ex_block
           [MainStep; MainStep; MainStep; MainStep]).
  - reflexivity.
  - reflexivity.
  - vm_compute. discriminate.
  - vm_compute; reflexivity.
  - vm_compute; reflexivity.
Defined.

(** ** After the stop request *)

(** With the stop requested, a worker at a lock acquisition exits. *)
Lemma step_WorkerLock_stop db bs i st w :
  m_request_stop (guarded st) = true ->
  m_worker_threads st !! i = Some w ->
  w_pc w = AtLock \/ w_pc w = Waiting ->
  step db bs (WorkerLock i) st =
    Some {| guarded := at_claim w (guarded st);
            m_worker_threads :=
              <[i := {| w_pc := Exited;
                        in_flight_fetches_count := in_flight_fetches_count w;
                        pairs := pairs w; outpoints := outpoints w |}]>
                (m_worker_threads st);
            main := main st; cache := cache st |}.
Proof.
  intros Hstop Hw Hpc. unfold step. rewrite Hw, (Loop_locked_at_claim _ _ _ _ Hpc).
  unfold Loop_wait_or_claim. rewrite at_claim_stop, Hstop, andb_false_r. reflexivity.
Qed.

Lemma stop_step db bs a st st' :
  m_request_stop (guarded st) = true ->
  step db bs a st = Some st' ->
  m_request_stop (guarded st') = true /\
  (forall i w', m_worker_threads st' !! i = Some w' -> w_pc w' = Fetching ->
                m_worker_threads st !! i = Some w') /\
  (forall i w, m_worker_threads st !! i = Some w -> w_pc w = Exited ->
               m_worker_threads st' !! i = Some w) /\
  ((cache st' = cache st /\
    (pending_inserts (main st') = pending_inserts (main st) \/
     pending_inserts (main st') = [])) \/
   (cache st' = insert_pairs (pending_inserts (main st)) (cache st) /\
    pending_inserts (main st') = [])).
Proof.
  intros Hstop Hstep. destruct a as [i | i | |].
  - destruct (step_WorkerLock_inv db bs i st st' Hstep)
      as (w & w' & Hw & Hpc & _ & _ & _ & _).
    rewrite (step_WorkerLock_stop db bs i st w Hstop Hw Hpc) in Hstep.
    injection Hstep as <-. cbn [guarded m_worker_threads main cache].
    split; [rewrite at_claim_stop; exact Hstop |]. split; [| split].
    + intros j w'' Hj Hf. destruct (decide (i = j)) as [<- | Hne].
      * rewrite list_lookup_insert_eq in Hj by (apply lookup_lt_Some in Hw; exact Hw).
        injection Hj as <-. discriminate Hf.
      * rewrite list_lookup_insert_ne in Hj by exact Hne. exact Hj.
    + intros j w0 Hj He. destruct (decide (i = j)) as [<- | Hne].
      * rewrite Hw in Hj. injection Hj as <-. destruct Hpc as [H | H]; congruence.
      * rewrite list_lookup_insert_ne by exact Hne. exact Hj.
    + left. split; [reflexivity | left; reflexivity].
  - destruct (step_WorkerFetch_inv db bs i st st' Hstep)
      as (w & Hw & Hpc & Hg & Hws & Hm & Hc).
    split; [rewrite Hg; exact Hstop |]. rewrite Hws. split; [| split].
    + intros j w'' Hj Hf. destruct (decide (i = j)) as [<- | Hne].
      * rewrite list_lookup_insert_eq in Hj by (apply lookup_lt_Some in Hw; exact Hw).
        injection Hj as <-. discriminate Hf.
      * rewrite list_lookup_insert_ne in Hj by exact Hne. exact Hj.
    + intros j w0 Hj He. destruct (decide (i = j)) as [<- | Hne].
      * rewrite Hw in Hj. injection Hj as <-. congruence.
      * rewrite list_lookup_insert_ne by exact Hne. exact Hj.
    + left. split; [exact Hc | left; rewrite Hm; reflexivity].
  - apply step_MainStep_inv in Hstep as [Hws Hm]. rewrite Hws.
    assert (Hsame : forall A (P Q : A -> Prop), (forall x, P x -> Q x) -> forall x, P x -> Q x)
      by auto.
    destruct Hm as [batch adds Hm Hg Hpa Hpi _ Hc | Hm Hg Hm' Hc | Hm Hg Hm' Hc _
                   | Hm Hg Hm' Hc | Hm Hns _ _ _ _ _ _ | ps Hm Hg Hm' Hc].
    + split; [rewrite Hg; rewrite (proj2 (Add_frame batch (guarded st))); exact Hstop |].
      split; [auto | split; [auto |]]. left. split; [exact Hc | right; exact Hpi].
    + split; [rewrite Hg; exact Hstop |]. split; [auto | split; [auto |]].
      left. split; [exact Hc | right; rewrite Hm'; reflexivity].
    + split; [rewrite Hg; exact Hstop |]. split; [auto | split; [auto |]].
      left. split; [exact Hc | right; rewrite Hm'; reflexivity].
    + split; [rewrite Hg; exact Hstop |]. split; [auto | split; [auto |]].
      left. split; [exact Hc | right; rewrite Hm'; reflexivity].
    + congruence.
    + split; [rewrite Hg; exact Hstop |]. split; [auto | split; [auto |]].
      right. rewrite Hm, Hm'. split; [exact Hc | reflexivity].
  - cbn in Hstep. injection Hstep as <-. cbn.
    split; [reflexivity |]. split; [auto | split; [auto |]].
    left. split; [reflexivity | left; reflexivity].
Qed.

(** X21. The stop request is final. From a state with the stop requested,
    under any schedule: the flag stays set; no worker claims a batch any more
    (a worker about to run its lookups was so before); a worker that has
    exited stays so; and the main thread drains nothing more, so the cache
    is as it was, or has received the pairs the main thread was already
    holding for insertion. *)
Theorem stop_is_final (db : gmap COutPoint Coin) (batch_size : Z)
    (sched : list action) (st st' : state) :
  m_request_stop (guarded st) = true ->
  run db batch_size sched st = Some st' ->
  m_request_stop (guarded st') = true /\
  (forall i w', m_worker_threads st' !! i = Some w' -> w_pc w' = Fetching ->
                m_worker_threads st !! i = Some w') /\
  (forall i w, m_worker_threads st !! i = Some w -> w_pc w = Exited ->
               m_worker_threads st' !! i = Some w) /\
  (cache st' = cache st \/
   cache st' = insert_pairs (pending_inserts (main st)) (cache st)).
Proof.
  revert st. induction sched as [|a sched IH]; intros st Hstop Hrun; cbn [run] in Hrun.
  - injection Hrun as <-. split; [exact Hstop |]. split; [auto | split; [auto |]].
    left; reflexivity.
  - destruct (step db batch_size a st) as [st1|] eqn:Hstep; [| discriminate].
    destruct (stop_step db batch_size a st st1 Hstop Hstep) as (Hs1 & Hf1 & He1 & Hc1).
    destruct (IH st1 Hs1 Hrun) as (Hs' & Hf' & He' & Hc').
    split; [exact Hs' |]. split; [| split].
    + intros i w' Hi Hpc. apply Hf1; [apply Hf'; assumption | exact Hpc].
    + intros i w Hi Hpc. apply He'; [apply He1; assumption | exact Hpc].
    + destruct Hc1 as [[Hc1 [Hp1 | Hp1]] | [Hc1 Hp1]].
      * rewrite Hp1, Hc1 in Hc'. exact Hc'.
      * rewrite Hp1, Hc1 in Hc'. cbn in Hc'. left. destruct Hc'; assumption.
      * rewrite Hp1 in Hc'. cbn in Hc'. right. destruct Hc' as [-> | ->]; exact Hc1.
Qed.

Lemma stop_is_final_witness :
  exists st st',
    run ex_db_full 2 [MainStep; MainStep; WorkerLock 0; Destroy]
      (FetchInputs_enter (construct 2) 2 ∅ ex_block) = Some st /\
    run ex_db_full 2 [WorkerLock 1; WorkerFetch 0; WorkerLock 0; MainStep] st = Some st' /\
    m_request_stop (guarded st') = true /\ cache st' = cache st.
Proof.
  eexists. eexists. split; [vm_compute; reflexivity |].
  split; [vm_compute; reflexivity |].
  lazymatch goal with
  | |- m_request_stop (guarded ?b) = true /\ cache ?b = cache ?a =>
      pose proof (stop_is_final ex_db_full 2
                    [WorkerLock 1; WorkerFetch 0; WorkerLock 0; MainStep] a b
                    ltac:(vm_compute; reflexivity) ltac:(vm_compute; reflexivity))
        as (H1 & _ & _ & H4)
  end.
  split; [exact H1 |]. destruct H4 as [H4 | H4]; exact H4.
Defined.

(** ** The destructor *)




(** ** What the workers look up *)

(** X23. During a call on an idle fetcher, a worker only looks up outpoints
    that the scan has selected: every outpoint of a batch a worker is about
    to fetch is the prevout of an input of a non-coinbase transaction of the
    block, is not the output of a transaction the scan has recorded before
    that input, and was not in the cache when the call began. *)
Theorem lookups_only_scanned (db : gmap COutPoint Coin) (f : shared * list worker)
    (batch_size : Z) (c : gmap COutPoint CCoinsCacheEntry) (block : CBlock)
    (sched : list action) (st : state) (i : nat) (w : worker) (o : COutPoint) :
  idle f = true ->
  vsize (fetch_targets c batch_size block) < SIZE_MAX_plus_1 ->
  run db batch_size sched (FetchInputs_enter f batch_size c block) = Some st ->
  m_worker_threads st !! i = Some w ->
  w_pc w = Fetching ->
  o ∈ outpoints w ->
  scanned c block o.
Proof.
  intros Hidle Hfit Hrun Hw Hpc Ho.
  pose proof (run_sound_inv db f batch_size c block sched st Hidle Hfit Hrun) as Hs.
  pose proof (Forall_lookup_1 _ _ _ _ (sound_workers _ _ _ _ Hs) Hw) as Hwt.
  cbn beta in Hwt. apply (elem_of_fetch_targets c batch_size block o).
  apply Hwt. unfold held_outpoints. rewrite Hpc. exact Ho.
Qed.

Lemma lookups_only_scanned_witness :
  scanned ∅ ex_block ex_b.
Proof.
  apply (lookups_only_scanned ex_db (construct 1) 2 ∅ ex_block
           [MainStep; MainStep; WorkerLock 0]
           {| guarded := {| m_outpoints := []; m_pairs := [];
                            m_in_flight_fetches_count := 2; m_request_stop := false |};
              m_worker_threads :=
                [{| w_pc := Fetching; in_flight_fetches_count := 2; pairs := [];
                    outpoints := [ex_a; ex_b] |}];
              main := AtDrainLock; cache := ∅ |}
           0%nat
           {| w_pc := Fetching; in_flight_fetches_count := 2; pairs := [];
              outpoints := [ex_a; ex_b] |}
           ex_b).
  - reflexivity.
  - vm_compute; reflexivity.
  - vm_compute; reflexivity.
  - reflexivity.
  - reflexivity.
  - set_solver.
Defined.

(** ** Reuse and progress *)

Lemma FetchInputs_returns_idle_witness :
  exists st,
    run ex_db_full 2 ex_sched_1 (FetchInputs_enter (construct 1) 2 ∅ ex_block) = Some st /\
    idle (guarded st, m_worker_threads st) = true.
Proof.
  eexists. split; [vm_compute; reflexivity |].
  apply (FetchInputs_returns_idle ex_db_full (construct 1) 2 ∅ ex_block ex_sched_1).
  - reflexivity.
  - vm_compute; reflexivity.
  - vm_compute; reflexivity.
  - split; reflexivity.
Defined.

(** ** No deadlock *)





Section Settle.
Variable db : gmap COutPoint Coin.
Variable bs : Z.
Variable total : Z.
Hypothesis total_fits : total < SIZE_MAX_plus_1.




End Settle.



End FetcherProps.

(* ===================================================================== *)
(** * Properties of bilingual messages                                     *)
(* ===================================================================== *)

Module TranslationProps.
Import Translation.

Lemma string_app_assoc (s t u : string) : ((s +:+ t) +:+ u = s +:+ (t +:+ u))%string.
Proof.
  induction s as [|a s IH]; [reflexivity |].
  change (String a ((s +:+ t) +:+ u) = String a (s +:+ (t +:+ u)))%string.
  f_equal. exact IH.
Qed.

Lemma string_app_nil_r (s : string) : (s +:+ EmptyString = s)%string.
Proof.
  induction s as [|a s IH]; [reflexivity |].
  change (String a (s +:+ EmptyString) = String a s)%string. f_equal. exact IH.
Qed.

(** X26. [operator+] on bilingual strings is associative, with a cleared
    string as unit on both sides; a sum is empty exactly when both operands
    are; and [Untranslated] commutes with concatenation. *)
Theorem bilingual_plus_laws (a b c : bilingual_str) (s t : string) :
  plus (plus a b) c = plus a (plus b c) /\
  plus (clear a) b = b /\
  plus a (clear b) = a /\
  empty (clear a) = true /\
  empty (plus a b) = empty a && empty b /\
  plus (Untranslated s) (Untranslated t) = Untranslated (s +:+ t).
Proof.
  destruct a as [ao at_], b as [bo bt], c as [co ct].
  unfold plus, plus_assign, clear, empty, Untranslated. cbn [original translated].
  repeat apply conj; try reflexivity.
  - rewrite !string_app_assoc. reflexivity.
  - rewrite !string_app_nil_r. reflexivity.
  - destruct ao as [|x ao]; [| reflexivity]. cbn. destruct bo; reflexivity.
Qed.

(** X27. In the kernel library, where [G_TRANSLATION_FUN] is empty, every
    message put together from literals, untranslated strings and [+] has its
    translation equal to its original; and whatever the translation
    function, the original of a message does not depend on it. *)
Theorem kernel_messages_are_untranslated (m : message)
    (G1 G2 : option (string -> string)) :
  translated (message_value kernel_G_TRANSLATION_FUN m) =
    original (message_value kernel_G_TRANSLATION_FUN m) /\
  original (message_value G1 m) = original (message_value G2 m).
Proof.
  induction m as [translatable lit | s | lhs [IHl1 IHl2] rhs [IHr1 IHr2]];
    cbn [message_value].
  - split; [| reflexivity]. destruct translatable; reflexivity.
  - split; reflexivity.
  - unfold plus, plus_assign. cbn [original translated].
    split; congruence.
Qed.

End TranslationProps.
